(** * Shufffle: sequence generation and export pipeline

    A shallow embedding of the page component of the shufffle application
    (the [Index] component: clip catalog, [generateSequences],
    [exportSequence], [downloadAllSequences]) and the properties of its
    behaviour.

    Conventions of the embedding:
    - React state cells ([sequences], [availableClips], [loading]) are the
      fields of a record that every handler takes and returns;
    - a duration is a JavaScript number, an IEEE 754 binary64 value, and is
      added as such;
    - [Math.random()] is a rational number supplied by the environment; a
      run of the generator consumes one [Draw] per iteration of its
      [while] loop, and a finite list of draws is a prefix of one
      realization of the random choices;
    - the in-memory file system of the media engine is a finite map from
      file names to contents, and the engine itself is a parameter;
    - [throw] is the left injection of a sum. *)

From Stdlib Require Import QArith Qround.
From Stdlib Require Import Floats.SpecFloat.
From stdpp Require Import base gmap sets list strings pretty sorting.
From Stdlib Require Import Strings.Byte OrderedTypeEx.

Local Open Scope string_scope.
Local Open Scope list_scope.
Local Open Scope nat_scope.

(** ** Numbers

    A JavaScript number is an IEEE 754 binary64 value, and [+] rounds its
    result to the nearest one, ties to even. *)

Module Double.
Definition t : Type := spec_float.
Definition prec : Z := 53.
Definition emax : Z := 1024.

(** [0] *)
Definition zero : t := S754_zero false.

(** [x + y] *)
Definition add (x y : t) : t := SFadd prec emax x y.

(** The number of an integer. *)
Definition ofZ (z : Z) : t := binary_normalize prec emax z 0 false.

(** The number that a decimal literal of the value [q] denotes, the one
    nearest to [q]; for numerators and denominators below [2^53]. *)
Definition literal (q : Q) : t :=
  SFdiv prec emax (ofZ (Qnum q)) (ofZ (Zpos (Qden q))).

End Double.

(** ** Data model *)

Inductive ClipType := hook | selling_point | cta.

#[global] Instance ClipType_eq_dec : EqDecision ClipType.
Proof. solve_decision. Defined.

(** The contents of an uploaded [File]. *)
Definition File := list byte.

Module VideoClip.
Record t := mk {
  id : string;
  name : string;
  duration : Double.t;
  type : ClipType;
  file : option File
}.
End VideoClip.

Module Sequence.
Record t := mk {
  id : string;
  clips : list VideoClip.t;
  duration : Double.t
}.
End Sequence.

Inductive Toast :=
| toast_success (msg : string)
| toast_error (msg : string).

(** The state cells of the component that the handlers below read or set. *)
Record State := mkState {
  sequences : list Sequence.t;
  availableClips : list VideoClip.t;
  loading : bool
}.

(** ** Clip catalog *)

(** [{ ...clip, type: newType }] *)
Definition withType (newType : ClipType) (clip : VideoClip.t) : VideoClip.t :=
  VideoClip.mk (VideoClip.id clip) (VideoClip.name clip)
    (VideoClip.duration clip) newType (VideoClip.file clip).

(** [clip => clip.id === clipId ? { ...clip, type: newType } : clip] *)
Definition retagClip (clipId : string) (newType : ClipType) (clip : VideoClip.t)
  : VideoClip.t :=
  if bool_decide (VideoClip.id clip = clipId) then withType newType clip else clip.

Definition updateClipType (clipId : string) (newType : ClipType) (st : State)
  : State :=
  mkState (sequences st)
          (map (retagClip clipId newType) (availableClips st))
          (loading st).

Definition removeClip (clipId : string) (st : State) : State * list Toast :=
  (mkState (sequences st)
     (filter (λ clip, VideoClip.id clip ≠ clipId) (availableClips st))
     (loading st),
   [toast_success "Clip removed"]).

Definition removeAllClips (st : State) : State * list Toast :=
  (mkState (sequences st) [] (loading st), [toast_success "All clips removed"]).

Definition deleteSequence (sequenceId : string) (st : State) : State * list Toast :=
  (mkState
     (filter (λ seq, Sequence.id seq ≠ sequenceId) (sequences st))
     (availableClips st) (loading st),
   [toast_success "Sequence removed"]).

(** ** Random choices *)

(** The random numbers that one iteration of the generation loop reads.
    [u_hook], [u_cta] and [u_count] are the values of the three explicit
    calls of [Math.random()].  The comparator of the shuffling sort,
    [() => Math.random() - 0.5], ignores its arguments, so the order the
    sort leaves the array in is some permutation that depends on the random
    numbers only; [shuffle_code] names that permutation (see
    [shuffleWith]). *)
Record Draw := mkDraw {
  u_hook : Q;
  u_cta : Q;
  u_count : Q;
  shuffle_code : list nat
}.

(** [Math.random()] returns a number in the interval [0, 1). *)
Definition unit_interval (u : Q) : Prop := (0 <= u)%Q /\ (u < 1)%Q.

Definition valid_draw (d : Draw) : Prop :=
  unit_interval (u_hook d) /\ unit_interval (u_cta d) /\ unit_interval (u_count d).

(** [Math.floor(u * n)] for a random [u] and an array length [n].  The
    product is the exact one; the code rounds it to a binary64 number before
    it takes the floor, and may so read the next index for some [u].  An
    index read with [u] in the unit interval is below [n] here as there, and
    the properties below hold for whichever of the indices below [n] a draw
    reads. *)
Definition floorRandom (u : Q) (n : nat) : nat :=
  Z.to_nat (Qfloor (u * inject_Z (Z.of_nat n))).

Definition insertAt {A} (k : nat) (x : A) (l : list A) : list A :=
  take k l ++ x :: drop k l.

(** The permutation of [l] named by [code]: the elements are placed from
    the last one to the first, each at the position its code gives among the
    elements already placed.  Every permutation of [l] has a code. *)
Fixpoint shuffleWith {A} (code : list nat) (l : list A) : list A :=
  match l with
  | [] => []
  | x :: rest =>
      let placed := shuffleWith (tl code) rest in
      insertAt (hd 0 code mod S (length placed)) x placed
  end.

(** ** Sequence generator *)

Definition ofType (ty : ClipType) (clips : list VideoClip.t) : list VideoClip.t :=
  filter (λ clip, VideoClip.type clip = ty) clips.

(** [Array.prototype.sort()] without comparator on strings: ascending in
    the order of their code units. *)
Fixpoint insertSorted (s : string) (l : list string) : list string :=
  match l with
  | [] => [s]
  | t :: rest => if String.leb s t then s :: l else t :: insertSorted s rest
  end.

Definition sortStrings (l : list string) : list string :=
  fold_right insertSorted [] l.

(** The parts of the dedup key before they are joined. *)
Definition keyParts (selectedHook : VideoClip.t)
    (shuffledSellingPoints : list VideoClip.t) (selectedCTA : VideoClip.t)
  : list string :=
  VideoClip.id selectedHook
    :: sortStrings (map VideoClip.id shuffledSellingPoints)
    ++ [VideoClip.id selectedCTA].

Definition combinationKey (selectedHook : VideoClip.t)
    (shuffledSellingPoints : list VideoClip.t) (selectedCTA : VideoClip.t)
  : string :=
  String.concat "|" (keyParts selectedHook shuffledSellingPoints selectedCTA).

(** [sequenceClips.reduce((acc, clip) => acc + clip.duration, 0)] *)
Definition totalDuration (sequenceClips : list VideoClip.t) : Double.t :=
  fold_left (fun acc clip => Double.add acc (VideoClip.duration clip)) sequenceClips
    Double.zero.

Definition maxCombinations (hooks sellingPoints ctas : list VideoClip.t) : nat :=
  length hooks * length ctas * 2 ^ length sellingPoints.

Definition numSequences (hooks sellingPoints ctas : list VideoClip.t) : nat :=
  Nat.min 10 (maxCombinations hooks sellingPoints ctas).

(** How a run of the loop on a prefix of the random choices stands at the
    end of the prefix: [Exited], the loop condition became false;
    [Spinning], the draws given are used up and the loop is still running;
    [TypeError], an array was indexed out of range and a field of
    [undefined] was read. *)
Inductive LoopResult :=
| Exited (newSequences : list Sequence.t)
| Spinning (newSequences : list Sequence.t)
| TypeError.

(** The [while] loop of [generateSequences], run on a prefix [draws] of the
    random choices. *)
Fixpoint generateLoop (hooks sellingPoints ctas : list VideoClip.t) (target : nat)
    (draws : list Draw)
    (newSequences : list Sequence.t) (usedCombinations : gset string)
  : LoopResult :=
  match draws with
  | [] =>
      if length newSequences <? target then Spinning newSequences
      else Exited newSequences
  | d :: draws' =>
      if length newSequences <? target then
        match hooks !! floorRandom (u_hook d) (length hooks),
              ctas !! floorRandom (u_cta d) (length ctas) with
        | Some selectedHook, Some selectedCTA =>
            let numSellingPoints :=
              Nat.min (floorRandom (u_count d) 3 + 1) (length sellingPoints) in
            let shuffledSellingPoints :=
              take numSellingPoints (shuffleWith (shuffle_code d) sellingPoints) in
            let key := combinationKey selectedHook shuffledSellingPoints selectedCTA in
            if bool_decide (key ∈ usedCombinations) then
              generateLoop hooks sellingPoints ctas target draws'
                newSequences usedCombinations
            else
              let sequenceClips :=
                selectedHook :: shuffledSellingPoints ++ [selectedCTA] in
              generateLoop hooks sellingPoints ctas target draws'
                (newSequences ++
                   [Sequence.mk
                      ("sequence-" +:+ pretty (length newSequences + 1))
                      sequenceClips (totalDuration sequenceClips)])
                ({[key]} ∪ usedCombinations)
        | _, _ => TypeError
        end
      else Exited newSequences
  end.

(** The outcome of the handler: it [Returned] with a state and toasts, it
    is still inside the [while] loop when the draws given are used up
    ([Hung]), or it [Threw]. *)
Inductive GenResult :=
| Returned (st : State) (toasts : list Toast)
| Hung
| Threw.

(** [generateSequences], the handler of the "Generate Sequences" button. *)
Definition generateSequences (draws : list Draw) (st : State) : GenResult :=
  if length (availableClips st) =? 0 then
    Returned st [toast_error "Please upload some video clips first"]
  else
    let hooks := ofType hook (availableClips st) in
    let sellingPoints := ofType selling_point (availableClips st) in
    let ctas := ofType cta (availableClips st) in
    if (length hooks =? 0) || (length ctas =? 0) then
      Returned st [toast_error "You need at least one hook and one CTA clip"]
    else
      match generateLoop hooks sellingPoints ctas
              (numSequences hooks sellingPoints ctas) draws [] ∅ with
      | Exited newSequences =>
          Returned (mkState newSequences (availableClips st) false)
            [toast_success
               ("Generated " +:+ pretty (length newSequences) +:+ " unique sequences!")]
      | Spinning _ => Hung
      | TypeError => Threw
      end.

(** The dedup key of a clip list of the form [hook :: sellingPoints ++ [cta]]. *)
Definition clipsKey (clips : list VideoClip.t) : string :=
  match clips with
  | [] => ""
  | first :: rest => combinationKey first (removelast rest) (List.last rest first)
  end.

(** What one iteration of the loop reads off its draw. *)
Definition drawn (hooks sellingPoints ctas : list VideoClip.t) (d : Draw)
    (selectedHook : VideoClip.t) (shuffledSellingPoints : list VideoClip.t)
    (selectedCTA : VideoClip.t) : Prop :=
  hooks !! floorRandom (u_hook d) (length hooks) = Some selectedHook ∧
  ctas !! floorRandom (u_cta d) (length ctas) = Some selectedCTA ∧
  shuffledSellingPoints =
    take (Nat.min (floorRandom (u_count d) 3 + 1) (length sellingPoints))
         (shuffleWith (shuffle_code d) sellingPoints).

(** The sequence that an accepted draw appends to [newSequences]. *)
Definition emitted (newSequences : list Sequence.t) (selectedHook : VideoClip.t)
    (shuffledSellingPoints : list VideoClip.t) (selectedCTA : VideoClip.t)
  : Sequence.t :=
  let sequenceClips := selectedHook :: shuffledSellingPoints ++ [selectedCTA] in
  Sequence.mk ("sequence-" +:+ pretty (length newSequences + 1))
    sequenceClips (totalDuration sequenceClips).

Definition sequenceKey (s : Sequence.t) : string := clipsKey (Sequence.clips s).

(** [fromDraw D hooks sellingPoints ctas s]: the sequence [s] is what some
    draw satisfying [D] selects from the three groups. *)
Definition fromDraw (D : Draw → Prop) (hooks sellingPoints ctas : list VideoClip.t)
    (s : Sequence.t) : Prop :=
  ∃ d h sps c,
    D d ∧ drawn hooks sellingPoints ctas d h sps c ∧
    Sequence.clips s = h :: sps ++ [c] ∧
    Sequence.duration s = totalDuration (Sequence.clips s).

(** The sequences are numbered from 1 in the order of the list. *)
Definition numbered (ns : list Sequence.t) : Prop :=
  ∀ i s, ns !! i = Some s → Sequence.id s = "sequence-" +:+ pretty (i + 1).

Definition generated (D : Draw → Prop) (hooks sellingPoints ctas : list VideoClip.t)
    (ns : list Sequence.t) : Prop :=
  NoDup (map sequenceKey ns) ∧
  Forall (fromDraw D hooks sellingPoints ctas) ns ∧
  numbered ns.




(** [hasShape lo hi s]: the clips of [s] are one hook, then between [lo] and
    [hi] selling points, then one call to action. *)
Definition hasShape (lo hi : nat) (s : Sequence.t) : Prop :=
  ∃ h sps c,
    Sequence.clips s = h :: sps ++ [c] ∧
    VideoClip.type h = hook ∧
    Forall (λ sp, VideoClip.type sp = selling_point) sps ∧
    VideoClip.type c = cta ∧
    lo ≤ length sps ≤ hi.

(** ** Concrete catalogs *)

(** The clips of the demonstration catalog of the first version of the page
    ([availableClips] in [src/pages/Index.tsx]). *)
Definition hook1 := VideoClip.mk "1" "Hook 1" (Double.literal (5 # 2)) hook None.
Definition hook2 := VideoClip.mk "2" "Hook 2" (Double.literal 3) hook None.
Definition feature1 := VideoClip.mk "3" "Feature 1" (Double.literal 2) selling_point None.
Definition feature2 := VideoClip.mk "4" "Feature 2" (Double.literal (5 # 2)) selling_point None.
Definition feature3 := VideoClip.mk "5" "Feature 3" (Double.literal 3) selling_point None.
Definition cta1 := VideoClip.mk "6" "CTA 1" (Double.literal 2) cta None.
Definition cta2 := VideoClip.mk "7" "CTA 2" (Double.literal (5 # 2)) cta None.

Definition demoCatalog : list VideoClip.t :=
  [hook1; hook2; feature1; feature2; feature3; cta1; cta2].

Definition demoState : State := mkState [] demoCatalog false.

(** Twelve draws on the demonstration catalog; the third and the eighth
    repeat a combination already used. *)
Definition demoDraws : list Draw :=
  [ mkDraw 0 0 0 [];
    mkDraw (1 # 2) 0 (1 # 3) [1; 0];
    mkDraw 0 0 (1 # 10) [];
    mkDraw 0 (1 # 2) (2 # 3) [2; 1];
    mkDraw (3 # 4) (3 # 4) (1 # 2) [0; 1];
    mkDraw (1 # 4) (9 # 10) 0 [1];
    mkDraw (1 # 2) 0 (9 # 10) [];
    mkDraw (1 # 2) (1 # 4) (1 # 2) [0; 0];
    mkDraw 0 0 (1 # 2) [0; 1];
    mkDraw (1 # 2) (1 # 2) 0 [2];
    mkDraw 0 (1 # 2) (1 # 2) [];
    mkDraw (1 # 2) 0 0 [0; 0; 0] ].

(** What [generateSequences] leaves in [sequences] on these draws. *)
Definition demoSequences : list Sequence.t :=
  [ Sequence.mk "sequence-1" [hook1; feature1; cta1] (Double.literal (13 # 2));
    Sequence.mk "sequence-2" [hook2; feature2; feature1; cta1] (Double.literal (19 # 2));
    Sequence.mk "sequence-3" [hook1; feature3; feature2; feature1; cta2] (Double.literal (100 # 8));
    Sequence.mk "sequence-4" [hook2; feature1; feature3; cta2] (Double.literal (21 # 2));
    Sequence.mk "sequence-5" [hook1; feature2; cta2] (Double.literal (60 # 8));
    Sequence.mk "sequence-6" [hook2; feature1; feature2; feature3; cta1] (Double.literal (25 # 2));
    Sequence.mk "sequence-7" [hook1; feature1; feature3; cta1] (Double.literal (19 # 2));
    Sequence.mk "sequence-8" [hook2; feature2; cta2] (Double.literal (32 # 4));
    Sequence.mk "sequence-9" [hook1; feature1; feature2; cta2] (Double.literal (76 # 8));
    Sequence.mk "sequence-10" [hook2; feature1; cta1] (Double.literal 7) ].

Definition demoGenerated : State := mkState demoSequences demoCatalog false.

Definition demoToasts : list Toast :=
  [toast_success "Generated 10 unique sequences!"].

(** A catalog without selling points. *)
Definition bareCatalog : list VideoClip.t := [hook1; cta1].
Definition bareState : State := mkState [] bareCatalog false.
Definition bareSequences : list Sequence.t :=
  [Sequence.mk "sequence-1" [hook1; cta1] (Double.literal (9 # 2))].


(** One hook, one selling point, one call to action. *)
Definition tripleCatalog : list VideoClip.t := [hook1; feature1; cta1].
Definition tripleState : State := mkState [] tripleCatalog false.

(** The error kind [InsufficientInput]: the error toasts with which
    [generateSequences] refuses a catalog. *)
Definition InsufficientInput (t : Toast) : Prop :=
  t = toast_error "Please upload some video clips first" ∨
  t = toast_error "You need at least one hook and one CTA clip".

(** A state that holds generated sequences and whose catalog has lost its
    calls to action since. *)
Definition noCtaState : State := mkState demoSequences [hook1; hook2; feature1] false.

(** The invariant of the generation loop: [usedCombinations] holds exactly
    the keys of the sequences emitted so far, there are no more of them
    than asked for, and they are pairwise different. *)
Definition loopInv (D : Draw → Prop) (hooks sellingPoints ctas : list VideoClip.t)
    (target : nat) (ns : list Sequence.t) (used : gset string) : Prop :=
  (∀ k, k ∈ used ↔ k ∈ map sequenceKey ns) ∧
  length ns ≤ target ∧
  generated D hooks sellingPoints ctas ns.

(** The order of [Array.prototype.sort()] on strings. *)
Definition strLe (s t : string) : Prop := String.leb s t = true.

(** The sublists of [l] other than the empty one. *)
Fixpoint nonemptySublists {A} (l : list A) : list (list A) :=
  match l with
  | [] => []
  | x :: rest =>
      [x] :: map (cons x) (nonemptySublists rest) ++ nonemptySublists rest
  end.

(** The keys that the draws can yield on a catalog with at least one
    selling point: one for each hook, each non-empty selection of selling
    points and each call to action. *)
Definition reachableKeys (hooks sellingPoints ctas : list VideoClip.t) : list string :=
  map (λ p : VideoClip.t * list VideoClip.t * VideoClip.t,
         combinationKey p.1.1 p.1.2 p.2)
      (list_prod (list_prod hooks (nonemptySublists sellingPoints)) ctas).

(** One hook, two selling points, one call to action. *)
Definition twoFeaturesCatalog : list VideoClip.t := [hook1; feature1; feature2; cta1].
Definition twoFeaturesState : State := mkState [] twoFeaturesCatalog false.

(** ** The media engine and its working area *)

(** What a file of the engine's file system holds: [writeFile] takes a
    string or a byte array. *)
Inductive FileData :=
| Text (content : string)
| Binary (content : list byte).

#[global] Instance byte_eq_decision : EqDecision byte := Byte.byte_eq_dec.

#[global] Instance FileData_eq_dec : EqDecision FileData.
Proof. solve_decision. Defined.

(** The working area: the files of the engine, by name. *)
Abbreviation FS := (gmap string FileData).

(** A thrown [Error]. *)
Inductive Exn := Error (message : string).

(** [ffmpeg.exec(args)]: the call rejects, or resolves and leaves a file
    system behind. *)
Definition Engine := list string → FS → Exn + FS.

(** The engine is asked to concatenate into ['output.mp4']; an engine
    that keeps to this writes that file and no other. *)
Definition writesOutputOnly (E : Engine) : Prop :=
  ∀ args fs fs', E args fs = inr fs' → ∃ out, fs' = <["output.mp4" := out]> fs.

(** What a download carries: [new Blob([outputData], { type: 'video/mp4' })],
    or the archive of the files added to the [JSZip] object, in order. *)
Inductive Payload :=
| VideoBlob (data : FileData)
| ZipBlob (entries : list (string * FileData)).

(** What the page does to the outside, in the order it does it; [Exec] is
    a call of the engine, with the file system it runs on. *)
Inductive Event :=
| Toasted (t : Toast)
| ConsoleError (label : string) (e : Exn)
| Exec (args : list string) (fs : FS)
| Downloaded (filename : string) (content : Payload).

Record World := mkWorld {
  state : State;
  ffmpegLoading : bool;
  ffmpeg : option FS;
  log : list Event
}.

(** ** Computations that change the world and may throw *)

Definition M (A : Type) : Type := World → (Exn + A) * World.

#[global] Instance M_ret : MRet M := λ A a w, (inr a, w).
#[global] Instance M_bind : MBind M := λ A B f m w,
  match m w with
  | (inr a, w') => f a w'
  | (inl e, w') => (inl e, w')
  end.

Definition throw {A} (e : Exn) : M A := λ w, (inl e, w).

(** [try { body } catch (error) { handler(error) } finally { final }],
    for a [final] that does not throw. *)
Definition tryCatchFinally {A} (body : M A) (handler : Exn → M A) (final : M ())
  : M A := λ w,
  let (r, w') := match body w with
                 | (inr a, w1) => (inr a, w1)
                 | (inl e, w1) => handler e w1
                 end in
  (r, (final w').2).

Definition emit (ev : Event) : M () := λ w,
  (inr (), mkWorld (state w) (ffmpegLoading w) (ffmpeg w) (log w ++ [ev])).

Definition toast (t : Toast) : M () := emit (Toasted t).

Definition setLoading (b : bool) : M () := λ w,
  (inr (),
   mkWorld (mkState (sequences (state w)) (availableClips (state w)) b)
     (ffmpegLoading w) (ffmpeg w) (log w)).

Definition when (b : bool) (m : M ()) : M () := if b then m else mret ().

Definition notLoaded : Exn :=
  Error "ffmpeg is not loaded, call `await ffmpeg.load()` first".

Definition setFS (fs : FS) : M () := λ w,
  (inr (), mkWorld (state w) (ffmpegLoading w) (Some fs) (log w)).

Definition getFS : M FS := λ w,
  match ffmpeg w with
  | Some fs => (inr fs, w)
  | None => (inl notLoaded, w)
  end.

Definition writeFile (path : string) (data : FileData) : M () :=
  fs ← getFS; setFS (<[path := data]> fs).

Definition readFile (path : string) : M FileData :=
  fs ← getFS;
  match fs !! path with
  | Some data => mret data
  | None => throw (Error ("ErrnoError: FS error: " +:+ path))
  end.

Definition deleteFile (path : string) : M () :=
  fs ← getFS;
  match fs !! path with
  | Some _ => setFS (delete path fs)
  | None => throw (Error ("ErrnoError: FS error: " +:+ path))
  end.

Definition exec (E : Engine) (args : list string) : M () :=
  fs ← getFS;
  emit (Exec args fs);;
  match E args fs with
  | inr fs' => setFS fs'
  | inl e => throw e
  end.

(** ** Export pipeline *)

Definition newline : string := String (Ascii.ascii_of_nat 10) EmptyString.

(** [`input${i}.mp4`] *)
Definition inputName (i : nat) : string := "input" +:+ pretty i +:+ ".mp4".

Definition concatArgs : list string :=
  ["-f"; "concat"; "-safe"; "0"; "-i"; "list.txt"; "-c"; "copy"; "output.mp4"].

(** The first loop of [exportSequence], from position [i] on: every clip
    is written to the working area and listed in the manifest. *)
Fixpoint writeInputs (clips : list VideoClip.t) (i : nat) (listFileContent : string)
  : M string :=
  match clips with
  | [] => mret listFileContent
  | clip :: rest =>
      match VideoClip.file clip with
      | None => throw (Error ("Missing file for clip: " +:+ VideoClip.name clip))
      | Some inputData =>
          writeFile (inputName i) (Binary inputData);;
          writeInputs rest (S i)
            (listFileContent +:+ "file " +:+ inputName i +:+ newline)
      end
  end.

(** The cleaning loop of [exportSequence], from position [i] on. *)
Fixpoint deleteInputs (clips : list VideoClip.t) (i : nat) : M () :=
  match clips with
  | [] => mret ()
  | _ :: rest => deleteFile (inputName i);; deleteInputs rest (S i)
  end.

(** [`restitched ${index + 1}.mp4`] *)
Definition restitchedName (index : nat) : string :=
  "restitched " +:+ pretty (index + 1) +:+ ".mp4".

(** [!index] for the optional parameter [index?: number]. *)
Definition notIndex (index : option nat) : bool :=
  match index with
  | None | Some 0 => true
  | Some (S _) => false
  end.

Record NamedBuffer := mkNamedBuffer {
  buffer_name : string;
  buffer_data : FileData
}.

Definition exportBody (E : Engine) (sequence : Sequence.t) (index : option nat)
  : M (option NamedBuffer) :=
  setLoading true;;
  when (notIndex index) (toast (toast_success "Starting export..."));;
  listFileContent ← writeInputs (Sequence.clips sequence) 0 "";
  writeFile "list.txt" (Text listFileContent);;
  exec E concatArgs;;
  outputData ← readFile "output.mp4";
  match index with
  | Some i =>
      mret (Some (mkNamedBuffer (restitchedName i) outputData))
  | None =>
      emit (Downloaded ("restitched " +:+ Sequence.id sequence +:+ ".mp4")
              (VideoBlob outputData));;
      deleteInputs (Sequence.clips sequence) 0;;
      deleteFile "list.txt";;
      deleteFile "output.mp4";;
      when (notIndex index) (toast (toast_success "Export completed!"));;
      mret None
  end.

(** [exportSequence(sequence, index?)] *)
Definition exportSequence (E : Engine) (sequence : Sequence.t) (index : option nat)
  : M (option NamedBuffer) := λ w,
  if ffmpegLoading w || bool_decide (ffmpeg w = None) then
    (toast (toast_error "Please wait for video processing to initialize");;
     mret None) w
  else
    tryCatchFinally
      (exportBody E sequence index)
      (λ error,
         emit (ConsoleError "Export error:" error);;
         when (notIndex index) (toast (toast_error "Failed to export sequence"));;
         throw error)
      (when (notIndex index) (setLoading false))
      w.

(** The loop of [downloadAllSequences], from position [i] on; [zip] holds
    the files added so far. *)
Fixpoint exportAll (E : Engine) (seqs : list Sequence.t) (i : nat)
    (zip : list (string * FileData)) : M (list (string * FileData)) :=
  match seqs with
  | [] => mret zip
  | sequence :: rest =>
      result ← exportSequence E sequence (Some i);
      exportAll E rest (S i)
        match result with
        | Some r => zip ++ [(restitchedName i, buffer_data r)]
        | None => zip
        end
  end.

(** [downloadAllSequences()] *)
Definition downloadAllSequences (E : Engine) : M () := λ w,
  if ffmpegLoading w || bool_decide (ffmpeg w = None)
     || (length (sequences (state w)) =? 0) then
    toast (toast_error "No sequences to download or processing not ready") w
  else
    (setLoading true;;
     toast (toast_success "Starting batch download...");;
     tryCatchFinally
       (zip ← exportAll E (sequences (state w)) 0 [];
        emit (Downloaded "restitched-sequences.zip" (ZipBlob zip));;
        toast (toast_success "All sequences downloaded!"))
       (λ error,
          emit (ConsoleError "Batch download error:" error);;
          toast (toast_error "Failed to download all sequences"))
       (setLoading false))
      w.

(** ** A stand-in engine and uploaded clips *)

Fixpoint countLines (s : string) : nat :=
  match s with
  | EmptyString => 0
  | String ch rest =>
      (if Ascii.eqb ch (Ascii.ascii_of_nat 10) then 1 else 0) + countLines rest
  end.

(** The bytes of the [n] inputs from position [i] on, one after the other;
    no result when one of them is absent, is not binary or is empty. *)
Fixpoint readInputs (fs : FS) (n i : nat) : option (list byte) :=
  match n with
  | 0 => Some []
  | S n' =>
      match fs !! inputName i with
      | Some (Binary (b :: bs)) => app (b :: bs) <$> readInputs fs n' (S i)
      | _ => None
      end
  end.

(** An engine for the examples: it joins the inputs that the manifest
    lists, and rejects when it cannot read one of them. *)
Definition stubEngine : Engine := λ args fs,
  match fs !! "list.txt" with
  | Some (Text manifest) =>
      match readInputs fs (countLines manifest) 0 with
      | Some out => inr (<["output.mp4" := Binary out]> fs)
      | None => inl (Error "Invalid data found when processing input")
      end
  | _ => inl (Error "list.txt: No such file or directory")
  end.

Definition introClip :=
  VideoClip.mk "clip-1" "intro hook" (Double.literal (5 # 2)) hook (Some [x01; x02]).
Definition priceClip :=
  VideoClip.mk "clip-2" "price" (Double.literal 2) selling_point (Some [x03]).
Definition buyClip :=
  VideoClip.mk "clip-3" "buy cta" (Double.literal 2) cta (Some [x04; x05]).
(** A clip whose file is gone. *)
Definition lostClip :=
  VideoClip.mk "clip-4" "speed" (Double.literal 3) selling_point None.

Definition fullSequence : Sequence.t :=
  Sequence.mk "sequence-1" [introClip; priceClip; buyClip] (Double.literal (13 # 2)).
Definition shortSequence : Sequence.t :=
  Sequence.mk "sequence-2" [introClip; buyClip] (Double.literal (9 # 2)).
Definition brokenSequence : Sequence.t :=
  Sequence.mk "sequence-3" [introClip; lostClip; buyClip] (Double.literal (15 # 2)).

(** The page with the engine loaded and an empty working area. *)
Definition readyWorld (seqs : list Sequence.t) : World :=
  mkWorld (mkState seqs [introClip; priceClip; buyClip; lostClip] false)
    false (Some ∅) [].

(** ** Reading the log *)

(** What the user and the console are told. *)
Definition isReport (ev : Event) : bool :=
  match ev with
  | Toasted _ | ConsoleError _ _ => true
  | _ => false
  end.

Definition reports (events : list Event) : list Event := List.filter isReport events.

(** The file systems on which the engine was called, in order. *)
Definition execs (events : list Event) : list FS :=
  omap (λ ev, match ev with Exec _ fs => Some fs | _ => None end) events.

Definition downloads (events : list Event) : list (string * Payload) :=
  omap (λ ev, match ev with Downloaded f c => Some (f, c) | _ => None end) events.

(** ** What the first loop of [exportSequence] leaves behind *)

(** The first clip without a file, if there is one. *)
Fixpoint firstMissing (clips : list VideoClip.t) : option VideoClip.t :=
  match clips with
  | [] => None
  | clip :: rest =>
      match VideoClip.file clip with
      | None => Some clip
      | Some _ => firstMissing rest
      end
  end.

(** The working area after the inputs of [clips] were written from position
    [i] on, up to the first clip without a file. *)
Fixpoint stage (clips : list VideoClip.t) (i : nat) (fs : FS) : FS :=
  match clips with
  | [] => fs
  | clip :: rest =>
      match VideoClip.file clip with
      | None => fs
      | Some inputData => stage rest (S i) (<[inputName i := Binary inputData]> fs)
      end
  end.

(** The manifest of [n] inputs from position [i] on, appended to [acc]. *)
Fixpoint manifest (n i : nat) (acc : string) : string :=
  match n with
  | 0 => acc
  | S n' => manifest n' (S i) (acc +:+ "file " +:+ inputName i +:+ newline)
  end.

Definition withFS (fs : FS) (w : World) : World :=
  mkWorld (state w) (ffmpegLoading w) (Some fs) (log w).

Definition withLoading (b : bool) (w : World) : World :=
  mkWorld (mkState (sequences (state w)) (availableClips (state w)) b)
    (ffmpegLoading w) (ffmpeg w) (log w).

Definition withLog (events : list Event) (w : World) : World :=
  mkWorld (state w) (ffmpegLoading w) (ffmpeg w) (log w ++ events).

(** The engine is loaded and its working area is [fs]. *)
Definition ready (w : World) (fs : FS) : Prop :=
  ffmpegLoading w = false ∧ ffmpeg w = Some fs.

(** The names that an export of [n] clips uses in the working area. *)
Definition scratchNames (n : nat) : list string :=
  map inputName (seq 0 n) ++ ["list.txt"; "output.mp4"].

(** The working area when the engine is called for [clips]: the inputs and
    the manifest are in place. *)
Definition staged (clips : list VideoClip.t) (fs : FS) : FS :=
  <["list.txt" := Text (manifest (length clips) 0 "")]> (stage clips 0 fs).

(** The toast that opens an export and the reports of a failed one. *)
Definition startToast (index : option nat) : list Event :=
  if notIndex index then [Toasted (toast_success "Starting export...")] else [].

Definition failureReports (index : option nat) (e : Exn) : list Event :=
  ConsoleError "Export error:" e ::
  (if notIndex index then [Toasted (toast_error "Failed to export sequence")] else []).

Definition missingFile (clip : VideoClip.t) : Exn :=
  Error ("Missing file for clip: " +:+ VideoClip.name clip).

(** The cleaning loop on the working area alone. *)
Fixpoint unstage (n i : nat) (fs : FS) : FS :=
  match n with
  | 0 => fs
  | S n' => unstage n' (S i) (delete (inputName i) fs)
  end.

(** [stagedFor s fs]: [fs] is a working area in which the inputs of every
    clip of [s] and the manifest of [s] are in place. *)
Definition stagedFor (s : Sequence.t) (fs : FS) : Prop :=
  firstMissing (Sequence.clips s) = None ∧
  ∃ fs0, fs = staged (Sequence.clips s) fs0.

(** The world in which the loop of [downloadAllSequences] starts. *)
Definition batchStart (w : World) : World :=
  withLog [Toasted (toast_success "Starting batch download...")] (withLoading true w).

(** The first sequence of the batch whose export throws, with what it
    throws. *)
Fixpoint firstFailure (E : Engine) (seqs : list Sequence.t) (i : nat) (w : World)
  : option (Sequence.t * Exn) :=
  match seqs with
  | [] => None
  | s :: rest =>
      match exportSequence E s (Some i) w with
      | (inl e, _) => Some (s, e)
      | (inr _, w') => firstFailure E rest (S i) w'
      end
  end.

(** Two batches of three sequences: the second sequence of the first batch
    and the third sequence of the second batch hold the clip whose file is
    gone. *)
Definition batchA : list Sequence.t :=
  [ Sequence.mk "sequence-1" [introClip; priceClip; buyClip] (Double.literal (13 # 2));
    Sequence.mk "sequence-2" [introClip; lostClip; buyClip] (Double.literal (15 # 2));
    Sequence.mk "sequence-3" [introClip; buyClip] (Double.literal (9 # 2)) ].

Definition batchB : list Sequence.t :=
  [ Sequence.mk "sequence-1" [introClip; priceClip; buyClip] (Double.literal (13 # 2));
    Sequence.mk "sequence-2" [introClip; buyClip] (Double.literal (9 # 2));
    Sequence.mk "sequence-3" [introClip; lostClip; buyClip] (Double.literal (15 # 2)) ].

Definition batchReports : list Event :=
  [ Toasted (toast_success "Starting batch download...");
    Toasted (toast_success "Starting export...");
    ConsoleError "Export error:" (Error "Missing file for clip: speed");
    ConsoleError "Batch download error:" (Error "Missing file for clip: speed");
    Toasted (toast_error "Failed to download all sequences") ].

(** ** Objects and references

    The clips of the catalog and the clips of the sequences are the same
    JavaScript objects: the arrays hold references.  This second model keeps
    the objects in a store, to see what [updateClipType] does to an object
    that a sequence refers to. *)

Module Heap.
Abbreviation Store := (gmap nat VideoClip.t).

Record SequenceRef := mkSequenceRef {
  id : string;
  clips : list nat;
  duration : Double.t
}.

Record Page := mkPage {
  store : Store;
  availableClips : list nat;
  sequences : list SequenceRef
}.

(** A new object. *)
Definition alloc (clip : VideoClip.t) (σ : Store) : nat * Store :=
  let r := fresh (dom σ) in (r, <[r := clip]> σ).

(** [prev.map(clip => clip.id === clipId ? { ...clip, type: newType } : clip)]:
    the spread builds a new object; a clip with another id stays the
    object it was. *)
Fixpoint mapRetag (clipId : string) (newType : ClipType) (refs : list nat)
    (σ : Store) : list nat * Store :=
  match refs with
  | [] => ([], σ)
  | r :: rest =>
      match σ !! r with
      | Some clip =>
          if bool_decide (VideoClip.id clip = clipId) then
            let (r', σ1) := alloc (withType newType clip) σ in
            let (rest', σ2) := mapRetag clipId newType rest σ1 in
            (r' :: rest', σ2)
          else
            let (rest', σ2) := mapRetag clipId newType rest σ in
            (r :: rest', σ2)
      | None =>
          let (rest', σ2) := mapRetag clipId newType rest σ in
          (r :: rest', σ2)
      end
  end.

Definition updateClipType (clipId : string) (newType : ClipType) (p : Page)
  : Page :=
  let (refs', σ') := mapRetag clipId newType (availableClips p) (store p) in
  mkPage σ' refs' (sequences p).

(** The objects that a list of references stands for. *)
Definition deref (σ : Store) (refs : list nat) : list VideoClip.t :=
  omap (λ r, σ !! r) refs.

Definition viewSequence (σ : Store) (s : SequenceRef) : Sequence.t :=
  Sequence.mk (id s) (deref σ (clips s)) (duration s).

(** The state of the first model that a page stands for. *)
Definition view (p : Page) (loading : bool) : State :=
  mkState (map (viewSequence (store p)) (sequences p))
          (deref (store p) (availableClips p))
          loading.

Definition allocated (σ : Store) (refs : list nat) : Prop :=
  Forall (λ r, is_Some (σ !! r)) refs.

(** No reference of the page dangles. *)
Definition wf (p : Page) : Prop :=
  allocated (store p) (availableClips p) ∧
  Forall (λ s, allocated (store p) (clips s)) (sequences p).

(** A page with three clips and one sequence over them. *)
Definition examplePage : Page :=
  mkPage (<[0 := hook1]> (<[1 := feature1]> (<[2 := cta1]> ∅)))
         [0; 1; 2]
         [mkSequenceRef "sequence-1" [0; 1; 2] (Double.literal (13 # 2))].
End Heap.

(** ** Keys as strings *)

(** [s.includes(ch)] for a single character. *)
Fixpoint hasChar (ch : Ascii.ascii) (s : string) : bool :=
  match s with
  | EmptyString => false
  | String c rest => Ascii.eqb c ch || hasChar ch rest
  end.

(** The separator of the parts of a key. *)
Definition bar : Ascii.ascii := Ascii.ascii_of_nat 124.

(** An id in which the separator does not occur. *)
Definition barFree (s : string) : Prop := hasChar bar s = false.

(** ** What a computation leaves alone *)

(** [keepsPage m]: running [m] changes neither the sequences nor the catalog,
    neither loads nor unloads the engine, and only adds to the log. *)
Definition keepsPage {A} (m : M A) : Prop :=
  ∀ w,
    sequences (state (m w).2) = sequences (state w) ∧
    availableClips (state (m w).2) = availableClips (state w) ∧
    ffmpegLoading (m w).2 = ffmpegLoading w ∧
    (is_Some (ffmpeg (m w).2) ↔ is_Some (ffmpeg w)) ∧
    ∃ events, log (m w).2 = log w ++ events.

(** ** Uploading clips

    File names are taken to be ASCII: [toLowerCase] maps the letters [A] to
    [Z] and leaves every other character as it is. *)

Definition toLowerAscii (c : Ascii.ascii) : Ascii.ascii :=
  let n := Ascii.nat_of_ascii c in
  if (65 <=? n) && (n <=? 90) then Ascii.ascii_of_nat (n + 32) else c.

(** [s.toLowerCase()] *)
Fixpoint toLowerCase (s : string) : string :=
  match s with
  | EmptyString => EmptyString
  | String c rest => String (toLowerAscii c) (toLowerCase rest)
  end.

(** [s.startsWith(prefix)] *)
Fixpoint startsWith (s prefix : string) : bool :=
  match prefix, s with
  | EmptyString, _ => true
  | String p ps, String c cs => Ascii.eqb c p && startsWith cs ps
  | String _ _, EmptyString => false
  end.

(** [s.includes(needle)] *)
Fixpoint includes (s needle : string) : bool :=
  startsWith s needle ||
  match s with
  | EmptyString => false
  | String _ rest => includes rest needle
  end.

(** [detectClipType(filename)] *)
Definition detectClipType (filename : string) : ClipType :=
  let lowercaseFilename := toLowerCase filename in
  if includes lowercaseFilename "hook" then hook
  else if includes lowercaseFilename "cta"
          || includes lowercaseFilename "call to action" then cta
  else if includes lowercaseFilename "selling point"
          || includes lowercaseFilename "sp" then selling_point
  else selling_point.

Definition dot : Ascii.ascii := Ascii.ascii_of_nat 46.

(** [s.split('.')[0]] *)
Fixpoint beforeDot (s : string) : string :=
  match s with
  | EmptyString => EmptyString
  | String c rest => if Ascii.eqb c dot then EmptyString else String c (beforeDot rest)
  end.

(** A [ClipType] inside a template literal. *)
Definition typeText (ty : ClipType) : string :=
  match ty with
  | hook => "hook"
  | selling_point => "selling-point"
  | cta => "cta"
  end.

(** One file of the file input, with what the environment supplies while
    it is taken in: the duration that the [video] element reports, the value
    of [Date.now()] and the text of [Math.random()]. *)
Record Upload := mkUpload {
  upload_name : string;
  upload_data : File;
  upload_duration : Double.t;
  upload_now : N;
  upload_random : string
}.

(** The clip that [handleFileUpload] makes of a file. *)
Definition newClip (file : Upload) : VideoClip.t :=
  VideoClip.mk
    ("clip-" +:+ pretty (upload_now file) +:+ "-" +:+ upload_random file)
    (beforeDot (upload_name file))
    (upload_duration file)
    (detectClipType (upload_name file))
    (Some (upload_data file)).

(** [setAvailableClips(prev => [...prev, newClip])] *)
Definition addClip (clip : VideoClip.t) : M () := λ w,
  (inr (),
   mkWorld
     (mkState (sequences (state w)) (availableClips (state w) ++ [clip])
        (loading (state w)))
     (ffmpegLoading w) (ffmpeg w) (log w)).

(** The loop of [handleFileUpload] over the files. *)
Fixpoint uploadFiles (files : list Upload) : M () :=
  match files with
  | [] => mret ()
  | file :: rest =>
      addClip (newClip file);;
      toast (toast_success
               ("Uploaded " +:+ upload_name file +:+ " as "
                +:+ typeText (detectClipType (upload_name file))));;
      uploadFiles rest
  end.

(** [handleFileUpload(event)]; [files] is [event.target.files]. *)
Definition handleFileUpload (files : option (list Upload)) : M () := λ w,
  if ffmpegLoading w || bool_decide (ffmpeg w = None) then
    toast (toast_error "Please wait for video processing to initialize") w
  else
    match files with
    | None => (mret () : M ()) w
    | Some files => uploadFiles files w
    end.

(** Every clip has its file. *)
Definition allHaveFiles (clips : list VideoClip.t) : Prop :=
  Forall (λ clip, is_Some (VideoClip.file clip)) clips.

(** Three files of an upload. *)
Definition uploadedFiles : list Upload :=
  [ mkUpload "Hook - Big Promise.mp4" [x01; x02] (Double.literal (5 # 2)) 1700000000000%N "0.25";
    mkUpload "feature.one.mov" [x03] (Double.literal 2) 1700000000001%N "0.5";
    mkUpload "final CTA.mp4" [x04; x05] (Double.literal 2) 1700000000002%N "0.75" ].

(** [occursIn needle s]: [needle] is a substring of [s]. *)
Definition occursIn (needle s : string) : Prop :=
  ∃ before after, s = before +:+ needle +:+ after.

(** The toast for a file taken in. *)
Definition uploadToast (file : Upload) : Event :=
  Toasted (toast_success
             ("Uploaded " +:+ upload_name file +:+ " as "
              +:+ typeText (detectClipType (upload_name file)))).


(** ** Loading the engine *)

(** What [ffmpegInstance.load()] does: the messages that the instance logs
    meanwhile, in their order, and the working area of the loaded instance
    or the error with which loading is rejected. *)
Record EngineLoad := mkEngineLoad {
  load_messages : list string;
  load_outcome : Exn + FS
}.

(** The handler of the instance's log messages, on [loadingProgress]. *)
Definition onLog (message : string) (loadingProgress : nat) : nat :=
  if includes message "loading" then 25
  else if includes message "loaded" then 50
  else if includes message "initialized" then 75
  else loadingProgress.

(** The page with the progress bar of the loading screen and the lines of
    [console.log]. *)
Record Boot := mkBoot {
  world : World;
  loadingProgress : nat;
  consoleLog : list (string * string)
}.

(** The page as [useState] sets it up. *)
Definition initialBoot : Boot :=
  mkBoot (mkWorld (mkState [] [] false) true None []) 0 [].

(** [initFFmpeg()], the effect that runs once when the page is mounted. *)
Definition initFFmpeg (l : EngineLoad) (p : Boot) : Boot :=
  let w := world p in
  let progress := fold_left (λ pr message, onLog message pr) (load_messages l) 0 in
  let console :=
    consoleLog p ++ map (λ message, ("FFmpeg log:", message)) (load_messages l) in
  match load_outcome l with
  | inr fs =>
      mkBoot
        (mkWorld (state w) false (Some fs)
           (log w ++ [Toasted (toast_success "Video processing initialized")]))
        100 console
  | inl error =>
      mkBoot
        (mkWorld (state w) false (ffmpeg w)
           (log w ++ [ConsoleError "Error initializing FFmpeg:" error;
                      Toasted (toast_error "Failed to initialize video processing")]))
        progress console
  end.

(** A load that is rejected after its first messages. *)
Definition rejectedLoad : EngineLoad :=
  mkEngineLoad ["loading ffmpeg-core"; "ffmpeg-core loaded"]
    (inl (Error "failed to import ffmpeg-core.js")).

(** ** The generator of the earlier version

    [generateSequences] of the earlier version of the page
    ([src/unnamed/part_001]): ten draws, no check for repeated combinations. *)

Module Earlier.

(** The [for] loop of [generateSequences], run on a prefix [draws] of the
    random choices; [i] is its counter. *)
Fixpoint generateLoop (hooks sellingPoints ctas : list VideoClip.t)
    (draws : list Draw) (i : nat) (newSequences : list Sequence.t) : LoopResult :=
  match draws with
  | [] =>
      if i <? 10 then Spinning newSequences else Exited newSequences
  | d :: draws' =>
      if i <? 10 then
        match hooks !! floorRandom (u_hook d) (length hooks),
              ctas !! floorRandom (u_cta d) (length ctas) with
        | Some selectedHook, Some selectedCTA =>
            let numSellingPoints :=
              Nat.min (floorRandom (u_count d) 3 + 1) (length sellingPoints) in
            let selectedSellingPoints :=
              take numSellingPoints (shuffleWith (shuffle_code d) sellingPoints) in
            let sequenceClips :=
              selectedHook :: selectedSellingPoints ++ [selectedCTA] in
            generateLoop hooks sellingPoints ctas draws' (S i)
              (newSequences ++
               [Sequence.mk ("sequence-" +:+ pretty i) sequenceClips
                  (totalDuration sequenceClips)])
        | _, _ => TypeError
        end
      else Exited newSequences
  end.

(** [generateSequences] *)
Definition generateSequences (draws : list Draw) (st : State) : GenResult :=
  if length (availableClips st) =? 0 then
    Returned st [toast_error "Please upload some video clips first"]
  else
    let hooks := ofType hook (availableClips st) in
    let sellingPoints := ofType selling_point (availableClips st) in
    let ctas := ofType cta (availableClips st) in
    if (length hooks =? 0) || (length ctas =? 0) then
      Returned st [toast_error "You need at least one hook and one CTA clip"]
    else
      match generateLoop hooks sellingPoints ctas draws 0 [] with
      | Exited newSequences =>
          Returned (mkState newSequences (availableClips st) false)
            [toast_success "Generated new sequences!"]
      | Spinning _ => Hung
      | TypeError => Threw
      end.

End Earlier.

(** ** The generator of the first version

    [generateSequences] of the first version of the page
    ([src/pages/Index.tsx]), on the catalog that the page has built in. *)

Module First.

Definition availableClips : list VideoClip.t := demoCatalog.

(** The [for] loop of [generateSequences]; [i] is its counter. *)
Fixpoint generateLoop (draws : list Draw) (i : nat) (newSequences : list Sequence.t)
  : LoopResult :=
  match draws with
  | [] =>
      if i <? 10 then Spinning newSequences else Exited newSequences
  | d :: draws' =>
      if i <? 10 then
        let hooks := ofType hook availableClips in
        let sellingPoints := ofType selling_point availableClips in
        let ctas := ofType cta availableClips in
        match hooks !! floorRandom (u_hook d) (length hooks),
              ctas !! floorRandom (u_cta d) (length ctas) with
        | Some selectedHook, Some selectedCTA =>
            let numSellingPoints := floorRandom (u_count d) 3 + 1 in
            let selectedSellingPoints :=
              take numSellingPoints (shuffleWith (shuffle_code d) sellingPoints) in
            let sequenceClips :=
              selectedHook :: selectedSellingPoints ++ [selectedCTA] in
            generateLoop draws' (S i)
              (newSequences ++
               [Sequence.mk ("sequence-" +:+ pretty i) sequenceClips
                  (totalDuration sequenceClips)])
        | _, _ => TypeError
        end
      else Exited newSequences
  end.

(** [generateSequences]; the catalog is not a state cell of this version,
    the [State] returned carries it along unchanged. *)
Definition generateSequences (draws : list Draw) : GenResult :=
  match generateLoop draws 0 [] with
  | Exited newSequences =>
      Returned (mkState newSequences availableClips false)
        [toast_success "Generated new sequences!"]
  | Spinning _ => Hung
  | TypeError => Threw
  end.

End First.
(** * Properties of the generator *)

(** ** The shuffle is a permutation *)

Lemma insertAt_Permutation {A} (k : nat) (x : A) (l : list A) :
  insertAt k x l ≡ₚ x :: l.
Proof.
  unfold insertAt. rewrite <- Permutation_middle.
  by rewrite take_drop.
Qed.

Lemma shuffleWith_Permutation {A} (l : list A) :
  ∀ code, shuffleWith code l ≡ₚ l.
Proof.
  induction l as [|x rest IH]; intros code; simpl; [done|].
  rewrite insertAt_Permutation. by rewrite IH.
Qed.

(** Every order of the array is the outcome of some code. *)
Lemma shuffleWith_complete {A} (l : list A) :
  ∀ l', l' ≡ₚ l → ∃ code, shuffleWith code l = l'.
Proof.
  induction l as [|x rest IH]; intros l' Hperm.
  - apply Permutation_nil_r in Hperm as ->. by exists [].
  - assert (x ∈ l') as (l1 & l2 & ->)%list_elem_of_split.
    { rewrite Hperm. by left. }
    rewrite <- Permutation_middle in Hperm. apply (inj (cons x)) in Hperm.
    destruct (IH _ Hperm) as [code Hcode].
    exists (length l1 :: code).
    change (shuffleWith (length l1 :: code) (x :: rest))
      with (insertAt (length l1 mod S (length (shuffleWith code rest))) x
              (shuffleWith code rest)).
    rewrite Hcode.
    rewrite Nat.mod_small by (rewrite length_app; lia).
    unfold insertAt. by rewrite take_app_length, drop_app_length.
Qed.

Lemma shuffleWith_length {A} (code : list nat) (l : list A) :
  length (shuffleWith code l) = length l.
Proof. apply Permutation_length, shuffleWith_Permutation. Qed.

(** ** An invariant principle for the generation loop *)

Section LoopInvariant.
Variables hooks sellingPoints ctas : list VideoClip.t.
Variable target : nat.

Variable D : Draw → Prop.
Variable I : list Sequence.t → gset string → Prop.

Hypothesis I_step : ∀ ns used d h sps c,
  I ns used → D d → length ns < target → drawn hooks sellingPoints ctas d h sps c →
  combinationKey h sps c ∉ used →
  I (ns ++ [emitted ns h sps c]) ({[combinationKey h sps c]} ∪ used).

Lemma generateLoop_invariant (draws : list Draw) :
  Forall D draws →
  ∀ ns used, I ns used →
  match generateLoop hooks sellingPoints ctas target draws ns used with
  | Exited r => (∃ used', I r used') ∧ target ≤ length r
  | Spinning r => (∃ used', I r used') ∧ length r < target
  | TypeError => True
  end.
Proof.
  induction 1 as [|d draws Hd Hds IH]; intros ns used HI; simpl.
  - destruct (Nat.ltb_spec (length ns) target); eauto with lia.
  - destruct (Nat.ltb_spec (length ns) target) as [Hlt|Hge]; [|eauto with lia].
    destruct (hooks !! _) as [h|] eqn:Hh; [|done].
    destruct (ctas !! _) as [c|] eqn:Hc; [|done].
    case_bool_decide as Hused; [by apply IH|].
    apply IH. by apply (I_step ns used d h _ c).
Qed.
End LoopInvariant.

(** ** The state of the loop *)

Lemma clipsKey_shape (h : VideoClip.t) (sps : list VideoClip.t) (c : VideoClip.t) :
  clipsKey (h :: sps ++ [c]) = combinationKey h sps c.
Proof.
  unfold clipsKey. by rewrite removelast_last, last_last.
Qed.

Lemma sequenceKey_emitted ns h sps c :
  sequenceKey (emitted ns h sps c) = combinationKey h sps c.
Proof. apply clipsKey_shape. Qed.

Lemma numbered_snoc ns s :
  numbered ns → Sequence.id s = "sequence-" +:+ pretty (length ns + 1) →
  numbered (ns ++ [s]).
Proof.
  intros Hns Hs i s' Hi.
  destruct (decide (i < length ns)) as [Hlt|Hge].
  - rewrite lookup_app_l in Hi by done. by apply Hns.
  - rewrite lookup_app_r in Hi by lia.
    destruct (i - length ns) as [|k] eqn:Hk; simpl in Hi; [|by destruct k].
    assert (i = length ns) as -> by lia. congruence.
Qed.

Section Generated.
Variables hooks sellingPoints ctas : list VideoClip.t.
Variable target : nat.
Variable D : Draw → Prop.

Lemma loopInv_step ns used d h sps c :
  loopInv D hooks sellingPoints ctas target ns used → D d → length ns < target →
  drawn hooks sellingPoints ctas d h sps c →
  combinationKey h sps c ∉ used →
  loopInv D hooks sellingPoints ctas target (ns ++ [emitted ns h sps c])
    ({[combinationKey h sps c]} ∪ used).
Proof.
  intros (Hused & _ & Hnd & Hall & Hnum) Hd Hlt Hdrawn Hfresh.
  split; [|split; [rewrite length_app; simpl; lia|split_and!]].
  - intros k. rewrite map_app, elem_of_app, elem_of_union, elem_of_singleton.
    simpl. rewrite list_elem_of_singleton, sequenceKey_emitted, Hused. tauto.
  - rewrite map_app. apply NoDup_app. split_and!; [done| |apply NoDup_singleton].
    intros k Hk. simpl. rewrite list_elem_of_singleton, sequenceKey_emitted.
    intros ->. by apply Hfresh, Hused.
  - apply Forall_app. split; [done|]. apply Forall_singleton.
    by exists d, h, sps, c.
  - by apply numbered_snoc.
Qed.

Lemma generateLoop_generated (draws : list Draw) :
  Forall D draws →
  match generateLoop hooks sellingPoints ctas target draws [] ∅ with
  | Exited r => generated D hooks sellingPoints ctas r ∧ length r = target
  | Spinning r => generated D hooks sellingPoints ctas r ∧ length r < target
  | TypeError => True
  end.
Proof.
  intros Hdraws.
  assert (loopInv D hooks sellingPoints ctas target [] ∅) as Hinit.
  { split; [intros k; by rewrite elem_of_empty, elem_of_nil|]. split; [simpl; lia|].
    split_and!; [constructor|constructor|]. by intros i s Hi. }
  pose proof (generateLoop_invariant hooks sellingPoints ctas target D
                (loopInv D hooks sellingPoints ctas target)
                loopInv_step draws Hdraws [] ∅ Hinit) as Hinv.
  destruct (generateLoop _ _ _ _ _ _ _) as [r|r|]; [| |done].
  - destruct Hinv as [[used' (_ & Hle & Hgen)] Hlen]. split; [done|lia].
  - by destruct Hinv as [[used' (_ & Hle & Hgen)] Hlen].
Qed.
End Generated.

(** ** The three groups *)

Lemma elem_of_ofType ty clips x :
  x ∈ ofType ty clips ↔ VideoClip.type x = ty ∧ x ∈ clips.
Proof. unfold ofType. by rewrite list_elem_of_filter. Qed.

(** The groups partition the catalog. *)
Lemma ofType_partition clips :
  clips ≡ₚ ofType hook clips ++ ofType selling_point clips ++ ofType cta clips.
Proof.
  unfold ofType. induction clips as [|x clips IH]; [done|].
  rewrite !filter_cons.
  destruct (VideoClip.type x) eqn:Hty; repeat case_decide; try done; simpl.
  - by rewrite <- IH.
  - rewrite <- Permutation_middle. by rewrite <- IH.
  - rewrite app_assoc, <- Permutation_middle, <- app_assoc. by rewrite <- IH.
Qed.

(** ** Reading the result of [generateSequences] *)

Lemma generateSequences_guard draws st :
  ofType hook (availableClips st) = [] ∨ ofType cta (availableClips st) = [] →
  generateSequences draws st =
    Returned st [toast_error "Please upload some video clips first"] ∨
  generateSequences draws st =
    Returned st [toast_error "You need at least one hook and one CTA clip"].
Proof.
  intros Hmissing. unfold generateSequences.
  destruct (length (availableClips st) =? 0); [by left|right].
  by destruct Hmissing as [-> | ->]; simpl; rewrite ?orb_true_r.
Qed.

Lemma generateSequences_loop draws st :
  ofType hook (availableClips st) ≠ [] → ofType cta (availableClips st) ≠ [] →
  generateSequences draws st =
    let hooks := ofType hook (availableClips st) in
    let sellingPoints := ofType selling_point (availableClips st) in
    let ctas := ofType cta (availableClips st) in
    match generateLoop hooks sellingPoints ctas
            (numSequences hooks sellingPoints ctas) draws [] ∅ with
    | Exited newSequences =>
        Returned (mkState newSequences (availableClips st) false)
          [toast_success
             ("Generated " +:+ pretty (length newSequences) +:+ " unique sequences!")]
    | Spinning _ => Hung
    | TypeError => Threw
    end.
Proof.
  intros Hh Hc. unfold generateSequences.
  destruct (availableClips st) as [|x clips] eqn:Hclips; [done|].
  simpl length at 1. simpl Nat.eqb at 1. cbv iota.
  destruct (ofType hook (x :: clips)); [done|].
  by destruct (ofType cta (x :: clips)).
Qed.

(** What a returning run of the generator leaves in the state. *)
Lemma generateSequences_returned D draws st st' toasts :
  Forall D draws →
  ofType hook (availableClips st) ≠ [] → ofType cta (availableClips st) ≠ [] →
  generateSequences draws st = Returned st' toasts →
  let hooks := ofType hook (availableClips st) in
  let sellingPoints := ofType selling_point (availableClips st) in
  let ctas := ofType cta (availableClips st) in
  generated D hooks sellingPoints ctas (sequences st') ∧
  length (sequences st') = numSequences hooks sellingPoints ctas ∧
  availableClips st' = availableClips st.
Proof.
  intros HD Hh Hc. rewrite generateSequences_loop by done. simpl.
  pose proof (generateLoop_generated (ofType hook (availableClips st))
                (ofType selling_point (availableClips st))
                (ofType cta (availableClips st))
                (numSequences (ofType hook (availableClips st))
                   (ofType selling_point (availableClips st))
                   (ofType cta (availableClips st))) D draws HD) as Hloop.
  destruct (generateLoop _ _ _ _ _ _ _) as [r|r|]; [|done..].
  intros [= <- <-]. simpl. tauto.
Qed.

(** ** Random indices *)

Lemma floorRandom_lt (u : Q) (n : nat) :
  unit_interval u → 0 < n → floorRandom u n < n.
Proof.
  intros [Hlo Hhi] Hn. unfold floorRandom.
  set (x := (u * inject_Z (Z.of_nat n))%Q).
  assert (x < inject_Z (Z.of_nat n))%Q as Hx.
  { unfold x. eapply Qlt_le_trans.
    - apply Qmult_lt_compat_r; [|exact Hhi].
      change 0%Q with (inject_Z 0). rewrite <- Zlt_Qlt. lia.
    - rewrite Qmult_1_l. apply Qle_refl. }
  assert (Qfloor x < Z.of_nat n)%Z as Hfl.
  { rewrite Zlt_Qlt. eapply Qle_lt_trans; [apply Qfloor_le|done]. }
  lia.
Qed.

Lemma lookup_floorRandom {A} (l : list A) (u : Q) :
  unit_interval u → l ≠ [] → is_Some (l !! floorRandom u (length l)).
Proof.
  intros Hu Hl. apply lookup_lt_is_Some_2, floorRandom_lt; [done|].
  destruct l; [done|simpl; lia].
Qed.

(** With random numbers in the unit interval no array is read out of range. *)
Lemma generateLoop_no_TypeError hooks sellingPoints ctas target draws :
  hooks ≠ [] → ctas ≠ [] → Forall valid_draw draws →
  ∀ ns used,
    generateLoop hooks sellingPoints ctas target draws ns used ≠ TypeError.
Proof.
  intros Hh Hc. induction 1 as [|d draws (Hu1 & Hu2 & _) _ IH]; intros ns used; simpl.
  - by destruct (_ <? _).
  - destruct (_ <? _); [|done].
    destruct (lookup_floorRandom hooks (u_hook d) Hu1 Hh) as [h ->].
    destruct (lookup_floorRandom ctas (u_cta d) Hu2 Hc) as [c ->].
    case_bool_decide; apply IH.
Qed.

(** ** Runs of the generator on the concrete catalogs *)

Lemma demo_run : generateSequences demoDraws demoState = Returned demoGenerated demoToasts.
Proof. vm_compute. reflexivity. Qed.

Lemma demo_draws_valid : Forall valid_draw demoDraws.
Proof.
  repeat constructor; unfold Qle, Qlt; simpl; lia.
Qed.

Lemma bare_run :
  generateSequences [mkDraw 0 0 0 []] bareState =
    Returned (mkState bareSequences bareCatalog false)
      [toast_success "Generated 1 unique sequences!"].
Proof. vm_compute. reflexivity. Qed.

(** ** What a draw selects *)

Section Drawn.
Variables hooks sellingPoints ctas : list VideoClip.t.
Variables (d : Draw) (h c : VideoClip.t) (sps : list VideoClip.t).
Hypothesis Hdrawn : drawn hooks sellingPoints ctas d h sps c.

Lemma drawn_hook : h ∈ hooks.
Proof. destruct Hdrawn as (Hh & _ & _). by eapply list_elem_of_lookup_2. Qed.

Lemma drawn_cta : c ∈ ctas.
Proof. destruct Hdrawn as (_ & Hc & _). by eapply list_elem_of_lookup_2. Qed.

Lemma drawn_prefix : sps `prefix_of` shuffleWith (shuffle_code d) sellingPoints.
Proof. destruct Hdrawn as (_ & _ & ->). apply prefix_take. Qed.

Lemma drawn_selling_points : sps ⊆+ sellingPoints.
Proof.
  destruct Hdrawn as (_ & _ & ->).
  etrans; [apply submseteq_take|].
  apply Permutation_submseteq, shuffleWith_Permutation.
Qed.

Lemma drawn_count :
  length sps = Nat.min (floorRandom (u_count d) 3 + 1) (length sellingPoints).
Proof.
  destruct Hdrawn as (_ & _ & ->).
  rewrite length_take, shuffleWith_length. lia.
Qed.
End Drawn.

Section DrawnFromCatalog.
Variable catalog : list VideoClip.t.
Variables (d : Draw) (h c : VideoClip.t) (sps : list VideoClip.t).
Hypothesis Hdrawn :
  drawn (ofType hook catalog) (ofType selling_point catalog) (ofType cta catalog)
    d h sps c.

(** The clips selected occupy different places of the catalog. *)
Lemma drawn_submseteq : h :: sps ++ [c] ⊆+ catalog.
Proof.
  rewrite (ofType_partition catalog).
  change (h :: sps ++ [c]) with ([h] ++ sps ++ [c])%list.
  repeat apply submseteq_app.
  - eapply singleton_submseteq_l, drawn_hook, Hdrawn.
  - eapply drawn_selling_points, Hdrawn.
  - eapply singleton_submseteq_l, drawn_cta, Hdrawn.
Qed.

Lemma drawn_types :
  VideoClip.type h = hook ∧
  Forall (λ sp, VideoClip.type sp = selling_point) sps ∧
  VideoClip.type c = cta.
Proof.
  split_and!.
  - eapply (elem_of_ofType hook catalog), drawn_hook, Hdrawn.
  - apply Forall_forall. intros sp Hsp.
    apply (elem_of_ofType selling_point catalog).
    eapply (elem_of_submseteq _ _ _ Hsp), drawn_selling_points, Hdrawn.
  - eapply (elem_of_ofType cta catalog), drawn_cta, Hdrawn.
Qed.
End DrawnFromCatalog.

(** ** Durations *)



(** * The generator: refusal, shape, durations, distinct clips *)

(** Every sequence that a returning run puts into the state was selected
    by one of the draws. *)
Lemma returned_fromDraw D draws st st' toasts s :
  Forall D draws →
  ofType hook (availableClips st) ≠ [] → ofType cta (availableClips st) ≠ [] →
  generateSequences draws st = Returned st' toasts →
  s ∈ sequences st' →
  fromDraw D (ofType hook (availableClips st))
    (ofType selling_point (availableClips st))
    (ofType cta (availableClips st)) s.
Proof.
  intros HD Hh Hc Hrun Hs.
  destruct (generateSequences_returned D draws st st' toasts HD Hh Hc Hrun)
    as ((_ & Hall & _) & _ & _).
  by eapply (proj1 (Forall_forall _ _)) in Hall.
Qed.

Lemma submseteq_NoDup {A} (l k : list A) : l ⊆+ k → NoDup k → NoDup l.
Proof.
  intros [k' Hk]%submseteq_Permutation Hnd.
  rewrite Hk in Hnd. by apply NoDup_app in Hnd as (? & _ & _).
Qed.

Lemma Forall_True {A} (l : list A) : Forall (λ _, True) l.
Proof. by apply Forall_forall. Qed.

(** C4: when the catalog has no clip of type hook or no clip of type cta,
    [generateSequences] fails with [InsufficientInput] (an error toast),
    whatever the random choices, and returns the state it was given: the
    list of sequences, and every other state cell, is unchanged. *)
Theorem generate_insufficient_input (draws : list Draw) (st : State) :
  ofType hook (availableClips st) = [] ∨ ofType cta (availableClips st) = [] →
  ∃ t, InsufficientInput t ∧ generateSequences draws st = Returned st [t].
Proof.
  intros Hmissing.
  destruct (generateSequences_guard draws st Hmissing) as [Hrun|Hrun];
    eexists; (split; [|exact Hrun]); [by left|by right].
Qed.

Lemma generate_insufficient_input_witness :
  (ofType hook (availableClips noCtaState) = [] ∨
   ofType cta (availableClips noCtaState) = []) ∧
  ∃ t, InsufficientInput t ∧
       generateSequences demoDraws noCtaState = Returned noCtaState [t].
Proof.
  split; [right; reflexivity|].
  apply (generate_insufficient_input demoDraws noCtaState).
  right; reflexivity.
Defined.




(** C10: in every sequence that [generateSequences] produces the clips are
    a hook of the catalog, then a prefix of a permutation of its selling
    points, then one of its calls to action; they occupy pairwise different
    places of the catalog, so when the ids of the catalog are unique no clip
    and no id occurs twice in the sequence. *)
Theorem generated_clips_distinct (draws : list Draw) (st st' : State)
    (toasts : list Toast) (s : Sequence.t) :
  NoDup (map VideoClip.id (availableClips st)) →
  ofType hook (availableClips st) ≠ [] → ofType cta (availableClips st) ≠ [] →
  generateSequences draws st = Returned st' toasts →
  s ∈ sequences st' →
  (∃ h sps c perm,
     Sequence.clips s = h :: sps ++ [c] ∧
     h ∈ ofType hook (availableClips st) ∧
     perm ≡ₚ ofType selling_point (availableClips st) ∧ sps `prefix_of` perm ∧
     c ∈ ofType cta (availableClips st)) ∧
  Sequence.clips s ⊆+ availableClips st ∧
  NoDup (map VideoClip.id (Sequence.clips s)) ∧
  NoDup (Sequence.clips s).
Proof.
  intros Hids Hh Hc Hrun Hs.
  destruct (returned_fromDraw _ draws st st' toasts s (Forall_True draws) Hh Hc Hrun Hs)
    as (d & h & sps & c & _ & Hdrawn & Hclips & _).
  assert (Sequence.clips s ⊆+ availableClips st) as Hsub.
  { rewrite Hclips. by eapply drawn_submseteq. }
  assert (NoDup (map VideoClip.id (Sequence.clips s))) as Hnd.
  { eapply submseteq_NoDup; [|exact Hids]. by apply fmap_submseteq. }
  split_and!; [|done|done|by eapply NoDup_fmap_1].
  exists h, sps, c, (shuffleWith (shuffle_code d) (ofType selling_point (availableClips st))).
  split_and!; [done| | | |].
  - by eapply drawn_hook.
  - apply shuffleWith_Permutation.
  - by eapply drawn_prefix.
  - by eapply drawn_cta.
Qed.

Lemma generated_clips_distinct_witness :
  let s := Sequence.mk "sequence-6" [hook2; feature1; feature2; feature3; cta1] (Double.literal (25 # 2)) in
  (∃ h sps c perm,
     Sequence.clips s = h :: sps ++ [c] ∧
     h ∈ ofType hook (availableClips demoState) ∧
     perm ≡ₚ ofType selling_point (availableClips demoState) ∧ sps `prefix_of` perm ∧
     c ∈ ofType cta (availableClips demoState)) ∧
  Sequence.clips s ⊆+ availableClips demoState ∧
  NoDup (map VideoClip.id (Sequence.clips s)) ∧
  NoDup (Sequence.clips s).
Proof.
  apply (generated_clips_distinct demoDraws demoState demoGenerated demoToasts).
  - apply (bool_decide_unpack _). vm_compute. exact I.
  - vm_compute. discriminate.
  - vm_compute. discriminate.
  - vm_compute. reflexivity.
  - unfold demoGenerated, demoSequences. simpl. apply list_elem_of_lookup. exists 5. reflexivity.
Defined.

(** C3, as the generator has it: with random numbers in the unit interval,
    every sequence that [generateSequences] produces is one hook, then the
    selling points, then one call to action, and the number of selling
    points is [min(k, n)] for some [k] from 1 to 3, where [n] is the number
    of selling points of the catalog: from one to three of them when the
    catalog has any, and none when it has none. *)
Theorem generated_shape (draws : list Draw) (st st' : State)
    (toasts : list Toast) (s : Sequence.t) :
  Forall valid_draw draws →
  ofType hook (availableClips st) ≠ [] → ofType cta (availableClips st) ≠ [] →
  generateSequences draws st = Returned st' toasts →
  s ∈ sequences st' →
  let n := length (ofType selling_point (availableClips st)) in
  hasShape (Nat.min 1 n) (Nat.min 3 n) s.
Proof.
  intros Hvalid Hh Hc Hrun Hs n.
  destruct (returned_fromDraw _ draws st st' toasts s Hvalid Hh Hc Hrun Hs)
    as (d & h & sps & c & (_ & _ & Hu) & Hdrawn & Hclips & _).
  destruct (drawn_types _ _ _ _ _ Hdrawn) as (Hth & Htsp & Htc).
  exists h, sps, c. split_and!; try done.
  - rewrite (drawn_count _ _ _ _ _ _ _ Hdrawn). fold n. lia.
  - rewrite (drawn_count _ _ _ _ _ _ _ Hdrawn). fold n.
    pose proof (floorRandom_lt (u_count d) 3 Hu). lia.
Qed.

Lemma generated_shape_witness :
  let s := Sequence.mk "sequence-2" [hook2; feature2; feature1; cta1] (Double.literal (19 # 2)) in
  hasShape 1 3 s.
Proof.
  apply (generated_shape demoDraws demoState demoGenerated demoToasts).
  - repeat constructor; unfold Qle, Qlt; simpl; lia.
  - vm_compute. discriminate.
  - vm_compute. discriminate.
  - vm_compute. reflexivity.
  - unfold demoGenerated, demoSequences. simpl. apply list_elem_of_lookup. exists 1. reflexivity.
Defined.

(** C3 as stated fails on a catalog without selling points: the run on one
    hook and one call to action returns the sequence [hook, cta], which has
    no selling point between the two. *)
Lemma generated_shape_counterexample :
  generateSequences [mkDraw 0 0 0 []] bareState =
    Returned (mkState bareSequences bareCatalog false)
      [toast_success "Generated 1 unique sequences!"] ∧
  ¬ Forall (hasShape 1 3) bareSequences.
Proof.
  split; [vm_compute; reflexivity|].
  intros Hall. apply Forall_cons_1 in Hall as [(h & sps & c & Hclips & _ & _ & _ & Hlen & _) _].
  apply (f_equal length) in Hclips. simpl in Hclips.
  rewrite length_app in Hclips. simpl in Hclips. lia.
Qed.

(** * The generation loop need not come to an end *)

(** ** The order of the sorted ids *)

Lemma strLe_cases s t : strLe s t ↔ String_as_OT.lt s t ∨ s = t.
Proof.
  unfold strLe, String.leb. rewrite <- String_as_OT.cmp_lt, <- String_as_OT.cmp_eq.
  change String_as_OT.cmp with String.compare.
  destruct (String.compare s t); (split; [intros ?|intros [?|?]]);
    try done; try (by left); by right.
Qed.

#[global] Instance strLe_trans : Transitive strLe.
Proof.
  intros a b c [Hab| ->]%strLe_cases [Hbc| ->]%strLe_cases; apply strLe_cases;
    eauto using String_as_OT.lt_trans.
Qed.

#[global] Instance strLe_antisym : AntiSymm (=) strLe.
Proof. intros a b. apply String.leb_antisym. Qed.

Lemma strLe_total a b : strLe a b ∨ strLe b a.
Proof. apply String.leb_total. Qed.

Lemma insertSorted_Permutation s l : insertSorted s l ≡ₚ s :: l.
Proof.
  induction l as [|t rest IH]; simpl; [done|].
  destruct (String.leb s t); [done|]. by rewrite IH, Permutation_swap.
Qed.

Lemma sortStrings_Permutation l : sortStrings l ≡ₚ l.
Proof.
  induction l as [|s l IH]; simpl; [done|].
  by rewrite insertSorted_Permutation, IH.
Qed.

Lemma insertSorted_sorted s l :
  StronglySorted strLe l → StronglySorted strLe (insertSorted s l).
Proof.
  induction 1 as [|t rest Hrest IH Hall]; simpl.
  - repeat constructor.
  - destruct (String.leb s t) eqn:Hst.
    + constructor; [by constructor|].
      constructor; [done|]. eapply Forall_impl; [done|].
      intros u Hu. by trans t.
    + constructor; [done|].
      rewrite insertSorted_Permutation. constructor; [|done].
      destruct (strLe_total s t) as [Hle|Hle]; [|done].
      unfold strLe in Hle. congruence.
Qed.

Lemma sortStrings_sorted l : StronglySorted strLe (sortStrings l).
Proof.
  induction l as [|s l IH]; simpl; [constructor|by apply insertSorted_sorted].
Qed.

(** The sorted list does not depend on the order of the list sorted. *)
Lemma sortStrings_perm_eq l l' : l ≡ₚ l' → sortStrings l = sortStrings l'.
Proof.
  intros Hperm. apply (StronglySorted_unique strLe); try apply sortStrings_sorted.
  by rewrite !sortStrings_Permutation.
Qed.

(** Selections that differ in the order of the selling points only have
    the same key. *)
Lemma combinationKey_Permutation h sps sps' c :
  sps ≡ₚ sps' → combinationKey h sps c = combinationKey h sps' c.
Proof.
  intros Hperm. unfold combinationKey, keyParts.
  by rewrite (sortStrings_perm_eq (map VideoClip.id sps) (map VideoClip.id sps'))
    by (by apply fmap_Permutation).
Qed.

(** ** Counting the keys *)

Lemma nonemptySublists_length {A} (l : list A) :
  length (nonemptySublists l) = 2 ^ length l - 1.
Proof.
  induction l as [|x rest IH]; [done|].
  cbn [nonemptySublists length]. rewrite length_app, length_map, IH.
  rewrite Nat.pow_succ_r'.
  pose proof (Nat.pow_nonzero 2 (length rest)). lia.
Qed.

Lemma elem_of_nonemptySublists {A} (l1 l : list A) :
  l1 `sublist_of` l → l1 ≠ [] → l1 ∈ nonemptySublists l.
Proof.
  induction 1 as [|x l1 l Hsub IH|x l1 l Hsub IH]; intros Hne; [done| |].
  - cbn [nonemptySublists]. destruct l1 as [|y l1]; [by left|].
    right. apply elem_of_app. left. apply list_elem_of_fmap.
    exists (y :: l1). split; [done|]. by apply IH.
  - cbn [nonemptySublists]. right. apply elem_of_app. right. by apply IH.
Qed.

Section ReachableKeys.
Variables hooks sellingPoints ctas : list VideoClip.t.
Hypothesis Hsps : sellingPoints ≠ [].

Lemma reachableKeys_length :
  length (reachableKeys hooks sellingPoints ctas)
  = length hooks * (2 ^ length sellingPoints - 1) * length ctas.
Proof.
  unfold reachableKeys.
  by rewrite length_map, !length_prod, nonemptySublists_length.
Qed.

(** At least one selling point is selected, and the key of a selection is
    the key of the sublist of the selling points with the same clips. *)
Lemma drawn_key_reachable d h sps c :
  drawn hooks sellingPoints ctas d h sps c →
  combinationKey h sps c ∈ reachableKeys hooks sellingPoints ctas.
Proof.
  intros Hdrawn.
  pose proof (drawn_selling_points _ _ _ _ _ _ _ Hdrawn) as Hsub.
  apply submseteq_sublist_r in Hsub as (sub & Hperm & Hsub).
  assert (sub ≠ []) as Hne.
  { intros ->. apply Permutation_nil_r in Hperm.
    pose proof (drawn_count _ _ _ _ _ _ _ Hdrawn) as Hlen.
    rewrite Hperm in Hlen. destruct sellingPoints; [done|]. simpl in Hlen. lia. }
  rewrite (combinationKey_Permutation h sps sub c Hperm).
  apply list_elem_of_In, in_map_iff. exists (h, sub, c). split; [done|].
  apply in_prod; [apply in_prod|]; apply list_elem_of_In.
  - by eapply drawn_hook.
  - by apply elem_of_nonemptySublists.
  - by eapply drawn_cta.
Qed.

(** No more sequences than keys. *)
Lemma generated_bound D r :
  generated D hooks sellingPoints ctas r →
  length r ≤ length hooks * (2 ^ length sellingPoints - 1) * length ctas.
Proof.
  intros (Hnd & Hall & _).
  rewrite <- (length_map sequenceKey r), <- reachableKeys_length.
  apply submseteq_length, NoDup_submseteq; [done|].
  intros k (s & -> & Hs)%list_elem_of_fmap.
  eapply (proj1 (Forall_forall _ _)) in Hall; [|done].
  destruct Hall as (d & h & sps & c & _ & Hdrawn & Hclips & _).
  unfold sequenceKey. rewrite Hclips, clipsKey_shape.
  by eapply drawn_key_reachable.
Qed.

Lemma too_few_keys_target :
  hooks ≠ [] → ctas ≠ [] →
  length hooks * (2 ^ length sellingPoints - 1) * length ctas < 10 →
  length hooks * (2 ^ length sellingPoints - 1) * length ctas
  < numSequences hooks sellingPoints ctas.
Proof.
  intros Hh Hc Hlt. unfold numSequences, maxCombinations.
  assert (0 < length hooks) by (destruct hooks; [done|simpl; lia]).
  assert (0 < length ctas) by (destruct ctas; [done|simpl; lia]).
  pose proof (Nat.pow_nonzero 2 (length sellingPoints)).
  set (m := 2 ^ length sellingPoints) in *. nia.
Qed.

(** When the keys are fewer than ten, the loop asks for more sequences than
    there are keys and cannot come to its end. *)
Lemma too_few_keys_no_exit draws r :
  hooks ≠ [] → ctas ≠ [] →
  length hooks * (2 ^ length sellingPoints - 1) * length ctas < 10 →
  generateLoop hooks sellingPoints ctas (numSequences hooks sellingPoints ctas)
    draws [] ∅ ≠ Exited r.
Proof.
  intros Hh Hc Hlt Hrun.
  pose proof (generateLoop_generated hooks sellingPoints ctas
                (numSequences hooks sellingPoints ctas) (λ _, True) draws
                (Forall_True draws)) as Hgen.
  rewrite Hrun in Hgen. destruct Hgen as [Hgen Hlen].
  apply generated_bound in Hgen.
  pose proof (too_few_keys_target Hh Hc Hlt). lia.
Qed.
End ReachableKeys.

Lemma generateSequences_too_few_keys draws st st' toasts :
  ofType hook (availableClips st) ≠ [] → ofType cta (availableClips st) ≠ [] →
  ofType selling_point (availableClips st) ≠ [] →
  length (ofType hook (availableClips st))
    * (2 ^ length (ofType selling_point (availableClips st)) - 1)
    * length (ofType cta (availableClips st)) < 10 →
  generateSequences draws st ≠ Returned st' toasts.
Proof.
  intros Hh Hc Hsp Hlt. rewrite generateSequences_loop by done. simpl.
  pose proof (too_few_keys_no_exit (ofType hook (availableClips st))
                (ofType selling_point (availableClips st))
                (ofType cta (availableClips st)) Hsp draws) as Hno.
  destruct (generateLoop _ _ _ _ _ _ _) as [r|r|]; [|done..].
  by destruct (Hno r).
Qed.

(** ** Repeated draws *)

(** A draw whose combination is already used changes nothing, however often
    it is repeated. *)
Lemma generateLoop_repeated hooks sellingPoints ctas target d h c (n : nat) :
  hooks !! floorRandom (u_hook d) (length hooks) = Some h →
  ctas !! floorRandom (u_cta d) (length ctas) = Some c →
  ∀ ns used,
    length ns < target →
    combinationKey h
      (take (Nat.min (floorRandom (u_count d) 3 + 1) (length sellingPoints))
         (shuffleWith (shuffle_code d) sellingPoints)) c ∈ used →
    generateLoop hooks sellingPoints ctas target (replicate n d) ns used
      = Spinning ns.
Proof.
  intros Hh Hc ns used Hlt Hused.
  apply Nat.ltb_lt in Hlt.
  induction n as [|n IH]; simpl; rewrite Hlt; [done|].
  rewrite Hh, Hc. by rewrite bool_decide_eq_true_2.
Qed.

(** On the demonstration catalog, where ten sequences can be drawn, the
    loop does not come to an end either when every draw is the same. *)
Lemma generate_demo_constant_draws (n : nat) :
  generateSequences (replicate (S n) (mkDraw 0 0 0 [])) demoState = Hung.
Proof.
  rewrite generateSequences_loop by done.
  cbv zeta. simpl replicate.
  change (generateLoop ?a ?b ?c ?t (?d :: ?ds) [] ∅)
    with (generateLoop a b c t ds
            [emitted [] hook1 [feature1] cta1]
            ({[combinationKey hook1 [feature1] cta1]} ∪ ∅)).
  by rewrite (generateLoop_repeated _ _ _ _ _ hook1 cta1 n);
    [| | |vm_compute; lia|apply elem_of_union_l, elem_of_singleton].
Qed.

(** C1 at the catalog of one hook, one selling point and one call to action:
    [maxCombinations] is 2, so the loop asks for two sequences, and the only
    key that can be drawn is ["1|3|6"]; whatever the random choices and
    however many draws are made, [generateSequences] does not return. *)
Theorem generate_triple_never_returns (draws : list Draw) :
  numSequences (ofType hook tripleCatalog) (ofType selling_point tripleCatalog)
    (ofType cta tripleCatalog) = 2 ∧
  reachableKeys (ofType hook tripleCatalog) (ofType selling_point tripleCatalog)
    (ofType cta tripleCatalog) = ["1|3|6"] ∧
  (generateSequences draws tripleState = Hung ∨
   generateSequences draws tripleState = Threw).
Proof.
  split; [reflexivity|]. split; [reflexivity|].
  pose proof (generateSequences_too_few_keys draws tripleState) as Hno.
  destruct (generateSequences draws tripleState) as [st' toasts| |] eqn:Hrun;
    [|by left|by right].
  destruct (Hno st' toasts); [done|done|done|simpl; lia|reflexivity].
Qed.

(** C2 fails on every catalog with at least one hook, one call to action
    and one selling point in which the hooks, the non-empty selections of
    selling points and the calls to action combine to fewer than ten keys
    (one selling point and up to nine pairs, two and up to three pairs,
    three and one pair): for every realization of the random choices, and
    after any number of draws, [generateSequences] is still inside its
    loop. *)
Theorem generate_loop_does_not_terminate (draws : list Draw) (st : State) :
  Forall valid_draw draws →
  ofType hook (availableClips st) ≠ [] → ofType cta (availableClips st) ≠ [] →
  ofType selling_point (availableClips st) ≠ [] →
  length (ofType hook (availableClips st))
    * (2 ^ length (ofType selling_point (availableClips st)) - 1)
    * length (ofType cta (availableClips st)) < 10 →
  generateSequences draws st = Hung.
Proof.
  intros Hvalid Hh Hc Hsp Hlt.
  pose proof (generateSequences_too_few_keys draws st) as Hno.
  pose proof (generateLoop_no_TypeError (ofType hook (availableClips st))
                (ofType selling_point (availableClips st))
                (ofType cta (availableClips st))
                (numSequences (ofType hook (availableClips st))
                   (ofType selling_point (availableClips st))
                   (ofType cta (availableClips st)))
                draws Hh Hc Hvalid [] ∅) as Hok.
  rewrite generateSequences_loop in Hno |- * by done. simpl in *.
  destruct (generateLoop _ _ _ _ _ _ _) as [r|r|]; [|done..].
  by edestruct Hno.
Qed.

Lemma generate_loop_does_not_terminate_witness :
  generateSequences demoDraws twoFeaturesState = Hung.
Proof.
  apply (generate_loop_does_not_terminate demoDraws twoFeaturesState).
  - repeat constructor; unfold Qle, Qlt; simpl; lia.
  - vm_compute. discriminate.
  - vm_compute. discriminate.
  - vm_compute. discriminate.
  - vm_compute. lia.
Defined.

(** * The export pipeline *)

(** ** File names *)

Lemma string_app_length (a b : string) :
  String.length (a +:+ b) = String.length a + String.length b.
Proof. induction a as [|ch a IH]; simpl; [done|by rewrite IH]. Qed.

Lemma string_app_inj_r (s a b : string) : a +:+ s = b +:+ s → a = b.
Proof.
  revert b. induction a as [|ch a IH]; intros [|ch' b] Heq.
  - done.
  - apply (f_equal String.length) in Heq.
    rewrite !string_app_length in Heq. simpl in Heq. lia.
  - apply (f_equal String.length) in Heq.
    rewrite !string_app_length in Heq. simpl in Heq. lia.
  - simpl in Heq. injection Heq as -> Heq. f_equal. by apply IH.
Qed.

#[global] Instance inputName_inj : Inj (=) (=) inputName.
Proof.
  intros i j Heq. unfold inputName in Heq.
  apply String.app_inj, string_app_inj_r in Heq. by apply (inj pretty).
Qed.

Lemma inputName_not_list i : inputName i ≠ "list.txt".
Proof. done. Qed.

Lemma inputName_not_output i : inputName i ≠ "output.mp4".
Proof. done. Qed.

(** ** The staging loop *)

Lemma stage_lookup_other clips name :
  ∀ i fs, (∀ k, k < length clips → name ≠ inputName (i + k)) →
          stage clips i fs !! name = fs !! name.
Proof.
  induction clips as [|clip rest IH]; intros i fs Hname; simpl; [done|].
  destruct (VideoClip.file clip) as [f|]; [|done].
  rewrite IH.
  - apply lookup_insert_ne. intros Heq. apply (Hname 0); simpl; [lia|].
    by rewrite Nat.add_0_r.
  - intros k Hk. replace (S i + k) with (i + S k) by lia.
    apply Hname. simpl. lia.
Qed.

Lemma stage_lookup_before clips j :
  ∀ i fs, j < i → stage clips i fs !! inputName j = fs !! inputName j.
Proof.
  intros i fs Hj. apply stage_lookup_other.
  intros k _ Heq%(inj inputName). lia.
Qed.

(** Every input written before the first clip without a file is in the
    working area. *)
Lemma stage_lookup_input clips :
  ∀ i fs k clip f,
    clips !! k = Some clip → VideoClip.file clip = Some f →
    firstMissing (take k clips) = None →
    stage clips i fs !! inputName (i + k) = Some (Binary f).
Proof.
  induction clips as [|c rest IH]; intros i fs k clip f Hk Hf Hpre; [done|].
  destruct k as [|k]; simpl in *.
  - injection Hk as ->. rewrite Hf, Nat.add_0_r.
    rewrite stage_lookup_before by lia. apply lookup_insert_eq.
  - destruct (VideoClip.file c) as [fc|]; [|done].
    replace (i + S k) with (S i + k) by lia. by eapply IH.
Qed.

Lemma firstMissing_None clips :
  firstMissing clips = None ↔ Forall (λ clip, is_Some (VideoClip.file clip)) clips.
Proof.
  induction clips as [|c rest IH]; simpl.
  - split; [constructor|done].
  - rewrite Forall_cons, <- IH.
    destruct (VideoClip.file c); split.
    + intros ?; split; [by eexists|done].
    + by intros [_ ?].
    + done.
    + by intros [[? ?] _].
Qed.

Lemma firstMissing_Some clips clip :
  firstMissing clips = Some clip → clip ∈ clips ∧ VideoClip.file clip = None.
Proof.
  induction clips as [|c rest IH]; simpl; [done|].
  destruct (VideoClip.file c) eqn:Hc.
  - intros [? ?]%IH. split; [by right|done].
  - intros [= <-]. split; [by left|done].
Qed.

Lemma firstMissing_exists clips clip :
  clip ∈ clips → VideoClip.file clip = None → is_Some (firstMissing clips).
Proof.
  intros Hin Hnone. destruct (firstMissing clips) eqn:Hfm; [by eexists|].
  apply firstMissing_None in Hfm.
  eapply (proj1 (Forall_forall _ _)) in Hfm; [|done].
  rewrite Hnone in Hfm. by destruct Hfm.
Qed.

Lemma writeInputs_run clips :
  ∀ i acc w fs,
    ffmpeg w = Some fs →
    writeInputs clips i acc w =
      (match firstMissing clips with
       | Some clip => inl (missingFile clip)
       | None => inr (manifest (length clips) i acc)
       end,
       withFS (stage clips i fs) w).
Proof.
  induction clips as [|clip rest IH]; intros i acc w fs Hfs; simpl.
  - unfold mret, M_ret, withFS. destruct w; simpl in *. by subst.
  - destruct (VideoClip.file clip) as [f|].
    + unfold mbind, M_bind, writeFile, getFS, setFS, mbind, M_bind. rewrite Hfs.
      erewrite IH; [|reflexivity]. done.
    + unfold throw, withFS. destruct w; simpl in *. by subst.
Qed.

(** ** One export *)

Section ExportOne.
Variable E : Engine.
Variable sequence : Sequence.t.
Variable index : option nat.
Variables (w : World) (fs : FS).
Hypothesis Hready : ready w fs.

(** A clip without a file: the export throws from inside the first loop;
    nothing is removed from the working area. *)
Lemma exportSequence_missing clip :
  firstMissing (Sequence.clips sequence) = Some clip →
  exportSequence E sequence index w =
    (inl (missingFile clip),
     mkWorld
       (mkState (sequences (state w)) (availableClips (state w))
          (negb (notIndex index)))
       false (Some (stage (Sequence.clips sequence) 0 fs))
       (log w ++ startToast index ++ failureReports index (missingFile clip))).
Proof.
  intros Hmissing. destruct Hready as [Hl Hf]. destruct w as [st fl ff lg].
  simpl in Hl, Hf. subst fl ff.
  unfold exportSequence, tryCatchFinally, exportBody. simpl.
  unfold mbind, M_bind, setLoading, when, toast, emit, startToast, failureReports.
  destruct (notIndex index); simpl.
  - erewrite writeInputs_run by reflexivity. rewrite Hmissing. simpl.
    unfold withFS. simpl. by rewrite <- !app_assoc.
  - erewrite writeInputs_run by reflexivity. rewrite Hmissing. simpl.
    unfold withFS. simpl. by rewrite ?app_nil_r.
Qed.

(** The engine rejects: the export throws what the engine threw; the
    inputs and the manifest stay in the working area. *)
Lemma exportSequence_engine_error e :
  firstMissing (Sequence.clips sequence) = None →
  E concatArgs (staged (Sequence.clips sequence) fs) = inl e →
  exportSequence E sequence index w =
    (inl e,
     mkWorld
       (mkState (sequences (state w)) (availableClips (state w))
          (negb (notIndex index)))
       false (Some (staged (Sequence.clips sequence) fs))
       (log w ++ startToast index ++ [Exec concatArgs (staged (Sequence.clips sequence) fs)]
          ++ failureReports index e)).
Proof.
  intros Hall Hengine. destruct Hready as [Hl Hf]. destruct w as [st fl ff lg].
  simpl in Hl, Hf. subst fl ff.
  unfold exportSequence, tryCatchFinally, exportBody. simpl.
  unfold mbind, M_bind, setLoading, when, toast, emit, startToast, failureReports.
  destruct (notIndex index); simpl.
  - erewrite writeInputs_run by reflexivity. rewrite Hall. simpl.
    unfold exec, writeFile, getFS, setFS, mbind, M_bind, emit. simpl.
    fold (staged (Sequence.clips sequence) fs). rewrite Hengine. simpl.
    by rewrite <- !app_assoc.
  - erewrite writeInputs_run by reflexivity. rewrite Hall. simpl.
    unfold exec, writeFile, getFS, setFS, mbind, M_bind, emit. simpl.
    fold (staged (Sequence.clips sequence) fs). rewrite Hengine. simpl.
    by rewrite <- ?app_assoc.
Qed.

(** The engine resolves without leaving an output: reading it throws. *)
Lemma exportSequence_no_output fs' :
  firstMissing (Sequence.clips sequence) = None →
  E concatArgs (staged (Sequence.clips sequence) fs) = inr fs' →
  fs' !! "output.mp4" = None →
  exportSequence E sequence index w =
    (inl (Error "ErrnoError: FS error: output.mp4"),
     mkWorld
       (mkState (sequences (state w)) (availableClips (state w))
          (negb (notIndex index)))
       false (Some fs')
       (log w ++ startToast index ++ [Exec concatArgs (staged (Sequence.clips sequence) fs)]
          ++ failureReports index (Error "ErrnoError: FS error: output.mp4"))).
Proof.
  intros Hall Hengine Hout. destruct Hready as [Hl Hf]. destruct w as [st fl ff lg].
  simpl in Hl, Hf. subst fl ff.
  unfold exportSequence, tryCatchFinally, exportBody. simpl.
  unfold mbind, M_bind, setLoading, when, toast, emit, startToast, failureReports.
  destruct (notIndex index); simpl.
  - erewrite writeInputs_run by reflexivity. rewrite Hall. simpl.
    unfold exec, readFile, writeFile, getFS, setFS, mbind, M_bind, emit. simpl.
    fold (staged (Sequence.clips sequence) fs). rewrite Hengine. simpl. rewrite Hout. simpl.
    by rewrite <- ?app_assoc.
  - erewrite writeInputs_run by reflexivity. rewrite Hall. simpl.
    unfold exec, readFile, writeFile, getFS, setFS, mbind, M_bind, emit. simpl.
    fold (staged (Sequence.clips sequence) fs). rewrite Hengine. simpl. rewrite Hout. simpl.
    by rewrite <- ?app_assoc.
Qed.
End ExportOne.

Section ExportInBatch.
Variable E : Engine.
Variable sequence : Sequence.t.
Variable i : nat.
Variables (w : World) (fs : FS).
Hypothesis Hready : ready w fs.

(** With a position the export returns the output under a name; the
    statements that clean the working area are not reached. *)
Lemma exportSequence_batch_ok fs' out :
  firstMissing (Sequence.clips sequence) = None →
  E concatArgs (staged (Sequence.clips sequence) fs) = inr fs' →
  fs' !! "output.mp4" = Some out →
  exportSequence E sequence (Some i) w =
    (inr (Some (mkNamedBuffer (restitchedName i) out)),
     mkWorld
       (mkState (sequences (state w)) (availableClips (state w))
          (negb (notIndex (Some i))))
       false (Some fs')
       (log w ++ startToast (Some i) ++ [Exec concatArgs (staged (Sequence.clips sequence) fs)])).
Proof.
  intros Hall Hengine Hout. destruct Hready as [Hl Hf]. destruct w as [st fl ff lg].
  simpl in Hl, Hf. subst fl ff.
  unfold exportSequence, tryCatchFinally, exportBody. simpl.
  unfold mbind, M_bind, setLoading, when, toast, emit, startToast.
  destruct i as [|j]; simpl.
  - erewrite writeInputs_run by reflexivity. rewrite Hall. simpl.
    unfold exec, readFile, writeFile, getFS, setFS, mbind, M_bind, emit. simpl.
    fold (staged (Sequence.clips sequence) fs). rewrite Hengine. simpl. rewrite Hout. simpl.
    by rewrite <- ?app_assoc.
  - erewrite writeInputs_run by reflexivity. rewrite Hall. simpl.
    unfold exec, readFile, writeFile, getFS, setFS, mbind, M_bind, emit. simpl.
    fold (staged (Sequence.clips sequence) fs). rewrite Hengine. simpl. rewrite Hout. simpl.
    by rewrite <- ?app_assoc.
Qed.
End ExportInBatch.

(** ** The cleaning loop *)

Lemma unstage_lookup_other n name :
  ∀ i fs, (∀ k, k < n → name ≠ inputName (i + k)) →
          unstage n i fs !! name = fs !! name.
Proof.
  induction n as [|n IH]; intros i fs Hname; simpl; [done|].
  rewrite IH.
  - apply lookup_delete_ne. intros Heq. apply (Hname 0); [lia|].
    by rewrite Nat.add_0_r.
  - intros k Hk. replace (S i + k) with (i + S k) by lia. apply Hname. lia.
Qed.

Lemma unstage_lookup_input n :
  ∀ i fs k, k < n → unstage n i fs !! inputName (i + k) = None.
Proof.
  induction n as [|n IH]; intros i fs k Hk; simpl; [lia|].
  destruct k as [|k].
  - rewrite Nat.add_0_r, unstage_lookup_other.
    + apply lookup_delete_eq.
    + intros k _ Heq%(inj inputName). lia.
  - replace (i + S k) with (S i + k) by lia. apply IH. lia.
Qed.

Lemma deleteInputs_run clips :
  ∀ i w fs,
    ffmpeg w = Some fs →
    (∀ k, k < length clips → is_Some (fs !! inputName (i + k))) →
    deleteInputs clips i w = (inr (), withFS (unstage (length clips) i fs) w).
Proof.
  induction clips as [|clip rest IH]; intros i w fs Hfs Hpresent; simpl.
  - unfold mret, M_ret, withFS. destruct w; simpl in *. by subst.
  - unfold mbind, M_bind, deleteFile, getFS, setFS, mbind, M_bind. rewrite Hfs.
    destruct (Hpresent 0) as [data Hdata]; [simpl; lia|].
    rewrite Nat.add_0_r in Hdata. rewrite Hdata.
    erewrite IH; [done|reflexivity|].
    intros k Hk. rewrite lookup_delete_ne.
    + replace (S i + k) with (i + S k) by lia. apply Hpresent. simpl. lia.
    + intros Heq%(inj inputName). lia.
Qed.

Lemma staged_inputs_present clips fs out k :
  firstMissing clips = None → k < length clips →
  is_Some ((<["output.mp4" := out]> (staged clips fs)) !! inputName (0 + k)).
Proof.
  intros Hall Hk. unfold staged.
  rewrite lookup_insert_ne by done. rewrite lookup_insert_ne by done.
  destruct (lookup_lt_is_Some_2 clips k Hk) as [clip Hclip].
  apply firstMissing_None in Hall.
  destruct (proj1 (Forall_forall _ _) Hall clip) as [f Hf].
  { by eapply list_elem_of_lookup_2. }
  erewrite stage_lookup_input; [by eexists|done..|].
  apply firstMissing_None, Forall_take, Hall.
Qed.

(** After the cleaning statements the working area is what it was before
    the export, when none of the names of the export was in use. *)
Lemma cleaned_working_area clips fs out :
  (∀ name, name ∈ scratchNames (length clips) → fs !! name = None) →
  delete "output.mp4"
    (delete "list.txt"
       (unstage (length clips) 0 (<["output.mp4" := out]> (staged clips fs))))
  = fs.
Proof.
  intros Hfree. apply map_eq. intros name.
  destruct (decide (name = "output.mp4")) as [->|Hno].
  { rewrite lookup_delete_eq. symmetry. apply Hfree, elem_of_app.
    right. by right; left. }
  rewrite lookup_delete_ne by done.
  destruct (decide (name = "list.txt")) as [->|Hnl].
  { rewrite lookup_delete_eq. symmetry. apply Hfree, elem_of_app.
    right. by left. }
  rewrite lookup_delete_ne by done.
  destruct (decide (name ∈ map inputName (seq 0 (length clips)))) as [Hin|Hnin].
  - rewrite (Hfree name) by (apply elem_of_app; by left).
    apply list_elem_of_fmap in Hin as (k & -> & Hk%elem_of_seq).
    apply (unstage_lookup_input _ 0). lia.
  - assert (∀ k, k < length clips → name ≠ inputName (0 + k)) as Hother.
    { intros k Hk ->. apply Hnin, list_elem_of_fmap. exists k. split; [done|].
      apply elem_of_seq. lia. }
    rewrite unstage_lookup_other by done.
    unfold staged. rewrite !lookup_insert_ne by done.
    by apply stage_lookup_other.
Qed.

Section ExportSingle.
Variable E : Engine.
Variable sequence : Sequence.t.
Variables (w : World) (fs : FS).
Hypothesis Hready : ready w fs.

(** Without a position the output is handed to the browser as a download
    and the inputs, the manifest and the output are deleted. *)
Lemma exportSequence_single_ok out :
  firstMissing (Sequence.clips sequence) = None →
  E concatArgs (staged (Sequence.clips sequence) fs) = inr (<["output.mp4" := out]> (staged (Sequence.clips sequence) fs)) →
  exportSequence E sequence None w =
    (inr None,
     mkWorld
       (mkState (sequences (state w)) (availableClips (state w)) false)
       false
       (Some (delete "output.mp4"
                (delete "list.txt"
                   (unstage (length (Sequence.clips sequence)) 0
                      (<["output.mp4" := out]> (staged (Sequence.clips sequence) fs))))))
       (log w ++
          [Toasted (toast_success "Starting export...");
           Exec concatArgs (staged (Sequence.clips sequence) fs);
           Downloaded ("restitched " +:+ Sequence.id sequence +:+ ".mp4") (VideoBlob out);
           Toasted (toast_success "Export completed!")])).
Proof.
  intros Hall Hengine. destruct Hready as [Hl Hf]. destruct w as [st fl ff lg].
  simpl in Hl, Hf. subst fl ff.
  unfold exportSequence, tryCatchFinally, exportBody. simpl.
  unfold mbind, M_bind, setLoading, when, toast, emit. simpl.
  erewrite writeInputs_run by reflexivity. rewrite Hall. simpl.
  unfold exec, readFile, writeFile, getFS, setFS, mbind, M_bind, emit. simpl.
  fold (staged (Sequence.clips sequence) fs). rewrite Hengine. simpl.
  rewrite lookup_insert_eq. simpl.
  erewrite deleteInputs_run; [|reflexivity|]; cycle 1.
  { intros k Hk. by apply staged_inputs_present. }
  simpl. unfold deleteFile, getFS, setFS, mbind, M_bind. simpl.
  rewrite unstage_lookup_other by done.
  rewrite lookup_insert_ne by done.
  rewrite (lookup_insert_eq (stage (Sequence.clips sequence) 0 fs) "list.txt" _ : staged (Sequence.clips sequence) fs !! "list.txt" = _).
  simpl. rewrite lookup_delete_ne by done.
  rewrite unstage_lookup_other by done. rewrite lookup_insert_eq. simpl.
  by rewrite <- ?app_assoc.
Qed.
End ExportSingle.

(** ** Where the first loop stops *)

Lemma firstMissing_split clips clip :
  firstMissing clips = Some clip →
  ∃ pre post, clips = pre ++ clip :: post ∧ firstMissing pre = None ∧
              VideoClip.file clip = None.
Proof.
  induction clips as [|c rest IH]; simpl; [done|].
  destruct (VideoClip.file c) as [f|] eqn:Hc.
  - intros (pre & post & -> & Hpre & Hclip)%IH.
    exists (c :: pre), post. simpl. by rewrite Hc.
  - intros [= <-]. by exists [], rest.
Qed.

Lemma stage_stops pre clip post :
  VideoClip.file clip = None →
  ∀ i fs, stage (pre ++ clip :: post) i fs = stage pre i fs.
Proof.
  intros Hclip. induction pre as [|c pre IH]; intros i fs; simpl.
  - by rewrite Hclip.
  - destruct (VideoClip.file c); [apply IH|done].
Qed.

Lemma stubEngine_writesOutputOnly : writesOutputOnly stubEngine.
Proof.
  intros args fs fs'. unfold stubEngine.
  destruct (fs !! "list.txt") as [[manifest|]|]; try done.
  destruct (readInputs _ _ _); [|done].
  intros [= <-]. by eexists.
Qed.

Lemma execs_app l1 l2 : execs (l1 ++ l2) = execs l1 ++ execs l2.
Proof. apply omap_app. Qed.

Lemma downloads_app l1 l2 : downloads (l1 ++ l2) = downloads l1 ++ downloads l2.
Proof. apply omap_app. Qed.

Lemma reports_app l1 l2 : reports (l1 ++ l2) = reports l1 ++ reports l2.
Proof. apply List.filter_app. Qed.

Lemma execs_startToast index : execs (startToast index) = [].
Proof. unfold startToast. by destruct (notIndex index). Qed.

Lemma execs_failureReports index e : execs (failureReports index e) = [].
Proof. unfold failureReports. by destruct (notIndex index). Qed.

Lemma downloads_startToast index : downloads (startToast index) = [].
Proof. unfold startToast. by destruct (notIndex index). Qed.

Lemma downloads_failureReports index e : downloads (failureReports index e) = [].
Proof. unfold failureReports. by destruct (notIndex index). Qed.

(** Before the engine is loaded an export shows an error toast, returns
    nothing and does nothing else. *)
Lemma exportSequence_not_ready (E : Engine) (sequence : Sequence.t)
    (index : option nat) (w : World) :
  ffmpegLoading w = true ∨ ffmpeg w = None →
  exportSequence E sequence index w =
    (inr None,
     withLog [Toasted (toast_error "Please wait for video processing to initialize")] w).
Proof.
  intros Hnot. unfold exportSequence.
  assert (ffmpegLoading w || bool_decide (ffmpeg w = None) = true) as ->; [|done].
  destruct Hnot as [-> | ->]; [done|].
  by rewrite bool_decide_eq_true_2, orb_true_r.
Qed.

(** * A single export: what stays in the working area *)

(** C5 on the path taken from [downloadAllSequences]: when [exportSequence]
    is given a position and returns a named buffer, it returns before the
    statements that clean the working area, so the output, the manifest and
    every input are still there. *)
Theorem export_with_index_leaves_scratch (E : Engine) (sequence : Sequence.t)
    (i : nat) (w w' : World) (fs : FS) (buffer : NamedBuffer) :
  writesOutputOnly E →
  ready w fs →
  exportSequence E sequence (Some i) w = (inr (Some buffer), w') →
  buffer_name buffer = restitchedName i ∧
  ∃ fs',
    ffmpeg w' = Some fs' ∧
    fs' !! "output.mp4" = Some (buffer_data buffer) ∧
    is_Some (fs' !! "list.txt") ∧
    ∀ k clip, Sequence.clips sequence !! k = Some clip →
              is_Some (VideoClip.file clip) ∧
              fs' !! inputName k = Binary <$> VideoClip.file clip.
Proof.
  intros HE Hready Hrun.
  destruct (firstMissing (Sequence.clips sequence)) as [clip|] eqn:Hfm.
  { by rewrite (exportSequence_missing E _ _ _ _ Hready clip Hfm) in Hrun. }
  destruct (E concatArgs (staged (Sequence.clips sequence) fs)) as [e|fs'] eqn:Hengine.
  { by rewrite (exportSequence_engine_error E _ _ _ _ Hready e Hfm Hengine) in Hrun. }
  destruct (HE _ _ _ Hengine) as [out ->].
  rewrite (exportSequence_batch_ok E _ _ _ _ Hready _ out Hfm Hengine) in Hrun
    by apply lookup_insert_eq.
  injection Hrun as <- <-. simpl. split; [done|].
  eexists. split; [done|]. split_and!.
  - apply lookup_insert_eq.
  - rewrite lookup_insert_ne by done. unfold staged.
    rewrite lookup_insert_eq. by eexists.
  - intros k clip Hk.
    apply firstMissing_None in Hfm.
    destruct (proj1 (Forall_forall _ _) Hfm clip) as [f Hf].
    { by eapply list_elem_of_lookup_2. }
    split; [by eexists|]. rewrite Hf. simpl.
    unfold staged. rewrite !lookup_insert_ne by done.
    apply (stage_lookup_input _ 0 fs k clip f Hk Hf).
    by apply firstMissing_None, Forall_take.
Qed.

Lemma export_with_index_leaves_scratch_witness :
  let r := exportSequence stubEngine fullSequence (Some 0) (readyWorld []) in
  r.1 = inr (Some (mkNamedBuffer "restitched 1.mp4" (Binary [x01; x02; x03; x04; x05]))) ∧
  ∃ fs',
    ffmpeg r.2 = Some fs' ∧
    fs' !! "output.mp4" = Some (Binary [x01; x02; x03; x04; x05]) ∧
    is_Some (fs' !! "list.txt") ∧
    ∀ k clip, Sequence.clips fullSequence !! k = Some clip →
              is_Some (VideoClip.file clip) ∧
              fs' !! inputName k = Binary <$> VideoClip.file clip.
Proof.
  split; [vm_compute; reflexivity|].
  apply (export_with_index_leaves_scratch stubEngine fullSequence 0 (readyWorld [])
           _ ∅ (mkNamedBuffer "restitched 1.mp4" (Binary [x01; x02; x03; x04; x05]))).
  - apply stubEngine_writesOutputOnly.
  - split; reflexivity.
  - vm_compute. reflexivity.
Defined.

(** The other path: without a position, and when the names of the export
    are not in use, a successful [exportSequence] hands the output to the
    browser and leaves the working area as it found it. *)
Lemma export_without_index_cleans (E : Engine) (sequence : Sequence.t)
    (w : World) (fs : FS) :
  writesOutputOnly E →
  ready w fs →
  (∀ name, name ∈ scratchNames (length (Sequence.clips sequence)) → fs !! name = None) →
  firstMissing (Sequence.clips sequence) = None →
  (∃ fs', E concatArgs (staged (Sequence.clips sequence) fs) = inr fs') →
  ∃ out,
    exportSequence E sequence None w =
      (inr None,
       mkWorld (mkState (sequences (state w)) (availableClips (state w)) false)
         false (Some fs)
         (log w ++
            [Toasted (toast_success "Starting export...");
             Exec concatArgs (staged (Sequence.clips sequence) fs);
             Downloaded ("restitched " +:+ Sequence.id sequence +:+ ".mp4") (VideoBlob out);
             Toasted (toast_success "Export completed!")])).
Proof.
  intros HE Hready Hfree Hall [fs' Hengine].
  destruct (HE _ _ _ Hengine) as [out ->]. exists out.
  rewrite (exportSequence_single_ok E _ _ _ Hready out Hall Hengine).
  by rewrite cleaned_working_area.
Qed.

(** C6, as [exportSequence] has it: with the engine loaded, when a clip of
    the sequence has no file, the export throws
    [Missing file for clip: <name>] for the first such clip without calling
    the engine, and it removes nothing: the inputs written for the [p] clips
    before that one are in the working area afterwards, and every other file
    of the working area is as it was.  So the working area is left as it was
    exactly when it held these [p] inputs with these bytes before, which is
    so when the first clip is the one without a file; and a working area
    that held none of these inputs, an empty one for instance, is left as it
    was only when the first clip is the one without a file. *)
Theorem export_missing_source (E : Engine) (sequence : Sequence.t)
    (index : option nat) (w : World) (fs : FS) :
  ready w fs →
  (∃ clip, clip ∈ Sequence.clips sequence ∧ VideoClip.file clip = None) →
  ∃ p clip fs',
    Sequence.clips sequence !! p = Some clip ∧
    VideoClip.file clip = None ∧
    (∀ k c, k < p → Sequence.clips sequence !! k = Some c → is_Some (VideoClip.file c)) ∧
    (exportSequence E sequence index w).1 = inl (missingFile clip) ∧
    execs (log (exportSequence E sequence index w).2) = execs (log w) ∧
    ffmpeg (exportSequence E sequence index w).2 = Some fs' ∧
    (∀ k c, k < p → Sequence.clips sequence !! k = Some c →
            fs' !! inputName k = Binary <$> VideoClip.file c) ∧
    (∀ name, (∀ k, k < p → name ≠ inputName k) → fs' !! name = fs !! name) ∧
    (fs' = fs ↔
     ∀ k c, k < p → Sequence.clips sequence !! k = Some c →
            fs !! inputName k = Binary <$> VideoClip.file c) ∧
    ((∀ k, k < p → fs !! inputName k = None) → (fs' = fs ↔ p = 0)).
Proof.
  intros Hready (missing & Hin & Hnone).
  destruct (firstMissing_exists _ _ Hin Hnone) as [clip Hfm].
  destruct (firstMissing_split _ _ Hfm) as (pre & post & Hclips & Hpre & Hclip).
  rewrite (exportSequence_missing E _ _ _ _ Hready clip Hfm). simpl.
  rewrite Hclips, stage_stops by done.
  exists (length pre), clip, (stage pre 0 fs).
  assert (∀ k c, k < length pre → (pre ++ clip :: post) !! k = Some c →
                 pre !! k = Some c) as Hlook.
  { intros k c Hk. by rewrite lookup_app_l. }
  assert (∀ k c, k < length pre → (pre ++ clip :: post) !! k = Some c →
                 is_Some (VideoClip.file c)) as Hfiles.
  { intros k c Hk Hc%Hlook; [|done].
    apply firstMissing_None in Hpre.
    eapply (proj1 (Forall_forall _ _) Hpre). by eapply list_elem_of_lookup_2. }
  assert (∀ k c, k < length pre → (pre ++ clip :: post) !! k = Some c →
                 stage pre 0 fs !! inputName k = Binary <$> VideoClip.file c)
    as Hstaged.
  { intros k c Hk Hc. destruct (Hfiles k c Hk Hc) as [f Hf].
    apply Hlook in Hc; [|done]. rewrite Hf. simpl.
    apply (stage_lookup_input pre 0 fs k c f Hc Hf).
    by apply firstMissing_None, Forall_take, firstMissing_None. }
  assert (∀ name, (∀ k, k < length pre → name ≠ inputName k) →
                  stage pre 0 fs !! name = fs !! name) as Hother.
  { intros name Hname. by apply stage_lookup_other. }
  assert (stage pre 0 fs = fs ↔
          ∀ k c, k < length pre → (pre ++ clip :: post) !! k = Some c →
                 fs !! inputName k = Binary <$> VideoClip.file c) as Hsame.
  { split.
    - intros Heq k c Hk Hc. rewrite <- Heq at 1. by apply Hstaged.
    - intros Hheld. apply map_eq. intros name.
      destruct (decide (Exists (λ k, name = inputName k) (seq 0 (length pre))))
        as [Hex|Hno].
      + apply Exists_exists in Hex as (k & Hk & ->).
        apply elem_of_seq in Hk as [_ Hk]. simpl in Hk.
        destruct (lookup_lt_is_Some_2 (pre ++ clip :: post) k) as [c Hc].
        { rewrite length_app. lia. }
        by rewrite (Hstaged k c Hk Hc), (Hheld k c Hk Hc).
      + apply Hother. intros k Hk ->. apply Hno, Exists_exists.
        exists k. split; [|done]. apply elem_of_seq. simpl. lia. }
  split_and!; try done.
  - by rewrite list_lookup_middle.
  - rewrite !execs_app, execs_startToast, execs_failureReports.
    by rewrite !app_nil_r.
  - intros Hfree. rewrite Hsame. split.
    + intros Hheld. destruct pre as [|c0 pre']; [done|]. exfalso.
      specialize (Hheld 0 c0). specialize (Hfiles 0 c0).
      destruct Hfiles as [f Hf]; [simpl; lia|done|].
      rewrite Hfree, Hf in Hheld by (simpl; lia).
      by specialize (Hheld ltac:(simpl; lia) eq_refl).
    + intros Hp k c Hk. lia.
Qed.

Lemma export_missing_source_witness :
  ∃ p clip fs',
    Sequence.clips brokenSequence !! p = Some clip ∧
    VideoClip.file clip = None ∧
    (∀ k c, k < p → Sequence.clips brokenSequence !! k = Some c →
            is_Some (VideoClip.file c)) ∧
    (exportSequence stubEngine brokenSequence None (readyWorld [])).1
      = inl (missingFile clip) ∧
    execs (log (exportSequence stubEngine brokenSequence None (readyWorld [])).2)
      = execs (log (readyWorld [])) ∧
    ffmpeg (exportSequence stubEngine brokenSequence None (readyWorld [])).2
      = Some fs' ∧
    (∀ k c, k < p → Sequence.clips brokenSequence !! k = Some c →
            fs' !! inputName k = Binary <$> VideoClip.file c) ∧
    (∀ name, (∀ k, k < p → name ≠ inputName k) → fs' !! name = (∅ : FS) !! name) ∧
    (fs' = ∅ ↔
     ∀ k c, k < p → Sequence.clips brokenSequence !! k = Some c →
            (∅ : FS) !! inputName k = Binary <$> VideoClip.file c) ∧
    ((∀ k, k < p → (∅ : FS) !! inputName k = None) → (fs' = ∅ ↔ p = 0)).
Proof.
  apply (export_missing_source stubEngine brokenSequence None (readyWorld []) ∅).
  - split; reflexivity.
  - exists lostClip. split; [|reflexivity].
    apply list_elem_of_lookup. exists 1. reflexivity.
Defined.

(** C6 as stated fails when the clip without a file is not the first one:
    the export of [intro hook, speed, buy cta], where [speed] has no file,
    throws and leaves [input0.mp4] in a working area that was empty. *)
Lemma export_missing_source_counterexample :
  (exportSequence stubEngine brokenSequence None (readyWorld [])).1
    = inl (Error "Missing file for clip: speed") ∧
  ffmpeg (readyWorld []) = Some ∅ ∧
  ffmpeg (exportSequence stubEngine brokenSequence None (readyWorld [])).2
    = Some {[ "input0.mp4" := Binary [x01; x02] ]} ∧
  ffmpeg (exportSequence stubEngine brokenSequence None (readyWorld [])).2
    ≠ Some ∅.
Proof.
  split_and!; try (vm_compute; reflexivity).
  intros Heq.
  assert (ffmpeg (exportSequence stubEngine brokenSequence None (readyWorld [])).2
          = Some {[ "input0.mp4" := Binary [x01; x02] ]}) as Hfs
    by (vm_compute; reflexivity).
  rewrite Heq in Hfs. apply (inj Some) in Hfs.
  apply (f_equal (lookup "input0.mp4")) in Hfs.
  by rewrite lookup_empty, lookup_singleton_eq in Hfs.
Qed.

(** * The batch *)

(** ** One export of the batch *)

(** An export with a position either returns the output of one call of the
    engine, or throws after at most one call; it delivers nothing itself. *)
Lemma exportSequence_indexed (E : Engine) (s : Sequence.t) (i : nat)
    (w : World) (fs : FS) :
  ready w fs →
  (∃ out fs',
     firstMissing (Sequence.clips s) = None ∧
     exportSequence E s (Some i) w =
       (inr (Some (mkNamedBuffer (restitchedName i) out)),
        mkWorld
          (mkState (sequences (state w)) (availableClips (state w))
             (negb (notIndex (Some i))))
          false (Some fs')
          (log w ++ startToast (Some i)
             ++ [Exec concatArgs (staged (Sequence.clips s) fs)])))
  ∨
  (∃ e fs' calls,
     (calls = [] ∨ calls = [Exec concatArgs (staged (Sequence.clips s) fs)]) ∧
     exportSequence E s (Some i) w =
       (inl e,
        mkWorld
          (mkState (sequences (state w)) (availableClips (state w))
             (negb (notIndex (Some i))))
          false (Some fs')
          (log w ++ startToast (Some i) ++ calls ++ failureReports (Some i) e))).
Proof.
  intros Hready.
  destruct (firstMissing (Sequence.clips s)) as [clip|] eqn:Hfm.
  { right. exists (missingFile clip), (stage (Sequence.clips s) 0 fs), [].
    split; [by left|]. by apply exportSequence_missing. }
  destruct (E concatArgs (staged (Sequence.clips s) fs)) as [e|fs'] eqn:Hengine.
  { right. exists e, (staged (Sequence.clips s) fs), [Exec concatArgs (staged (Sequence.clips s) fs)].
    split; [by right|]. by apply exportSequence_engine_error. }
  destruct (fs' !! "output.mp4") as [out|] eqn:Hout.
  - left. exists out, fs'. split; [done|]. by apply exportSequence_batch_ok.
  - right. eexists _, fs', [Exec concatArgs (staged (Sequence.clips s) fs)].
    split; [by right|]. by apply exportSequence_no_output.
Qed.

(** ** The loop over the sequences *)

Section ExportAll.
Variable E : Engine.

(** When the loop comes to its end, every sequence was exported once, in
    the order of the list, and has its entry in the archive. *)
Lemma exportAll_ok (seqs : list Sequence.t) :
  ∀ i zip w fs zip' w',
    ready w fs →
    exportAll E seqs i zip w = (inr zip', w') →
    (∃ fs', ready w' fs') ∧
    zip'.*1 = zip.*1 ++ map restitchedName (seq i (length seqs)) ∧
    (∃ snaps, Forall2 stagedFor seqs snaps ∧
              execs (log w') = execs (log w) ++ snaps) ∧
    downloads (log w') = downloads (log w) ∧
    sequences (state w') = sequences (state w).
Proof.
  induction seqs as [|s rest IH]; intros i zip w fs zip' w' Hready Hrun.
  - injection Hrun as <- <-. split_and!; [by exists fs|by rewrite app_nil_r| |done..].
    exists []. split; [constructor|by rewrite app_nil_r].
  - simpl in Hrun. unfold mbind, M_bind in Hrun.
    destruct (exportSequence_indexed E s i w fs Hready)
      as [(out & fs1 & Hfm & Hone)|(e & fs1 & calls & _ & Hone)];
      rewrite Hone in Hrun; [|done].
    simpl in Hrun.
    eapply IH in Hrun as (Hr & Hzip & (snaps & Hsnaps & Hexecs) & Hdl & Hseqs);
      [|by split].
    simpl in *. split_and!; [done| | |..].
    + rewrite Hzip, fmap_app. simpl. by rewrite <- app_assoc.
    + exists (staged (Sequence.clips s) fs :: snaps). split.
      * constructor; [|done]. split; [done|by exists fs].
      * rewrite Hexecs, !execs_app, execs_startToast. simpl.
        by rewrite <- app_assoc.
    + rewrite Hdl, !downloads_app, downloads_startToast. simpl.
      by rewrite app_nil_r.
    + done.
Qed.

(** When the loop throws, the exports before the one that threw had
    succeeded, and nothing was done after it. *)
Lemma exportAll_fail (seqs : list Sequence.t) :
  ∀ i zip w fs e w',
    ready w fs →
    exportAll E seqs i zip w = (inl e, w') →
    ∃ k s zipk wk fsk,
      seqs !! k = Some s ∧
      exportAll E (take k seqs) i zip w = (inr zipk, wk) ∧
      ready wk fsk ∧
      exportSequence E s (Some (i + k)) wk = (inl e, w').
Proof.
  induction seqs as [|s rest IH]; intros i zip w fs e w' Hready Hrun; [done|].
  simpl in Hrun. unfold mbind, M_bind in Hrun.
  destruct (exportSequence E s (Some i) w) as [[e1|r] w1] eqn:Hone.
  - injection Hrun as <- <-.
    exists 0, s, zip, w, fs. rewrite Nat.add_0_r. by split_and!.
  - destruct (exportSequence_indexed E s i w fs Hready)
      as [(out & fs1 & Hfm & Hone')|(e1 & fs1 & calls & _ & Hone')];
      rewrite Hone' in Hone; [|done].
    injection Hone as <- <-.
    eapply IH in Hrun as (k & sk & zipk & wk & fsk & Hk & Hpre & Hrk & Hfail);
      [|by split].
    exists (S k), sk, zipk, wk, fsk. split_and!; [done| |done|].
    + simpl. unfold mbind, M_bind. by rewrite Hone'.
    + by replace (i + S k) with (S i + k) by lia.
Qed.
End ExportAll.

(** ** The handler *)

Lemma downloadAllSequences_run (E : Engine) (w : World) (fs : FS) :
  ready w fs → sequences (state w) ≠ [] →
  downloadAllSequences E w =
    match exportAll E (sequences (state w)) 0 [] (batchStart w) with
    | (inr zip, w1) =>
        (inr (),
         withLoading false
           (withLog [Downloaded "restitched-sequences.zip" (ZipBlob zip);
                     Toasted (toast_success "All sequences downloaded!")] w1))
    | (inl e, w1) =>
        (inr (),
         withLoading false
           (withLog [ConsoleError "Batch download error:" e;
                     Toasted (toast_error "Failed to download all sequences")] w1))
    end.
Proof.
  intros [Hl Hf] Hseqs. destruct w as [[seqs avail ld] fl ff lg].
  simpl in Hl, Hf, Hseqs. subst fl ff.
  assert ((length seqs =? 0) = false) as Hlen by (by destruct seqs).
  unfold downloadAllSequences. simpl. rewrite Hlen.
  unfold mbind, M_bind, tryCatchFinally, setLoading, toast, emit, batchStart,
    withLog, withLoading. simpl.
  match goal with
  | |- context [exportAll E ?l 0 [] ?x] =>
      destruct (exportAll E l 0 [] x) as [[e|zip] w1]
  end; simpl.
  - by rewrite <- app_assoc.
  - by rewrite <- app_assoc.
Qed.

(** Before the engine is loaded, or without sequences, the handler shows an
    error toast and does nothing else. *)
Lemma downloadAllSequences_refused (E : Engine) (w : World) :
  ffmpegLoading w = true ∨ ffmpeg w = None ∨ sequences (state w) = [] →
  downloadAllSequences E w =
    (inr (),
     withLog [Toasted (toast_error "No sequences to download or processing not ready")] w).
Proof.
  intros Hnot. unfold downloadAllSequences.
  assert (ffmpegLoading w || bool_decide (ffmpeg w = None)
          || (length (sequences (state w)) =? 0) = true) as ->; [|done].
  destruct Hnot as [-> | [-> | ->]]; [done| |].
  - by rewrite bool_decide_eq_true_2, orb_true_r.
  - by rewrite orb_true_r.
Qed.

Lemma ready_batchStart w fs : ready w fs → ready (batchStart w) fs.
Proof. by intros [? ?]. Qed.

(** * The batch: order, archive and reports *)

(** C7, as [downloadAllSequences] has it: with the engine loaded and at
    least one sequence, the handler exports the sequences one after the
    other in the order of the list, and it does not throw.  Either every
    export succeeds: then the engine was called once for each sequence, in
    that order, and one archive with the entries [restitched 1.mp4] ...
    [restitched N.mp4] is delivered.  Or the export of some sequence is the
    first to throw: then nothing is done for the sequences after it, the
    engine was called at most once more than for the sequences before it, no
    archive is delivered, and what is reported is the error on the console
    and the toast [Failed to download all sequences]. *)
Theorem download_all_sequences (E : Engine) (w : World) (fs : FS) :
  ready w fs → sequences (state w) ≠ [] →
  let seqs := sequences (state w) in
  let w' := (downloadAllSequences E w).2 in
  (downloadAllSequences E w).1 = inr () ∧
  ((∃ zip snaps,
      Forall2 stagedFor seqs snaps ∧
      execs (log w') = execs (log w) ++ snaps ∧
      zip.*1 = map restitchedName (seq 0 (length seqs)) ∧
      downloads (log w') =
        downloads (log w) ++ [("restitched-sequences.zip", ZipBlob zip)] ∧
      last (log w') = Some (Toasted (toast_success "All sequences downloaded!")))
   ∨
   (∃ k s e zipk wk fsk w1 snaps,
      seqs !! k = Some s ∧
      exportAll E (take k seqs) 0 [] (batchStart w) = (inr zipk, wk) ∧
      ready wk fsk ∧
      exportSequence E s (Some k) wk = (inl e, w1) ∧
      log w' = log w1 ++
        [ConsoleError "Batch download error:" e;
         Toasted (toast_error "Failed to download all sequences")] ∧
      Forall2 stagedFor (take k seqs) snaps ∧
      (execs (log w') = execs (log w) ++ snaps ∨
       execs (log w') = execs (log w) ++ snaps ++ [staged (Sequence.clips s) fsk]) ∧
      downloads (log w') = downloads (log w))).
Proof.
  intros Hready Hseqs seqs w'. subst w'.
  rewrite (downloadAllSequences_run E w fs Hready Hseqs). fold seqs.
  pose proof (ready_batchStart w fs Hready) as Hready0.
  assert (execs (log (batchStart w)) = execs (log w)) as Hexecs0.
  { unfold batchStart. simpl. rewrite execs_app. simpl. by rewrite app_nil_r. }
  assert (downloads (log (batchStart w)) = downloads (log w)) as Hdl0.
  { unfold batchStart. simpl. rewrite downloads_app. simpl. by rewrite app_nil_r. }
  destruct (exportAll E seqs 0 [] (batchStart w)) as [[e|zip] w1] eqn:Hrun.
  - split; [done|right].
    destruct (exportAll_fail E seqs 0 [] _ fs e w1 Hready0 Hrun)
      as (k & s & zipk & wk & fsk & Hk & Hpre & Hrk & Hfail).
    destruct (exportAll_ok E (take k seqs) 0 [] _ fs zipk wk Hready0 Hpre)
      as (_ & _ & (snaps & Hsnaps & Hexecs) & Hdl & _).
    exists k, s, e, zipk, wk, fsk, w1, snaps.
    simpl in Hfail. split_and!; try done.
    + destruct (exportSequence_indexed E s k wk fsk Hrk)
        as [(out & fs1 & _ & Hone)|(e1 & fs1 & calls & Hcalls & Hone)];
        rewrite Hone in Hfail; [done|].
      injection Hfail as <- <-. simpl.
      rewrite !execs_app, execs_startToast, execs_failureReports, Hexecs, Hexecs0.
      simpl. rewrite !app_nil_r.
      destruct Hcalls as [-> | ->]; simpl.
      * left. by rewrite app_nil_r.
      * right. by rewrite <- app_assoc.
    + destruct (exportSequence_indexed E s k wk fsk Hrk)
        as [(out & fs1 & _ & Hone)|(e1 & fs1 & calls & Hcalls & Hone)];
        rewrite Hone in Hfail; [done|].
      injection Hfail as <- <-. simpl.
      rewrite !downloads_app, downloads_startToast, downloads_failureReports, Hdl, Hdl0.
      simpl. rewrite !app_nil_r.
      by destruct Hcalls as [-> | ->]; simpl; rewrite ?app_nil_r.
  - split; [done|left].
    destruct (exportAll_ok E seqs 0 [] _ fs zip w1 Hready0 Hrun)
      as (_ & Hzip & (snaps & Hsnaps & Hexecs) & Hdl & _).
    exists zip, snaps. simpl. split_and!; try done.
    + rewrite execs_app, Hexecs, Hexecs0. simpl. by rewrite app_nil_r.
    + rewrite downloads_app, Hdl, Hdl0. done.
    + apply last_Some. eexists (_ ++ [_]). by rewrite <- app_assoc.
Qed.

Lemma download_all_sequences_witness :
  let w := readyWorld batchA in
  let seqs := sequences (state w) in
  let w' := (downloadAllSequences stubEngine w).2 in
  (downloadAllSequences stubEngine w).1 = inr () ∧
  ((∃ zip snaps,
      Forall2 stagedFor seqs snaps ∧
      execs (log w') = execs (log w) ++ snaps ∧
      zip.*1 = map restitchedName (seq 0 (length seqs)) ∧
      downloads (log w') =
        downloads (log w) ++ [("restitched-sequences.zip", ZipBlob zip)] ∧
      last (log w') = Some (Toasted (toast_success "All sequences downloaded!")))
   ∨
   (∃ k s e zipk wk fsk w1 snaps,
      seqs !! k = Some s ∧
      exportAll stubEngine (take k seqs) 0 [] (batchStart w) = (inr zipk, wk) ∧
      ready wk fsk ∧
      exportSequence stubEngine s (Some k) wk = (inl e, w1) ∧
      log w' = log w1 ++
        [ConsoleError "Batch download error:" e;
         Toasted (toast_error "Failed to download all sequences")] ∧
      Forall2 stagedFor (take k seqs) snaps ∧
      (execs (log w') = execs (log w) ++ snaps ∨
       execs (log w') = execs (log w) ++ snaps ++ [staged (Sequence.clips s) fsk]) ∧
      downloads (log w') = downloads (log w))).
Proof.
  apply (download_all_sequences stubEngine (readyWorld batchA) ∅).
  - split; reflexivity.
  - discriminate.
Defined.

(** C7 as stated fails on what is reported.  In the first batch the export
    of ["sequence-2"] is the first to throw, in the second batch that of
    ["sequence-3"]; no archive is delivered, and the toasts and console
    lines of the two runs are the same: they do not tell which sequence
    failed. *)
Lemma batch_failure_report_counterexample :
  (prod_map Sequence.id id <$>
     firstFailure stubEngine batchA 0 (batchStart (readyWorld batchA)))
    = Some ("sequence-2", Error "Missing file for clip: speed") ∧
  (prod_map Sequence.id id <$>
     firstFailure stubEngine batchB 0 (batchStart (readyWorld batchB)))
    = Some ("sequence-3", Error "Missing file for clip: speed") ∧
  downloads (log (downloadAllSequences stubEngine (readyWorld batchA)).2) = [] ∧
  downloads (log (downloadAllSequences stubEngine (readyWorld batchB)).2) = [] ∧
  reports (log (downloadAllSequences stubEngine (readyWorld batchA)).2) = batchReports ∧
  reports (log (downloadAllSequences stubEngine (readyWorld batchB)).2) = batchReports.
Proof. split_and!; vm_compute; reflexivity. Qed.

(** * Retagging a clip *)

(** ** On values *)

Lemma retagClip_fields clipId newType clip :
  VideoClip.id (retagClip clipId newType clip) = VideoClip.id clip ∧
  VideoClip.name (retagClip clipId newType clip) = VideoClip.name clip ∧
  VideoClip.duration (retagClip clipId newType clip) = VideoClip.duration clip ∧
  VideoClip.file (retagClip clipId newType clip) = VideoClip.file clip ∧
  VideoClip.type (retagClip clipId newType clip) =
    if bool_decide (VideoClip.id clip = clipId) then newType else VideoClip.type clip.
Proof. unfold retagClip. by case_bool_decide. Qed.

Lemma retagClip_absent clipId newType (clips : list VideoClip.t) :
  clipId ∉ map VideoClip.id clips → map (retagClip clipId newType) clips = clips.
Proof.
  induction clips as [|clip rest IH]; simpl; [done|].
  intros [Hne Hrest]%not_elem_of_cons. rewrite IH by done.
  unfold retagClip. by case_bool_decide.
Qed.

(** ** On objects *)

Section Objects.
Variables (clipId : string) (newType : ClipType).

(** No object of the store is changed: the store only grows. *)
Lemma mapRetag_store_grows (refs : list nat) :
  ∀ σ refs' σ',
    Heap.mapRetag clipId newType refs σ = (refs', σ') →
    ∀ r clip, σ !! r = Some clip → σ' !! r = Some clip.
Proof.
  induction refs as [|r0 rest IH]; intros σ refs' σ' Hrun r clip Hr; simpl in Hrun.
  - by injection Hrun as <- <-.
  - destruct (σ !! r0) as [clip0|] eqn:Hr0.
    + case_bool_decide.
      * unfold Heap.alloc in Hrun.
        destruct (Heap.mapRetag _ _ rest _) as [rest' σ2] eqn:Hrest.
        injection Hrun as <- <-.
        eapply IH; [done|]. rewrite lookup_insert_ne; [done|].
        intros <-. apply (is_fresh (dom σ)), elem_of_dom. by eexists.
      * destruct (Heap.mapRetag _ _ rest _) as [rest' σ2] eqn:Hrest.
        injection Hrun as <- <-. by eapply IH.
    + destruct (Heap.mapRetag _ _ rest _) as [rest' σ2] eqn:Hrest.
      injection Hrun as <- <-. by eapply IH.
Qed.

Lemma deref_cons_Some (σ : Heap.Store) r rest clip :
  σ !! r = Some clip → Heap.deref σ (r :: rest) = clip :: Heap.deref σ rest.
Proof. intros Hr. unfold Heap.deref. simpl. by rewrite Hr. Qed.

Lemma deref_grows (σ σ' : Heap.Store) (refs : list nat) :
  Heap.allocated σ refs →
  (∀ r clip, σ !! r = Some clip → σ' !! r = Some clip) →
  Heap.deref σ' refs = Heap.deref σ refs.
Proof.
  intros Halloc Hgrow. induction Halloc as [|r rest [clip Hr] _ IH]; [done|].
  by rewrite (deref_cons_Some σ r rest clip Hr),
    (deref_cons_Some σ' r rest clip (Hgrow _ _ Hr)), IH.
Qed.

Lemma allocated_grows (σ σ' : Heap.Store) (refs : list nat) :
  Heap.allocated σ refs →
  (∀ r clip, σ !! r = Some clip → σ' !! r = Some clip) →
  Heap.allocated σ' refs.
Proof.
  intros Halloc Hgrow. eapply Forall_impl; [done|].
  intros r [clip Hr]. exists clip. by apply Hgrow.
Qed.

(** The new array stands for the retagged clips. *)
Lemma mapRetag_deref (refs : list nat) :
  ∀ σ refs' σ',
    Heap.allocated σ refs →
    Heap.mapRetag clipId newType refs σ = (refs', σ') →
    Heap.deref σ' refs' = map (retagClip clipId newType) (Heap.deref σ refs).
Proof.
  induction refs as [|r0 rest IH]; intros σ refs' σ' Halloc Hrun; simpl in Hrun.
  - by injection Hrun as <- <-.
  - apply Forall_cons in Halloc as [[clip0 Hr0] Halloc]. rewrite Hr0 in Hrun.
    rewrite (deref_cons_Some σ r0 rest clip0 Hr0). simpl.
    unfold retagClip at 1. case_bool_decide as Hid.
    + unfold Heap.alloc in Hrun.
      set (r' := fresh (dom σ)) in *.
      destruct (Heap.mapRetag _ _ rest _) as [rest' σ2] eqn:Hrest.
      injection Hrun as <- <-.
      assert (∀ r clip, σ !! r = Some clip →
                        (<[r' := withType newType clip0]> σ) !! r = Some clip) as Hgrow.
      { intros r clip Hr. rewrite lookup_insert_ne; [done|].
        intros <-. apply (is_fresh (dom σ)), elem_of_dom. by eexists. }
      rewrite (deref_cons_Some σ2 r' rest' (withType newType clip0))
        by (eapply mapRetag_store_grows; [done|apply lookup_insert_eq]).
      f_equal.
      rewrite (IH _ _ _ (allocated_grows _ _ _ Halloc Hgrow) Hrest).
      by rewrite (deref_grows _ _ _ Halloc Hgrow).
    + destruct (Heap.mapRetag _ _ rest _) as [rest' σ2] eqn:Hrest.
      injection Hrun as <- <-.
      rewrite (deref_cons_Some σ2 r0 rest' clip0)
        by (by eapply mapRetag_store_grows).
      f_equal. by apply IH.
Qed.
End Objects.

(** C9: [updateClipType] sets the [type] of the catalog clips with the given
    id and leaves their other fields, every other clip, the sequences and
    the other state cells as they were; it changes nothing when no clip has
    the id.  On objects: the retagged clip is a new object, so the objects
    that the sequences refer to are unchanged, and the page after the call
    stands for the state after the call, with the same sequences, clips,
    types and durations in them. *)
Theorem retag_frame (clipId : string) (newType : ClipType) (p : Heap.Page)
    (l : bool) :
  Heap.wf p →
  let st := Heap.view p l in
  let st' := updateClipType clipId newType st in
  Heap.view (Heap.updateClipType clipId newType p) l = st' ∧
  (∀ r clip, Heap.store p !! r = Some clip →
             Heap.store (Heap.updateClipType clipId newType p) !! r = Some clip) ∧
  sequences st' = sequences st ∧
  loading st' = loading st ∧
  Forall2 (λ old new,
             VideoClip.id new = VideoClip.id old ∧
             VideoClip.name new = VideoClip.name old ∧
             VideoClip.duration new = VideoClip.duration old ∧
             VideoClip.file new = VideoClip.file old ∧
             VideoClip.type new =
               if bool_decide (VideoClip.id old = clipId) then newType
               else VideoClip.type old)
          (availableClips st) (availableClips st') ∧
  (clipId ∉ map VideoClip.id (availableClips st) → st' = st).
Proof.
  intros [Hclips Hseqs] st st'. subst st st'.
  unfold Heap.updateClipType, Heap.view, updateClipType. simpl.
  destruct (Heap.mapRetag clipId newType (Heap.availableClips p) (Heap.store p))
    as [refs' σ'] eqn:Hrun. simpl.
  pose proof (mapRetag_store_grows clipId newType _ _ _ _ Hrun) as Hgrow.
  split_and!; [|done..| |].
  - f_equal; [|by eapply mapRetag_deref].
    apply map_ext_Forall. eapply Forall_impl; [exact Hseqs|].
    intros s Hs. unfold Heap.viewSequence. f_equal. by apply deref_grows.
  - apply Forall2_fmap_r, Forall_Forall2_diag, Forall_forall.
    intros clip _. apply retagClip_fields.
  - intros Habsent. by rewrite retagClip_absent.
Qed.

Lemma retag_frame_witness :
  let p := Heap.examplePage in
  let st := Heap.view p false in
  let st' := updateClipType "3" cta st in
  Heap.view (Heap.updateClipType "3" cta p) false = st' ∧
  (∀ r clip, Heap.store p !! r = Some clip →
             Heap.store (Heap.updateClipType "3" cta p) !! r = Some clip) ∧
  sequences st' = sequences st ∧
  loading st' = loading st ∧
  Forall2 (λ old new,
             VideoClip.id new = VideoClip.id old ∧
             VideoClip.name new = VideoClip.name old ∧
             VideoClip.duration new = VideoClip.duration old ∧
             VideoClip.file new = VideoClip.file old ∧
             VideoClip.type new =
               if bool_decide (VideoClip.id old = "3") then cta
               else VideoClip.type old)
          (availableClips st) (availableClips st') ∧
  ("3" ∉ map VideoClip.id (availableClips st) → st' = st).
Proof.
  apply (retag_frame "3" cta Heap.examplePage false).
  split; repeat constructor; by eexists.
Defined.

(** A run: the third selling point of the demonstration catalog is retagged
    as a call to action after the ten sequences were generated.  The
    sequences keep it as the selling point it was, with the durations
    computed then; the catalog, which the next generation reads, has it among
    the calls to action. *)
Lemma retag_after_generate_example :
  sequences (updateClipType "5" cta demoGenerated) = demoSequences ∧
  ofType selling_point (availableClips (updateClipType "5" cta demoGenerated))
    = [feature1; feature2] ∧
  ofType cta (availableClips (updateClipType "5" cta demoGenerated))
    = [withType cta feature3; cta1; cta2].
Proof. split_and!; reflexivity. Qed.

(** * More on the generator *)

Lemma numbered_ids (ns : list Sequence.t) :
  numbered ns →
  map Sequence.id ns
  = map (λ i, "sequence-" +:+ pretty (i + 1)) (seq 0 (length ns)).
Proof.
  intros Hnum. apply list_eq. intros i. rewrite !list_lookup_fmap.
  destruct (decide (i < length ns)) as [Hlt|Hge].
  - destruct (lookup_lt_is_Some_2 ns i Hlt) as [s Hs]. rewrite Hs. simpl.
    rewrite lookup_seq_lt by done. simpl. f_equal. by apply Hnum.
  - rewrite lookup_ge_None_2 by lia. by rewrite lookup_seq_ge by lia.
Qed.

(** X1: when [generateSequences] gets past its guard and returns, the new
    list holds exactly [Math.min(10, maxCombinations)] sequences with
    pairwise different keys, their ids are [sequence-1], [sequence-2], ...
    in the order of the list, the catalog is the one it was given, the
    loading flag is off and the one toast reports the number of
    sequences. *)
Theorem generate_returns_exactly_target (draws : list Draw) (st st' : State)
    (toasts : list Toast) :
  ofType hook (availableClips st) ≠ [] → ofType cta (availableClips st) ≠ [] →
  generateSequences draws st = Returned st' toasts →
  length (sequences st')
    = Nat.min 10 (length (ofType hook (availableClips st))
                  * length (ofType cta (availableClips st))
                  * 2 ^ length (ofType selling_point (availableClips st))) ∧
  NoDup (map sequenceKey (sequences st')) ∧
  map Sequence.id (sequences st')
    = map (λ i, "sequence-" +:+ pretty (i + 1)) (seq 0 (length (sequences st'))) ∧
  availableClips st' = availableClips st ∧
  loading st' = false ∧
  toasts = [toast_success
              ("Generated " +:+ pretty (length (sequences st')) +:+ " unique sequences!")].
Proof.
  intros Hh Hc Hrun.
  destruct (generateSequences_returned (λ _, True) draws st st' toasts
              (Forall_True draws) Hh Hc Hrun) as ((Hnd & _ & Hnum) & Hlen & Hclips).
  rewrite generateSequences_loop in Hrun by done. simpl in Hrun.
  destruct (generateLoop _ _ _ _ _ _ _) as [r|r|]; [|done..].
  injection Hrun as <- <-. simpl in *.
  split_and!; try done. by apply numbered_ids.
Qed.

Lemma generate_returns_exactly_target_witness :
  length (sequences demoGenerated) = 10 ∧
  NoDup (map sequenceKey (sequences demoGenerated)) ∧
  map Sequence.id (sequences demoGenerated)
    = map (λ i, "sequence-" +:+ pretty (i + 1)) (seq 0 (length (sequences demoGenerated))) ∧
  availableClips demoGenerated = availableClips demoState ∧
  loading demoGenerated = false ∧
  demoToasts = [toast_success
                  ("Generated " +:+ pretty (length (sequences demoGenerated))
                   +:+ " unique sequences!")].
Proof.
  apply (generate_returns_exactly_target demoDraws demoState demoGenerated demoToasts).
  - vm_compute. discriminate.
  - vm_compute. discriminate.
  - vm_compute. reflexivity.
Defined.

(** ** What the key tells apart *)

Lemma keyParts_ids h sps c h' sps' c' :
  VideoClip.id h = VideoClip.id h' → VideoClip.id c = VideoClip.id c' →
  map VideoClip.id sps ≡ₚ map VideoClip.id sps' →
  combinationKey h sps c = combinationKey h' sps' c'.
Proof.
  intros Hh Hc Hperm. unfold combinationKey, keyParts.
  by rewrite Hh, Hc, (sortStrings_perm_eq _ _ Hperm).
Qed.

(** X2: in the list that a returning [generateSequences] leaves, no two
    sequences have hooks with the same id, calls to action with the same id
    and selling points with the same ids up to their order: a draw that
    differs from an earlier one only in the order of its selling points is
    rejected. *)
Theorem generated_no_reordered_duplicates (draws : list Draw) (st st' : State)
    (toasts : list Toast) (i j : nat) (s1 s2 : Sequence.t) :
  ofType hook (availableClips st) ≠ [] → ofType cta (availableClips st) ≠ [] →
  generateSequences draws st = Returned st' toasts →
  sequences st' !! i = Some s1 → sequences st' !! j = Some s2 → i ≠ j →
  ¬ ∃ h1 sps1 c1 h2 sps2 c2,
      Sequence.clips s1 = h1 :: sps1 ++ [c1] ∧
      Sequence.clips s2 = h2 :: sps2 ++ [c2] ∧
      VideoClip.id h1 = VideoClip.id h2 ∧
      VideoClip.id c1 = VideoClip.id c2 ∧
      map VideoClip.id sps1 ≡ₚ map VideoClip.id sps2.
Proof.
  intros Hh Hc Hrun Hi Hj Hij (h1 & sps1 & c1 & h2 & sps2 & c2 & H1 & H2 & Hhid & Hcid & Hperm).
  destruct (generateSequences_returned (λ _, True) draws st st' toasts
              (Forall_True draws) Hh Hc Hrun) as ((Hnd & _ & _) & _ & _).
  apply Hij. eapply (NoDup_lookup _ i j (sequenceKey s1) Hnd).
  - by rewrite list_lookup_fmap, Hi.
  - rewrite list_lookup_fmap, Hj. simpl. f_equal.
    unfold sequenceKey. rewrite H1, H2, !clipsKey_shape.
    symmetry. by apply keyParts_ids.
Qed.

Lemma generated_no_reordered_duplicates_witness :
  ¬ ∃ h1 sps1 c1 h2 sps2 c2,
      Sequence.clips (Sequence.mk "sequence-2" [hook2; feature2; feature1; cta1] (Double.literal (19 # 2)))
        = h1 :: sps1 ++ [c1] ∧
      Sequence.clips (Sequence.mk "sequence-9" [hook1; feature1; feature2; cta2] (Double.literal (76 # 8)))
        = h2 :: sps2 ++ [c2] ∧
      VideoClip.id h1 = VideoClip.id h2 ∧
      VideoClip.id c1 = VideoClip.id c2 ∧
      map VideoClip.id sps1 ≡ₚ map VideoClip.id sps2.
Proof.
  apply (generated_no_reordered_duplicates demoDraws demoState demoGenerated
           demoToasts 1 8).
  - vm_compute. discriminate.
  - vm_compute. discriminate.
  - vm_compute. reflexivity.
  - reflexivity.
  - reflexivity.
  - lia.
Defined.

(** ** Reading a key back *)

Lemma bar_split (a b r1 r2 : string) :
  barFree a → barFree b →
  a +:+ String bar r1 = b +:+ String bar r2 → a = b ∧ r1 = r2.
Proof.
  unfold barFree. revert b. induction a as [|ch a IH]; intros [|ch' b] Ha Hb Heq;
    simpl in *.
  - by injection Heq as ->.
  - injection Heq as <- _. by rewrite Ascii.eqb_refl in Hb.
  - injection Heq as -> _. by rewrite Ascii.eqb_refl in Ha.
  - injection Heq as -> Heq.
    apply orb_false_iff in Ha as [_ Ha]. apply orb_false_iff in Hb as [_ Hb].
    destruct (IH b Ha Hb Heq) as [-> ->]. done.
Qed.

Lemma bar_inside (a b r : string) : barFree a → a ≠ b +:+ String bar r.
Proof.
  unfold barFree. revert a. induction b as [|ch b IH]; intros [|ch' a] Ha Heq;
    simpl in *; try done.
  - injection Heq as -> _. by rewrite Ascii.eqb_refl in Ha.
  - injection Heq as -> Heq. apply orb_false_iff in Ha as [_ Ha]. by eapply IH.
Qed.

Lemma concat_bar_cons (a b : string) (l : list string) :
  String.concat "|" (a :: b :: l) = a +:+ String bar (String.concat "|" (b :: l)).
Proof. reflexivity. Qed.

(** Joining with the separator loses nothing when the separator is not in
    the parts. *)
Lemma concat_bar_inj (l1 : list string) :
  ∀ l2, l1 ≠ [] → l2 ≠ [] → Forall barFree l1 → Forall barFree l2 →
        String.concat "|" l1 = String.concat "|" l2 → l1 = l2.
Proof.
  induction l1 as [|a l1 IH]; intros [|b l2] Hne1 Hne2 Hf1 Hf2 Heq; try done.
  apply Forall_cons in Hf1 as [Ha Hf1]. apply Forall_cons in Hf2 as [Hb Hf2].
  destruct l1 as [|a' l1], l2 as [|b' l2].
  - simpl in Heq. by subst.
  - rewrite concat_bar_cons in Heq. simpl in Heq. by apply bar_inside in Heq.
  - rewrite concat_bar_cons in Heq. simpl in Heq. symmetry in Heq.
    by apply bar_inside in Heq.
  - rewrite !concat_bar_cons in Heq.
    destruct (bar_split _ _ _ _ Ha Hb Heq) as [-> Hrest].
    f_equal. by apply IH.
Qed.

(** X3: when the separator ["|"] occurs in none of the ids, equal keys mean
    the same hook id, the same call-to-action id and the same selling-point
    ids up to order; so the loop rejects a draw only when an earlier
    sequence has exactly that combination. *)
Theorem combinationKey_inj (h h' c c' : VideoClip.t) (sps sps' : list VideoClip.t) :
  Forall barFree (map VideoClip.id (h :: sps ++ [c])) →
  Forall barFree (map VideoClip.id (h' :: sps' ++ [c'])) →
  combinationKey h sps c = combinationKey h' sps' c' →
  VideoClip.id h = VideoClip.id h' ∧
  VideoClip.id c = VideoClip.id c' ∧
  map VideoClip.id sps ≡ₚ map VideoClip.id sps'.
Proof.
  intros Hf Hf' Hkey. unfold combinationKey in Hkey.
  apply concat_bar_inj in Hkey; try done.
  - unfold keyParts in Hkey. injection Hkey as Hh Hrest.
    apply app_inj_tail in Hrest as [Hsorted Hc].
    split_and!; [done..|].
    by rewrite <- (sortStrings_Permutation (map VideoClip.id sps)), Hsorted,
      sortStrings_Permutation.
  - unfold keyParts. simpl in Hf. rewrite map_app in Hf. simpl in Hf.
    apply Forall_cons in Hf as [Hh Hf]. apply Forall_app in Hf as [Hs Hc].
    constructor; [done|]. apply Forall_app. split; [|done].
    by rewrite sortStrings_Permutation.
  - unfold keyParts. simpl in Hf'. rewrite map_app in Hf'. simpl in Hf'.
    apply Forall_cons in Hf' as [Hh Hf']. apply Forall_app in Hf' as [Hs Hc].
    constructor; [done|]. apply Forall_app. split; [|done].
    by rewrite sortStrings_Permutation.
Qed.

Lemma combinationKey_inj_witness :
  VideoClip.id hook1 = VideoClip.id hook1 ∧
  VideoClip.id cta2 = VideoClip.id cta2 ∧
  map VideoClip.id [feature3; feature1] ≡ₚ map VideoClip.id [feature1; feature3].
Proof.
  apply (combinationKey_inj hook1 hook1 cta2 cta2 [feature3; feature1] [feature1; feature3]).
  - repeat constructor.
  - repeat constructor.
  - vm_compute. reflexivity.
Defined.

(** ** Deleting a generated sequence *)

Lemma sequence_id_inj (i j : nat) :
  "sequence-" +:+ pretty (i + 1) = "sequence-" +:+ pretty (j + 1) → i = j.
Proof. intros Heq%String.app_inj%(inj pretty). lia. Qed.

Lemma filter_all {A} (P : A → Prop) `{∀ x, Decision (P x)} (l : list A) :
  Forall P l → filter P l = l.
Proof.
  induction 1 as [|x l Hx _ IH]; [done|].
  by rewrite filter_cons, decide_True, IH.
Qed.

Lemma filter_numbered (l : list Sequence.t) :
  ∀ off k,
    (∀ i s, l !! i = Some s → Sequence.id s = "sequence-" +:+ pretty (off + i + 1)) →
    filter (λ seq, Sequence.id seq ≠ "sequence-" +:+ pretty (off + k + 1)) l
    = delete k l.
Proof.
  induction l as [|s l IH]; intros off k Hnum; [done|].
  rewrite filter_cons. pose proof (Hnum 0 s eq_refl) as Hs.
  rewrite Nat.add_0_r in Hs.
  assert (∀ i s', l !! i = Some s' →
                  Sequence.id s' = "sequence-" +:+ pretty (S off + i + 1)) as Hnum'.
  { intros i s' Hi. rewrite (Hnum (S i) s' Hi). do 2 f_equal. lia. }
  destruct k as [|k].
  - rewrite Nat.add_0_r. rewrite decide_False by (by intros ?).
    simpl. apply filter_all, Forall_forall.
    intros s' [i Hi]%list_elem_of_lookup.
    rewrite (Hnum' i s' Hi). intros Heq%sequence_id_inj. lia.
  - rewrite decide_True.
    + simpl. f_equal. replace (off + S k + 1) with (S off + k + 1) by lia.
      by apply IH.
    + rewrite Hs. intros Heq%sequence_id_inj. lia.
Qed.

(** X4: the ids that [generateSequences] gives are pairwise different, so
    after a returning run [deleteSequence] with the id [sequence-(k+1)]
    removes the sequence at position [k] and no other, keeps the remaining
    ones in order under the ids they had, and leaves the catalog alone. *)
Theorem delete_generated_sequence (draws : list Draw) (st st' : State)
    (toasts : list Toast) (k : nat) :
  ofType hook (availableClips st) ≠ [] → ofType cta (availableClips st) ≠ [] →
  generateSequences draws st = Returned st' toasts →
  NoDup (map Sequence.id (sequences st')) ∧
  deleteSequence ("sequence-" +:+ pretty (k + 1)) st'
  = (mkState (delete k (sequences st')) (availableClips st') (loading st'),
     [toast_success "Sequence removed"]).
Proof.
  intros Hh Hc Hrun.
  destruct (generateSequences_returned (λ _, True) draws st st' toasts
              (Forall_True draws) Hh Hc Hrun) as ((_ & _ & Hnum) & _ & _).
  split.
  - rewrite (numbered_ids _ Hnum). apply NoDup_fmap_2_strong; [|apply NoDup_seq].
    intros i j _ _. apply sequence_id_inj.
  - unfold deleteSequence. do 2 f_equal.
    apply (filter_numbered (sequences st') 0 k).
    intros i s Hi. by apply Hnum.
Qed.

Lemma delete_generated_sequence_witness :
  NoDup (map Sequence.id (sequences demoGenerated)) ∧
  deleteSequence ("sequence-" +:+ pretty (2 + 1)) demoGenerated
  = (mkState (delete 2 (sequences demoGenerated)) (availableClips demoGenerated)
       (loading demoGenerated),
     [toast_success "Sequence removed"]).
Proof.
  apply (delete_generated_sequence demoDraws demoState demoGenerated demoToasts 2).
  - vm_compute. discriminate.
  - vm_compute. discriminate.
  - vm_compute. reflexivity.
Defined.

(** ** Realizations that repeat a draw, and catalogs with a single key *)

Lemma generateLoop_first hooks sellingPoints ctas target d draws h c :
  0 < target →
  hooks !! floorRandom (u_hook d) (length hooks) = Some h →
  ctas !! floorRandom (u_cta d) (length ctas) = Some c →
  generateLoop hooks sellingPoints ctas target (d :: draws) [] ∅
  = generateLoop hooks sellingPoints ctas target draws
      [emitted [] h
         (take (Nat.min (floorRandom (u_count d) 3 + 1) (length sellingPoints))
            (shuffleWith (shuffle_code d) sellingPoints)) c]
      ({[combinationKey h
           (take (Nat.min (floorRandom (u_count d) 3 + 1) (length sellingPoints))
              (shuffleWith (shuffle_code d) sellingPoints)) c]} ∪ ∅).
Proof.
  intros Htarget Hh Hc. cbn [generateLoop].
  assert ((length (@nil Sequence.t) <? target) = true) as ->
    by (apply Nat.ltb_lt; simpl; lia).
  rewrite Hh, Hc. rewrite bool_decide_eq_false_2 by apply not_elem_of_empty.
  reflexivity.
Qed.

(** X5: the loop puts no bound on rejected draws.  On every catalog for
    which at least two sequences are asked for, a realization that yields
    the same random numbers in every iteration keeps the handler in its loop
    for ever: after one or more such draws it has not returned. *)
Theorem generate_constant_draws_hang (d : Draw) (n : nat) (st : State) :
  valid_draw d →
  ofType hook (availableClips st) ≠ [] → ofType cta (availableClips st) ≠ [] →
  2 ≤ maxCombinations (ofType hook (availableClips st))
        (ofType selling_point (availableClips st))
        (ofType cta (availableClips st)) →
  generateSequences (replicate (S n) d) st = Hung.
Proof.
  intros (Hu1 & Hu2 & _) Hh Hc Hmax.
  rewrite generateSequences_loop by done. cbv zeta.
  destruct (lookup_floorRandom _ (u_hook d) Hu1 Hh) as [h Hlh].
  destruct (lookup_floorRandom _ (u_cta d) Hu2 Hc) as [c Hlc].
  assert (2 ≤ numSequences (ofType hook (availableClips st))
                (ofType selling_point (availableClips st))
                (ofType cta (availableClips st))) as Htarget.
  { unfold numSequences. lia. }
  cbn [replicate].
  rewrite (generateLoop_first _ _ _ _ d _ h c) by (done || lia).
  by rewrite (generateLoop_repeated _ _ _ _ d h c n Hlh Hlc);
    [|simpl; lia|apply elem_of_union_l, elem_of_singleton].
Qed.

Lemma generate_constant_draws_hang_witness :
  generateSequences (replicate (S 20) (mkDraw (1 # 2) (1 # 2) (1 # 2) [1; 0])) demoState
  = Hung.
Proof.
  apply (generate_constant_draws_hang (mkDraw (1 # 2) (1 # 2) (1 # 2) [1; 0]) 20 demoState).
  - repeat split; unfold Qle, Qlt; simpl; lia.
  - vm_compute. discriminate.
  - vm_compute. discriminate.
  - vm_compute. lia.
Defined.

(** X6: a catalog with one hook, one call to action and no selling point is
    the case in which the loop cannot be kept running: the first draw gives
    the one sequence [hook, cta] that is asked for, and the handler returns
    it whatever the random numbers in the unit interval are. *)
Theorem generate_single_pair_returns (d : Draw) (draws : list Draw) (st : State)
    (h c : VideoClip.t) :
  valid_draw d →
  ofType hook (availableClips st) = [h] →
  ofType cta (availableClips st) = [c] →
  ofType selling_point (availableClips st) = [] →
  generateSequences (d :: draws) st
  = Returned
      (mkState [Sequence.mk "sequence-1" [h; c] (totalDuration [h; c])]
         (availableClips st) false)
      [toast_success "Generated 1 unique sequences!"].
Proof.
  intros (Hu1 & Hu2 & _) Hh Hc Hsp.
  rewrite generateSequences_loop by (rewrite ?Hh, ?Hc; done).
  cbv zeta. rewrite Hh, Hc, Hsp.
  assert (floorRandom (u_hook d) 1 = 0) as Hi
    by (pose proof (floorRandom_lt (u_hook d) 1 Hu1); lia).
  assert (floorRandom (u_cta d) 1 = 0) as Hj
    by (pose proof (floorRandom_lt (u_cta d) 1 Hu2); lia).
  rewrite (generateLoop_first [h] [] [c] _ d draws h c);
    [|vm_compute; lia|by (simpl length; rewrite Hi)|by (simpl length; rewrite Hj)].
  change (numSequences [h] [] [c]) with 1.
  rewrite Nat.min_0_r. cbn [take shuffleWith].
  by destruct draws.
Qed.

Lemma generate_single_pair_returns_witness :
  generateSequences (mkDraw (3 # 4) (1 # 3) (9 # 10) [5] :: demoDraws) bareState
  = Returned
      (mkState [Sequence.mk "sequence-1" [hook1; cta1] (totalDuration [hook1; cta1])]
         (availableClips bareState) false)
      [toast_success "Generated 1 unique sequences!"].
Proof.
  apply (generate_single_pair_returns (mkDraw (3 # 4) (1 # 3) (9 # 10) [5]) demoDraws
           bareState hook1 cta1).
  - repeat split; unfold Qle, Qlt; simpl; lia.
  - reflexivity.
  - reflexivity.
  - reflexivity.
Defined.

(** * The catalog: removing clips *)

Lemma filter_other_ids (clips : list VideoClip.t) :
  ∀ k clip,
    NoDup (map VideoClip.id clips) → clips !! k = Some clip →
    filter (λ c, VideoClip.id c ≠ VideoClip.id clip) clips = delete k clips.
Proof.
  induction clips as [|c clips IH]; intros k clip Hnd Hk; [done|].
  simpl in Hnd. apply NoDup_cons in Hnd as [Hc Hnd]. rewrite filter_cons.
  destruct k as [|k]; simpl in Hk.
  - injection Hk as ->. rewrite decide_False by (by intros ?). simpl.
    apply filter_all, Forall_forall. intros c' Hc' Heq. apply Hc.
    rewrite <- Heq. apply list_elem_of_fmap. by exists c'.
  - rewrite decide_True.
    + simpl. f_equal. by apply IH.
    + intros Heq. apply Hc. rewrite Heq. apply list_elem_of_fmap.
      exists clip. split; [done|]. by eapply list_elem_of_lookup_2.
Qed.

(** X7: with unique ids in the catalog, [removeClip] with the id of the
    clip at position [k] removes that clip and no other: the other clips
    keep their order, and the sequences, which may still hold the clip, and
    the loading flag are not touched. *)
Theorem removeClip_removes_one (st : State) (k : nat) (clip : VideoClip.t) :
  NoDup (map VideoClip.id (availableClips st)) →
  availableClips st !! k = Some clip →
  removeClip (VideoClip.id clip) st
  = (mkState (sequences st) (delete k (availableClips st)) (loading st),
     [toast_success "Clip removed"]).
Proof.
  intros Hnd Hk. unfold removeClip. do 2 f_equal. by apply filter_other_ids.
Qed.

Lemma removeClip_removes_one_witness :
  removeClip (VideoClip.id feature2) demoGenerated
  = (mkState (sequences demoGenerated) (delete 3 (availableClips demoGenerated))
       (loading demoGenerated),
     [toast_success "Clip removed"]).
Proof.
  apply (removeClip_removes_one demoGenerated 3 feature2).
  - apply (bool_decide_unpack _). vm_compute. exact I.
  - reflexivity.
Defined.

(** X8: [removeClip] with an id that no clip has changes nothing, and
    still shows the toast [Clip removed]. *)
Theorem removeClip_absent (clipId : string) (st : State) :
  clipId ∉ map VideoClip.id (availableClips st) →
  removeClip clipId st = (st, [toast_success "Clip removed"]).
Proof.
  intros Habsent. unfold removeClip. f_equal. destruct st as [seqs clips l]. simpl in *.
  f_equal. apply filter_all, Forall_forall. intros c Hc Heq.
  apply Habsent. rewrite <- Heq. apply list_elem_of_fmap. by exists c.
Qed.

Lemma removeClip_absent_witness :
  removeClip "clip-0" demoGenerated = (demoGenerated, [toast_success "Clip removed"]).
Proof.
  apply (removeClip_absent "clip-0" demoGenerated).
  apply (bool_decide_unpack _). vm_compute. exact I.
Defined.

Lemma ofType_filter_ids ty clipId (clips : list VideoClip.t) :
  Forall (λ c, VideoClip.id c = clipId) (ofType ty clips) →
  ofType ty (filter (λ c, VideoClip.id c ≠ clipId) clips) = [].
Proof.
  intros Hall. destruct (ofType ty (filter _ clips)) as [|c rest] eqn:Hof; [done|].
  assert (c ∈ ofType ty (filter (λ c, VideoClip.id c ≠ clipId) clips)) as Hc
    by (rewrite Hof; by left).
  apply elem_of_ofType in Hc as [Hty [Hid Hin]%list_elem_of_filter].
  destruct Hid. eapply (proj1 (Forall_forall _ _) Hall).
  by apply elem_of_ofType.
Qed.

(** X9: removing the hooks, or the calls to action, stops the generator.
    When every hook (or every call to action) of the catalog has the id
    that [removeClip] is given, a [generateSequences] after it shows an error
    toast and keeps the sequences generated before. *)
Theorem remove_then_generate_refused (clipId : string) (draws : list Draw) (st : State) :
  Forall (λ c, VideoClip.id c = clipId) (ofType hook (availableClips st)) ∨
  Forall (λ c, VideoClip.id c = clipId) (ofType cta (availableClips st)) →
  ∃ t, InsufficientInput t ∧
       generateSequences draws (removeClip clipId st).1
       = Returned (removeClip clipId st).1 [t] ∧
       sequences (removeClip clipId st).1 = sequences st.
Proof.
  intros Hall.
  destruct (generateSequences_guard draws (removeClip clipId st).1) as [Hrun|Hrun].
  { simpl. destruct Hall as [Hall|Hall]; [left|right]; by apply ofType_filter_ids. }
  - eexists. split; [by left|]. by split.
  - eexists. split; [by right|]. by split.
Qed.

Lemma remove_then_generate_refused_witness :
  ∃ t, InsufficientInput t ∧
       generateSequences demoDraws (removeClip "1" (mkState demoSequences tripleCatalog false)).1
       = Returned (removeClip "1" (mkState demoSequences tripleCatalog false)).1 [t] ∧
       sequences (removeClip "1" (mkState demoSequences tripleCatalog false)).1
       = sequences (mkState demoSequences tripleCatalog false).
Proof.
  apply (remove_then_generate_refused "1" demoDraws (mkState demoSequences tripleCatalog false)).
  left. repeat constructor.
Defined.

(** ** How the catalog operations compose *)

Lemma filter_filter_comm {A} (P Q : A → Prop) `{∀ x, Decision (P x)}
    `{∀ x, Decision (Q x)} (l : list A) :
  filter P (filter Q l) = filter Q (filter P l).
Proof.
  induction l as [|x l IH]; [done|].
  rewrite !filter_cons.
  destruct (decide (Q x)), (decide (P x)); rewrite ?filter_cons;
    rewrite ?decide_True by done; rewrite ?decide_False by done; by rewrite IH.
Qed.

Lemma filter_retag clipId a ty (clips : list VideoClip.t) :
  filter (λ c, VideoClip.id c ≠ clipId) (map (retagClip a ty) clips)
  = map (retagClip a ty) (filter (λ c, VideoClip.id c ≠ clipId) clips).
Proof.
  induction clips as [|c clips IH]; [done|].
  cbn [map]. rewrite !filter_cons.
  destruct (retagClip_fields a ty c) as (Hid & _). rewrite Hid.
  destruct (decide (VideoClip.id c ≠ clipId)); cbn [map]; by rewrite IH.
Qed.

Lemma retag_retag clipId ty1 ty2 (clip : VideoClip.t) :
  retagClip clipId ty2 (retagClip clipId ty1 clip) = retagClip clipId ty2 clip.
Proof.
  unfold retagClip. destruct (decide (VideoClip.id clip = clipId)) as [Hid|Hid].
  - rewrite (bool_decide_eq_true_2 (VideoClip.id clip = clipId)) by done. simpl.
    by rewrite bool_decide_eq_true_2.
  - rewrite (bool_decide_eq_false_2 (VideoClip.id clip = clipId)) by done.
    by rewrite bool_decide_eq_false_2.
Qed.

(** X10: the catalog operations act on ids only: two removals commute, a
    removal commutes with a retagging, of two retaggings of one id the last
    one counts, a removal is not changed by a retagging of the same id
    before it, and removing twice is removing once. *)
Theorem catalog_operations_compose (a b : string) (ty ty' : ClipType) (st : State) :
  (removeClip a (removeClip b st).1).1 = (removeClip b (removeClip a st).1).1 ∧
  (removeClip a (updateClipType b ty st)).1 = updateClipType b ty (removeClip a st).1 ∧
  updateClipType a ty' (updateClipType a ty st) = updateClipType a ty' st ∧
  (removeClip a (updateClipType a ty st)).1 = (removeClip a st).1 ∧
  (removeClip a (removeClip a st).1).1 = (removeClip a st).1.
Proof.
  unfold removeClip, updateClipType. simpl. split_and!; f_equal.
  - apply filter_filter_comm.
  - apply filter_retag.
  - rewrite map_map. apply map_ext. intros c. apply retag_retag.
  - rewrite filter_retag.
    rewrite (map_ext_in _ (λ c, c)); [apply map_id|].
    intros c [Hid _]%list_elem_of_In%list_elem_of_filter. unfold retagClip.
    by rewrite bool_decide_eq_false_2.
  - apply filter_all, Forall_forall. by intros c [Hid _]%list_elem_of_filter.
Qed.

(** * More on the export pipeline *)

(** X24: a single export that succeeds can be repeated: when the names of
    the export are not in use and the engine accepts the staged inputs,
    exporting the sequence by its button twice in a row succeeds both
    times, downloads the same video twice and leaves the working area as it
    was before the first export. *)
Theorem single_export_repeatable (E : Engine) (sequence : Sequence.t)
    (w : World) (fs : FS) :
  writesOutputOnly E →
  ready w fs →
  (∀ name, name ∈ scratchNames (length (Sequence.clips sequence)) → fs !! name = None) →
  firstMissing (Sequence.clips sequence) = None →
  (∃ fs', E concatArgs (staged (Sequence.clips sequence) fs) = inr fs') →
  ∃ out w1 w2,
    exportSequence E sequence None w = (inr None, w1) ∧
    exportSequence E sequence None w1 = (inr None, w2) ∧
    ffmpeg w1 = Some fs ∧ ffmpeg w2 = Some fs ∧
    let events :=
      [Toasted (toast_success "Starting export...");
       Exec concatArgs (staged (Sequence.clips sequence) fs);
       Downloaded ("restitched " +:+ Sequence.id sequence +:+ ".mp4") (VideoBlob out);
       Toasted (toast_success "Export completed!")] in
    log w2 = log w ++ events ++ events.
Proof.
  intros HE Hready Hfree Hall [fs' Hengine].
  destruct (HE _ _ _ Hengine) as [out ->].
  pose proof (exportSequence_single_ok E _ _ _ Hready out Hall Hengine) as Hrun1.
  rewrite cleaned_working_area in Hrun1 by done.
  set (w1 := mkWorld _ false (Some fs) _) in Hrun1.
  pose proof (exportSequence_single_ok E sequence w1 fs (conj eq_refl eq_refl) out
                Hall Hengine) as Hrun2.
  rewrite cleaned_working_area in Hrun2 by done.
  eexists out, w1, _. split_and!; [exact Hrun1|exact Hrun2|done|done|].
  simpl. by rewrite <- app_assoc.
Qed.

Lemma single_export_repeatable_witness :
  ∃ out w1 w2,
    exportSequence stubEngine fullSequence None (readyWorld []) = (inr None, w1) ∧
    exportSequence stubEngine fullSequence None w1 = (inr None, w2) ∧
    ffmpeg w1 = Some ∅ ∧ ffmpeg w2 = Some ∅ ∧
    let events :=
      [Toasted (toast_success "Starting export...");
       Exec concatArgs (staged (Sequence.clips fullSequence) ∅);
       Downloaded ("restitched " +:+ Sequence.id fullSequence +:+ ".mp4") (VideoBlob out);
       Toasted (toast_success "Export completed!")] in
    log w2 = log (readyWorld []) ++ events ++ events.
Proof.
  apply (single_export_repeatable stubEngine fullSequence (readyWorld []) ∅).
  - apply stubEngine_writesOutputOnly.
  - split; reflexivity.
  - intros name _. apply lookup_empty.
  - reflexivity.
  - eexists. vm_compute. reflexivity.
Defined.

(** ** What an export never touches *)

Ltac keeps_page_solve :=
  simpl; split_and!;
  [ done | done | done
  | first [ done | split; intros _; by eexists ]
  | first [ exists []; by rewrite app_nil_r | by eexists ] ].

Lemma keepsPage_ret {A} (a : A) : keepsPage (mret a).
Proof. intros w. keeps_page_solve. Qed.

Lemma keepsPage_throw {A} (e : Exn) : keepsPage (@throw A e).
Proof. intros w. keeps_page_solve. Qed.

Lemma keepsPage_bind {A B} (m : M A) (f : A → M B) :
  keepsPage m → (∀ a, keepsPage (f a)) → keepsPage (m ≫= f).
Proof.
  intros Hm Hf w. destruct (Hm w) as (Hs & Hc & Hl & Hf1 & evs & Hlog).
  unfold mbind, M_bind. destruct (m w) as [[e|a] w1]; simpl in *.
  - split_and!; try done. by exists evs.
  - destruct (Hf a w1) as (Hs' & Hc' & Hl' & Hf' & evs' & Hlog').
    split_and!; try congruence.
    + by rewrite Hf', Hf1.
    + exists (evs ++ evs'). by rewrite Hlog', Hlog, app_assoc.
Qed.

Lemma keepsPage_emit (ev : Event) : keepsPage (emit ev).
Proof. intros w. keeps_page_solve. Qed.

Lemma keepsPage_setLoading (b : bool) : keepsPage (setLoading b).
Proof. intros w. keeps_page_solve. Qed.

Lemma keepsPage_when (b : bool) (m : M ()) : keepsPage m → keepsPage (when b m).
Proof. destruct b; [done|]. intros _. apply keepsPage_ret. Qed.

Lemma keepsPage_writeFile path data : keepsPage (writeFile path data).
Proof.
  intros w. unfold writeFile, getFS, setFS, mbind, M_bind.
  destruct (ffmpeg w) as [fs|] eqn:Hfs; simpl; rewrite ?Hfs; keeps_page_solve.
Qed.

Lemma keepsPage_readFile path : keepsPage (readFile path).
Proof.
  intros w. unfold readFile, getFS, mbind, M_bind.
  destruct (ffmpeg w) as [fs|] eqn:Hfs; simpl;
    [destruct (fs !! path); simpl|]; rewrite ?Hfs; keeps_page_solve.
Qed.

Lemma keepsPage_deleteFile path : keepsPage (deleteFile path).
Proof.
  intros w. unfold deleteFile, getFS, setFS, mbind, M_bind.
  destruct (ffmpeg w) as [fs|] eqn:Hfs; simpl;
    [destruct (fs !! path); simpl|]; rewrite ?Hfs; keeps_page_solve.
Qed.

Lemma keepsPage_exec (E : Engine) args : keepsPage (exec E args).
Proof.
  intros w. unfold exec, getFS, setFS, emit, mbind, M_bind.
  destruct (ffmpeg w) as [fs|] eqn:Hfs; simpl;
    [destruct (E args fs); simpl|]; rewrite ?Hfs; keeps_page_solve.
Qed.

Lemma keepsPage_tryCatchFinally {A} (body : M A) (handler : Exn → M A) (final : M ()) :
  keepsPage body → (∀ e, keepsPage (handler e)) → keepsPage final →
  keepsPage (tryCatchFinally body handler final).
Proof.
  intros Hb Hh Hfin w. unfold tryCatchFinally.
  destruct (Hb w) as (Hs & Hc & Hl & Hf1 & evs & Hlog).
  destruct (body w) as [[e|a] w1]; simpl in *.
  - destruct (Hh e w1) as (Hs' & Hc' & Hl' & Hf' & evs' & Hlog').
    destruct (handler e w1) as [r w2]. simpl in *.
    destruct (Hfin w2) as (Hs'' & Hc'' & Hl'' & Hf'' & evs'' & Hlog'').
    split_and!; try congruence.
    + by rewrite Hf'', Hf', Hf1.
    + exists (evs ++ evs' ++ evs''). by rewrite Hlog'', Hlog', Hlog, !app_assoc.
  - destruct (Hfin w1) as (Hs'' & Hc'' & Hl'' & Hf'' & evs'' & Hlog'').
    split_and!; try congruence.
    + by rewrite Hf'', Hf1.
    + exists (evs ++ evs''). by rewrite Hlog'', Hlog, app_assoc.
Qed.

Lemma keepsPage_writeInputs clips : ∀ i acc, keepsPage (writeInputs clips i acc).
Proof.
  induction clips as [|clip rest IH]; intros i acc; simpl.
  - apply keepsPage_ret.
  - destruct (VideoClip.file clip); [|apply keepsPage_throw].
    apply keepsPage_bind; [apply keepsPage_writeFile|]. intros _. apply IH.
Qed.

Lemma keepsPage_deleteInputs clips : ∀ i, keepsPage (deleteInputs clips i).
Proof.
  induction clips as [|clip rest IH]; intros i; simpl.
  - apply keepsPage_ret.
  - apply keepsPage_bind; [apply keepsPage_deleteFile|]. intros _. apply IH.
Qed.

Ltac keeps_page_step :=
  first [ apply keepsPage_setLoading
        | apply keepsPage_when
        | apply keepsPage_emit
        | apply keepsPage_writeInputs
        | apply keepsPage_deleteInputs
        | apply keepsPage_writeFile
        | apply keepsPage_readFile
        | apply keepsPage_deleteFile
        | apply keepsPage_exec
        | apply keepsPage_ret
        | apply keepsPage_throw
        | apply keepsPage_bind; [|intros ?] ].

Lemma keepsPage_exportSequence E sequence index :
  keepsPage (exportSequence E sequence index).
Proof.
  intros w. unfold exportSequence.
  destruct (ffmpegLoading w || bool_decide (ffmpeg w = None)).
  - apply (keepsPage_bind (toast _) (λ _, mret None));
      [apply keepsPage_emit|intros _; apply keepsPage_ret].
  - apply keepsPage_tryCatchFinally.
    + unfold exportBody. repeat keeps_page_step.
      destruct index; repeat keeps_page_step.
    + intros e. repeat keeps_page_step.
    + apply keepsPage_when, keepsPage_setLoading.
Qed.

Lemma keepsPage_exportAll E seqs : ∀ i zip, keepsPage (exportAll E seqs i zip).
Proof.
  induction seqs as [|s rest IH]; intros i zip; simpl.
  - apply keepsPage_ret.
  - apply keepsPage_bind; [apply keepsPage_exportSequence|]. intros r. apply IH.
Qed.

Lemma keepsPage_downloadAllSequences E : keepsPage (downloadAllSequences E).
Proof.
  intros w. unfold downloadAllSequences.
  destruct (_ || _).
  - apply keepsPage_emit.
  - apply (keepsPage_bind (setLoading true)); [apply keepsPage_setLoading|].
    intros _. apply keepsPage_bind; [apply keepsPage_emit|]. intros _.
    apply keepsPage_tryCatchFinally.
    + apply keepsPage_bind; [apply keepsPage_exportAll|]. intros zip.
      apply keepsPage_bind; [apply keepsPage_emit|]. intros _. apply keepsPage_emit.
    + intros e. apply keepsPage_bind; [apply keepsPage_emit|]. intros _.
      apply keepsPage_emit.
    + apply keepsPage_setLoading.
Qed.

(** X11: whatever the engine does and however an export ends, neither
    [exportSequence] nor [downloadAllSequences] changes the sequences or the
    catalog, loads or unloads the engine, or takes anything back from the
    log; and [downloadAllSequences] never throws: every failure of an export
    ends in its own [catch]. *)
Theorem export_keeps_page (E : Engine) (sequence : Sequence.t)
    (index : option nat) (w : World) :
  keepsPage (exportSequence E sequence index) ∧
  keepsPage (downloadAllSequences E) ∧
  (downloadAllSequences E w).1 = inr ().
Proof.
  split; [apply keepsPage_exportSequence|].
  split; [apply keepsPage_downloadAllSequences|].
  unfold downloadAllSequences. destruct (_ || _); [done|].
  unfold mbind, M_bind, tryCatchFinally, setLoading, toast, emit. simpl.
  by destruct (exportAll E _ 0 [] _) as [[e|zip] w1].
Qed.

(** ** What the next export of a batch finds *)

Lemma exportSequence_indexed_returned (E : Engine) (s : Sequence.t) (i : nat)
    (w w' : World) (fs : FS) (buffer : NamedBuffer) :
  writesOutputOnly E → ready w fs →
  exportSequence E s (Some i) w = (inr (Some buffer), w') →
  firstMissing (Sequence.clips s) = None ∧
  ready w' (<["output.mp4" := buffer_data buffer]> (staged (Sequence.clips s) fs)).
Proof.
  intros HE Hready Hrun.
  destruct (firstMissing (Sequence.clips s)) as [clip|] eqn:Hfm.
  { by rewrite (exportSequence_missing E _ _ _ _ Hready clip Hfm) in Hrun. }
  destruct (E concatArgs (staged (Sequence.clips s) fs)) as [e|fs'] eqn:Hengine.
  { by rewrite (exportSequence_engine_error E _ _ _ _ Hready e Hfm Hengine) in Hrun. }
  destruct (HE _ _ _ Hengine) as [out ->].
  rewrite (exportSequence_batch_ok E _ _ _ _ Hready _ out Hfm Hengine) in Hrun
    by apply lookup_insert_eq.
  injection Hrun as <- <-. by split.
Qed.

(** An event that is in the log stays there. *)
Lemma logged_bind_l {A B} (m : M A) (f : A → M B) (ev : Event) (w : World) :
  (∀ a, keepsPage (f a)) → ev ∈ log (m w).2 → ev ∈ log ((m ≫= f) w).2.
Proof.
  intros Hf Hev. unfold mbind, M_bind. destruct (m w) as [[e|a] w1]; [done|].
  simpl in *. destruct (Hf a w1) as (_ & _ & _ & _ & evs & ->).
  apply elem_of_app. by left.
Qed.

Lemma logged_bind_r {A B} (m : M A) (f : A → M B) (ev : Event) (w w1 : World) (a : A) :
  m w = (inr a, w1) → ev ∈ log (f a w1).2 → ev ∈ log ((m ≫= f) w).2.
Proof. intros Hm Hev. unfold mbind, M_bind. by rewrite Hm. Qed.

Lemma logged_tryCatchFinally {A} (body : M A) (handler : Exn → M A) (final : M ())
    (ev : Event) (w : World) :
  (∀ e, keepsPage (handler e)) → keepsPage final →
  ev ∈ log (body w).2 → ev ∈ log (tryCatchFinally body handler final w).2.
Proof.
  intros Hh Hfin Hev. unfold tryCatchFinally.
  destruct (body w) as [[e|a] w1]; simpl in *.
  - destruct (Hh e w1) as (_ & _ & _ & _ & evs & Hlog).
    destruct (handler e w1) as [r w2]. simpl in *.
    destruct (Hfin w2) as (_ & _ & _ & _ & evs' & ->).
    rewrite Hlog, !elem_of_app. by left; left.
  - destruct (Hfin w1) as (_ & _ & _ & _ & evs' & ->).
    rewrite elem_of_app. by left.
Qed.

(** With the engine loaded and a file for every clip, an export gets as far
    as the call of the engine, with or without a position and whatever the
    engine does then. *)
Lemma exportSequence_calls_engine (E : Engine) (s : Sequence.t)
    (index : option nat) (w : World) (fs : FS) :
  ready w fs → firstMissing (Sequence.clips s) = None →
  Exec concatArgs (staged (Sequence.clips s) fs)
    ∈ log (exportSequence E s index w).2.
Proof.
  intros [Hl Hf] Hfm. unfold exportSequence. rewrite Hl, Hf. simpl.
  apply logged_tryCatchFinally.
  { intros e. repeat keeps_page_step. }
  { apply keepsPage_when, keepsPage_setLoading. }
  unfold exportBody.
  eapply logged_bind_r; [reflexivity|].
  assert (∃ w1, when (notIndex index) (toast (toast_success "Starting export..."))
                  (setLoading true w).2 = (inr (), w1) ∧ ffmpeg w1 = Some fs)
    as (w1 & Hw1 & Hf1).
  { destruct (notIndex index); by eexists. }
  eapply logged_bind_r; [exact Hw1|].
  eapply logged_bind_r.
  { erewrite writeInputs_run by exact Hf1. by rewrite Hfm. }
  eapply logged_bind_r; [reflexivity|].
  apply logged_bind_l.
  { intros _. repeat keeps_page_step. destruct index; repeat keeps_page_step. }
  unfold exec, getFS, setFS, emit, mbind, M_bind. simpl.
  fold (staged (Sequence.clips s) fs).
  destruct (E concatArgs (staged (Sequence.clips s) fs)); simpl;
    rewrite elem_of_app; right; by left.
Qed.

(** X12: in a batch the working area is handed from one export to the
    next as the early return left it.  After an export with a position has
    returned its buffer, the engine call of the next export runs on a file
    system that still holds that buffer as [output.mp4], and, beyond the
    inputs of the next sequence, the inputs of the one before. *)
Theorem batch_export_sees_leftovers (E : Engine) (s1 s2 : Sequence.t) (i j : nat)
    (w w1 : World) (fs : FS) (buffer : NamedBuffer) :
  writesOutputOnly E → ready w fs →
  exportSequence E s1 (Some i) w = (inr (Some buffer), w1) →
  firstMissing (Sequence.clips s2) = None →
  ∃ fs2,
    Exec concatArgs fs2 ∈ log (exportSequence E s2 (Some j) w1).2 ∧
    fs2 !! "output.mp4" = Some (buffer_data buffer) ∧
    ∀ k clip, length (Sequence.clips s2) ≤ k →
              Sequence.clips s1 !! k = Some clip →
              fs2 !! inputName k = Binary <$> VideoClip.file clip.
Proof.
  intros HE Hready Hrun Hfm2.
  destruct (exportSequence_indexed_returned E s1 i w w1 fs buffer HE Hready Hrun)
    as [Hfm1 Hready1].
  eexists. split; [by apply exportSequence_calls_engine|]. split.
  - unfold staged at 1. rewrite lookup_insert_ne by done.
    rewrite stage_lookup_other by (intros; apply not_eq_sym, inputName_not_output).
    apply lookup_insert_eq.
  - intros k clip Hk Hclip. unfold staged at 1. rewrite lookup_insert_ne by done.
    rewrite stage_lookup_other by (intros k' Hk' Heq%(inj inputName); lia).
    rewrite lookup_insert_ne by done.
    unfold staged. rewrite lookup_insert_ne by done.
    apply firstMissing_None in Hfm1.
    destruct (proj1 (Forall_forall _ _) Hfm1 clip) as [f Hf].
    { by eapply list_elem_of_lookup_2. }
    rewrite Hf. simpl.
    apply (stage_lookup_input _ 0 fs k clip f Hclip Hf).
    by apply firstMissing_None, Forall_take.
Qed.

Lemma batch_export_sees_leftovers_witness :
  ∃ fs2,
    Exec concatArgs fs2
      ∈ log (exportSequence stubEngine shortSequence (Some 1)
               (exportSequence stubEngine fullSequence (Some 0) (readyWorld [])).2).2 ∧
    fs2 !! "output.mp4" = Some (Binary [x01; x02; x03; x04; x05]) ∧
    ∀ k clip, length (Sequence.clips shortSequence) ≤ k →
              Sequence.clips fullSequence !! k = Some clip →
              fs2 !! inputName k = Binary <$> VideoClip.file clip.
Proof.
  apply (batch_export_sees_leftovers stubEngine fullSequence shortSequence 0 1
           (readyWorld []) _ ∅
           (mkNamedBuffer "restitched 1.mp4" (Binary [x01; x02; x03; x04; x05]))).
  - apply stubEngine_writesOutputOnly.
  - split; reflexivity.
  - vm_compute. reflexivity.
  - reflexivity.
Defined.

(** * Uploading clips *)

(** ** Substrings *)

Lemma string_app_cons (ch : Ascii.ascii) (a b : string) :
  String ch a +:+ b = String ch (a +:+ b).
Proof. reflexivity. Qed.

Lemma string_app_nil_l (b : string) : "" +:+ b = b.
Proof. reflexivity. Qed.

Lemma string_app_assoc (a b c : string) : (a +:+ b) +:+ c = a +:+ b +:+ c.
Proof.
  induction a as [|ch a IH]; [done|].
  by rewrite !string_app_cons, IH.
Qed.

Lemma startsWith_spec (s p : string) :
  startsWith s p = true ↔ ∃ after, s = p +:+ after.
Proof.
  revert s. induction p as [|ch p IH]; intros s.
  - split; [|by destruct s]. intros _. by exists s.
  - destruct s as [|c s]; simpl.
    + split; [done|]. intros [after Heq]. by rewrite string_app_cons in Heq.
    + rewrite andb_true_iff, IH. split.
      * intros [->%Ascii.eqb_eq [after ->]]. by exists after.
      * intros [after Heq]. rewrite string_app_cons in Heq.
        injection Heq as -> ->. split; [apply Ascii.eqb_refl|by exists after].
Qed.

Lemma includes_spec (s needle : string) :
  includes s needle = true ↔ occursIn needle s.
Proof.
  unfold occursIn. induction s as [|c s IH].
  - cbn [includes]. rewrite orb_false_r, startsWith_spec. split.
    + intros [after ->]. by exists "", after.
    + intros ([|c before] & after & Heq); [by exists after|].
      by rewrite string_app_cons in Heq.
  - cbn [includes]. rewrite orb_true_iff, startsWith_spec, IH. split.
    + intros [[after ->]|(before & after & ->)].
      * by exists "", after.
      * by exists (String c before), after.
    + intros ([|c' before] & after & Heq).
      * left. by exists after.
      * right. rewrite string_app_cons in Heq. injection Heq as -> ->.
        by exists before, after.
Qed.

Lemma includes_false (s needle : string) :
  includes s needle = false ↔ ¬ occursIn needle s.
Proof.
  rewrite <- includes_spec. by destruct (includes s needle).
Qed.

Lemma occursIn_context (needle s a b : string) :
  occursIn needle s → occursIn needle (a +:+ s +:+ b).
Proof.
  intros (x & y & ->). exists (a +:+ x), (y +:+ b).
  by rewrite !string_app_assoc.
Qed.

Lemma toLowerCase_app (a b : string) :
  toLowerCase (a +:+ b) = toLowerCase a +:+ toLowerCase b.
Proof.
  induction a as [|c a IH]; [done|].
  rewrite string_app_cons. simpl. by rewrite IH, string_app_cons.
Qed.

Lemma detectClipType_hook_iff (filename : string) :
  detectClipType filename = hook ↔ occursIn "hook" (toLowerCase filename).
Proof.
  unfold detectClipType. cbv zeta. rewrite <- includes_spec.
  destruct (includes (toLowerCase filename) "hook"); [done|].
  repeat match goal with
         | |- context [if ?b then _ else _] => destruct b
         end; done.
Qed.

(** X13: [detectClipType] looks for words anywhere in the lower-cased file
    name, and the first test that succeeds decides: a name in which [hook]
    occurs is a hook even when [cta] occurs too; otherwise a name in which
    [cta] or [call to action] occurs is a call to action; every other name
    is a selling point, whether or not [selling point] or [sp] occurs in
    it. *)
Theorem detectClipType_spec (filename : string) :
  (detectClipType filename = hook ↔ occursIn "hook" (toLowerCase filename)) ∧
  (detectClipType filename = cta ↔
     ¬ occursIn "hook" (toLowerCase filename) ∧
     (occursIn "cta" (toLowerCase filename) ∨
      occursIn "call to action" (toLowerCase filename))) ∧
  (detectClipType filename = selling_point ↔
     ¬ occursIn "hook" (toLowerCase filename) ∧
     ¬ occursIn "cta" (toLowerCase filename) ∧
     ¬ occursIn "call to action" (toLowerCase filename)).
Proof.
  unfold detectClipType. cbv zeta.
  rewrite <- !includes_false, <- !includes_spec.
  destruct (includes (toLowerCase filename) "hook"),
           (includes (toLowerCase filename) "cta"),
           (includes (toLowerCase filename) "call to action"),
           (includes (toLowerCase filename) "selling point"),
           (includes (toLowerCase filename) "sp"); simpl;
    intuition congruence.
Qed.

(** X14: what stands before or after a name in which [hook] occurs, an
    extension, a folder or another word, does not change what it is detected
    as, and neither does the case of its letters. *)
Theorem detectClipType_hook_in_context (filename before after : string) :
  occursIn "hook" (toLowerCase filename) →
  detectClipType (before +:+ filename +:+ after) = hook.
Proof.
  intros Hocc. apply detectClipType_hook_iff.
  rewrite !toLowerCase_app. by apply occursIn_context.
Qed.

Lemma detectClipType_hook_in_context_witness :
  detectClipType ("videos/" +:+ "My HOOK take 2" +:+ " - cta.mp4") = hook.
Proof.
  apply (detectClipType_hook_in_context "My HOOK take 2" "videos/" " - cta.mp4").
  exists "my ", " take 2". reflexivity.
Defined.

(** ** The name of a clip *)

(** X15: the name of an uploaded clip, [file.name.split('.')[0]], is the
    part of the file name before its first dot: it has no dot, a name
    without dot is kept whole, and of a name [a.rest] with no dot in [a] it
    is [a], so everything after the first dot is dropped, not the extension
    only. *)
Theorem beforeDot_spec (s : string) :
  hasChar dot (beforeDot s) = false ∧
  (hasChar dot s = false → beforeDot s = s) ∧
  (∀ a rest, hasChar dot a = false → s = a +:+ String dot rest → beforeDot s = a).
Proof.
  split_and!.
  - induction s as [|c s IH]; [done|]. simpl.
    destruct (Ascii.eqb c dot) eqn:Hc; [done|]. simpl. by rewrite Hc.
  - induction s as [|c s IH]; [done|]. simpl.
    destruct (Ascii.eqb c dot); [done|]. simpl. intros Hs. by rewrite IH.
  - intros a. revert s. induction a as [|c a IH]; intros s rest Ha ->.
    + rewrite string_app_nil_l. reflexivity.
    + rewrite string_app_cons. simpl in *.
      apply orb_false_iff in Ha as [Hc Ha]. rewrite Hc. f_equal. by eapply IH.
Qed.

(** ** Taking files in *)

Lemma uploadFiles_run (files : list Upload) :
  ∀ w,
    uploadFiles files w
    = (inr (),
       mkWorld
         (mkState (sequences (state w))
            (availableClips (state w) ++ map newClip files) (loading (state w)))
         (ffmpegLoading w) (ffmpeg w) (log w ++ map uploadToast files)).
Proof.
  induction files as [|file rest IH]; intros w.
  - simpl. rewrite !app_nil_r. by destruct w as [[] ? ? ?].
  - cbn [uploadFiles]. unfold mbind, M_bind, addClip, toast, emit. simpl.
    rewrite IH. simpl. by rewrite <- !app_assoc.
Qed.

(** X16: with the engine loaded, [handleFileUpload] adds one clip for each
    file, in the order of the files, behind the clips that are there, and
    shows one toast for each; the clips that were there, the sequences and
    the working area stay as they are.  Every new clip holds its file, takes
    its type from the file name and its name from the part before the first
    dot. *)
Theorem handleFileUpload_appends (files : list Upload) (w : World) (fs : FS) :
  ready w fs →
  handleFileUpload (Some files) w
  = (inr (),
     mkWorld
       (mkState (sequences (state w))
          (availableClips (state w) ++ map newClip files) (loading (state w)))
       false (Some fs) (log w ++ map uploadToast files)) ∧
  Forall2 (λ file clip,
             VideoClip.file clip = Some (upload_data file) ∧
             VideoClip.type clip = detectClipType (upload_name file) ∧
             VideoClip.name clip = beforeDot (upload_name file) ∧
             VideoClip.duration clip = upload_duration file)
          files (map newClip files).
Proof.
  intros [Hl Hf]. split.
  - unfold handleFileUpload. rewrite Hl, Hf. simpl.
    by rewrite uploadFiles_run, Hl, Hf.
  - apply Forall2_fmap_r, Forall_Forall2_diag, Forall_forall. by intros file _.
Qed.

Lemma handleFileUpload_appends_witness :
  handleFileUpload (Some uploadedFiles) (readyWorld [])
  = (inr (),
     mkWorld
       (mkState (sequences (state (readyWorld [])))
          (availableClips (state (readyWorld [])) ++ map newClip uploadedFiles)
          (loading (state (readyWorld []))))
       false (Some ∅) (log (readyWorld []) ++ map uploadToast uploadedFiles)) ∧
  Forall2 (λ file clip,
             VideoClip.file clip = Some (upload_data file) ∧
             VideoClip.type clip = detectClipType (upload_name file) ∧
             VideoClip.name clip = beforeDot (upload_name file) ∧
             VideoClip.duration clip = upload_duration file)
          uploadedFiles (map newClip uploadedFiles).
Proof.
  apply (handleFileUpload_appends uploadedFiles (readyWorld []) ∅).
  split; reflexivity.
Defined.

(** ** Clips and their files *)

Lemma allHaveFiles_retag clipId ty clips :
  allHaveFiles clips → allHaveFiles (map (retagClip clipId ty) clips).
Proof.
  intros Hall. apply Forall_fmap. eapply Forall_impl; [done|].
  intros c Hc. simpl. by destruct (retagClip_fields clipId ty c) as (_ & _ & _ & -> & _).
Qed.

(** X17: the operations on the catalog keep every clip with its file: when
    all clips of the catalog hold one, they still do after a retagging, a
    removal, a clearing and an upload. *)
Theorem catalog_keeps_files (clipId : string) (ty : ClipType)
    (files : option (list Upload)) (w : World) :
  allHaveFiles (availableClips (state w)) →
  allHaveFiles (availableClips (updateClipType clipId ty (state w))) ∧
  allHaveFiles (availableClips (removeClip clipId (state w)).1) ∧
  allHaveFiles (availableClips (removeAllClips (state w)).1) ∧
  allHaveFiles (availableClips (state (handleFileUpload files w).2)).
Proof.
  intros Hall. split_and!.
  - by apply allHaveFiles_retag.
  - simpl. apply Forall_forall. intros c [_ Hc]%list_elem_of_filter.
    by eapply (proj1 (Forall_forall _ _) Hall).
  - constructor.
  - unfold handleFileUpload. destruct (_ || _); [done|].
    destruct files as [files|]; [|done].
    rewrite uploadFiles_run. simpl. apply Forall_app. split; [done|].
    apply Forall_fmap, Forall_forall. intros file _. by eexists.
Qed.

Lemma catalog_keeps_files_witness :
  let w := mkWorld (mkState [] (map newClip uploadedFiles) false) false (Some ∅) [] in
  allHaveFiles (availableClips (updateClipType "clip-1700000000001-0.5" hook (state w))) ∧
  allHaveFiles (availableClips (removeClip "clip-1700000000001-0.5" (state w)).1) ∧
  allHaveFiles (availableClips (removeAllClips (state w)).1) ∧
  allHaveFiles (availableClips (state (handleFileUpload (Some uploadedFiles) w).2)).
Proof.
  apply (catalog_keeps_files "clip-1700000000001-0.5" hook (Some uploadedFiles)
           (mkWorld (mkState [] (map newClip uploadedFiles) false) false (Some ∅) [])).
  repeat constructor; by eexists.
Defined.

(** X18: sequences generated from a catalog in which every clip holds its
    file can be exported: every clip of every generated sequence holds its
    file, so an export of such a sequence, by its button (no position) or as
    part of a batch (with a position), does not stop at a missing file but
    gets the inputs and the manifest in place and calls the engine. *)
Theorem generated_sequences_have_files (draws : list Draw) (st st' : State)
    (toasts : list Toast) (s : Sequence.t) (E : Engine) (index : option nat)
    (w : World) (fs : FS) :
  allHaveFiles (availableClips st) →
  ofType hook (availableClips st) ≠ [] → ofType cta (availableClips st) ≠ [] →
  generateSequences draws st = Returned st' toasts →
  s ∈ sequences st' →
  ready w fs →
  allHaveFiles (Sequence.clips s) ∧
  firstMissing (Sequence.clips s) = None ∧
  Exec concatArgs (staged (Sequence.clips s) fs)
    ∈ log (exportSequence E s index w).2.
Proof.
  intros Hall Hh Hc Hrun Hs Hready.
  destruct (returned_fromDraw _ draws st st' toasts s (Forall_True draws) Hh Hc Hrun Hs)
    as (d & h & sps & c & _ & Hdrawn & Hclips & _).
  assert (allHaveFiles (Sequence.clips s)) as Hfiles.
  { rewrite Hclips. apply Forall_forall. intros clip Hclip.
    eapply (proj1 (Forall_forall _ _) Hall).
    eapply elem_of_submseteq; [done|]. by eapply drawn_submseteq. }
  assert (firstMissing (Sequence.clips s) = None) as Hfm
    by by apply firstMissing_None.
  split_and!; [done|done|].
  by apply exportSequence_calls_engine.
Qed.

Lemma generated_sequences_have_files_witness :
  let s := Sequence.mk "sequence-1" [introClip; buyClip]
             (totalDuration [introClip; buyClip]) in
  allHaveFiles (Sequence.clips s) ∧
  firstMissing (Sequence.clips s) = None ∧
  Exec concatArgs (staged (Sequence.clips s) ∅)
    ∈ log (exportSequence stubEngine s None (readyWorld [])).2.
Proof.
  apply (generated_sequences_have_files [mkDraw 0 0 0 []]
           (mkState [] [introClip; buyClip] false)
           (mkState [Sequence.mk "sequence-1" [introClip; buyClip]
                       (totalDuration [introClip; buyClip])]
              [introClip; buyClip] false)
           [toast_success "Generated 1 unique sequences!"]
           (Sequence.mk "sequence-1" [introClip; buyClip]
              (totalDuration [introClip; buyClip]))
           stubEngine None (readyWorld []) ∅).
  - repeat constructor; by eexists.
  - discriminate.
  - discriminate.
  - reflexivity.
  - simpl. left.
  - split; reflexivity.
Defined.

(** * Loading the engine *)

Lemma onLog_values (messages : list string) (progress : nat) :
  progress ∈ [0; 25; 50; 75] →
  fold_left (λ pr message, onLog message pr) messages progress ∈ [0; 25; 50; 75].
Proof.
  revert progress. induction messages as [|m ms IH]; intros progress Hp; [done|].
  simpl. apply IH. unfold onLog.
  repeat match goal with |- context [if ?b then _ else _] => destruct b end;
    try exact Hp; rewrite !elem_of_cons; auto 10.
Qed.

(** X19: what [initFFmpeg] leaves behind on a page without engine.  The
    loading screen is closed and the sequences and the catalog are as they
    were in both cases.  When loading succeeds the engine is ready on the
    working area of the loaded instance and the progress is 100; when it is
    rejected there is still no engine, the error is logged and reported by a
    toast, and the progress stays at the 0, 25, 50 or 75 that the log
    messages had set: it never shows 100. *)
Theorem initFFmpeg_outcome (l : EngineLoad) (p : Boot) :
  ffmpeg (world p) = None →
  ffmpegLoading (world (initFFmpeg l p)) = false ∧
  state (world (initFFmpeg l p)) = state (world p) ∧
  match load_outcome l with
  | inr fs =>
      ready (world (initFFmpeg l p)) fs ∧
      loadingProgress (initFFmpeg l p) = 100 ∧
      log (world (initFFmpeg l p))
      = log (world p) ++ [Toasted (toast_success "Video processing initialized")]
  | inl error =>
      ffmpeg (world (initFFmpeg l p)) = None ∧
      loadingProgress (initFFmpeg l p) ∈ [0; 25; 50; 75] ∧
      log (world (initFFmpeg l p))
      = log (world p)
        ++ [ConsoleError "Error initializing FFmpeg:" error;
            Toasted (toast_error "Failed to initialize video processing")]
  end.
Proof.
  intros Hnone. unfold initFFmpeg.
  destruct (load_outcome l) as [error|fs]; simpl; split_and!; try done.
  apply onLog_values. rewrite elem_of_cons. by left.
Qed.

Lemma initFFmpeg_outcome_witness :
  ffmpegLoading (world (initFFmpeg rejectedLoad initialBoot)) = false ∧
  state (world (initFFmpeg rejectedLoad initialBoot)) = state (world initialBoot) ∧
  match load_outcome rejectedLoad with
  | inr fs =>
      ready (world (initFFmpeg rejectedLoad initialBoot)) fs ∧
      loadingProgress (initFFmpeg rejectedLoad initialBoot) = 100 ∧
      log (world (initFFmpeg rejectedLoad initialBoot))
      = log (world initialBoot)
        ++ [Toasted (toast_success "Video processing initialized")]
  | inl error =>
      ffmpeg (world (initFFmpeg rejectedLoad initialBoot)) = None ∧
      loadingProgress (initFFmpeg rejectedLoad initialBoot) ∈ [0; 25; 50; 75] ∧
      log (world (initFFmpeg rejectedLoad initialBoot))
      = log (world initialBoot)
        ++ [ConsoleError "Error initializing FFmpeg:" error;
            Toasted (toast_error "Failed to initialize video processing")]
  end.
Proof.
  apply (initFFmpeg_outcome rejectedLoad initialBoot). reflexivity.
Defined.

Lemma handleFileUpload_not_ready (files : option (list Upload)) (w : World) :
  ffmpegLoading w = true ∨ ffmpeg w = None →
  handleFileUpload files w
  = (inr (),
     withLog [Toasted (toast_error "Please wait for video processing to initialize")] w).
Proof.
  intros Hnot. unfold handleFileUpload.
  assert (ffmpegLoading w || bool_decide (ffmpeg w = None) = true) as ->; [|done].
  destruct Hnot as [-> | ->]; [done|].
  by rewrite bool_decide_eq_true_2, orb_true_r.
Qed.

(** X20: after a rejected load the page is open but nothing that needs the
    engine works, and it stays so: an upload, an export and a batch download
    each show their error toast and do nothing else, whatever was done on
    the page before with these three handlers. *)
Theorem failed_init_blocks_page (l : EngineLoad) (p : Boot) (error : Exn)
    (E : Engine) (before : list (M ())) (files : option (list Upload))
    (sequence : Sequence.t) (index : option nat) :
  ffmpeg (world p) = None →
  load_outcome l = inl error →
  Forall (λ m, (∃ fs, m = handleFileUpload fs)
               ∨ (∃ s i, m = (exportSequence E s i;; mret ()))
               ∨ m = downloadAllSequences E) before →
  let w := (foldr (λ m k, m;; k) (mret ()) before (world (initFFmpeg l p))).2 in
  handleFileUpload files w
  = (inr (),
     withLog [Toasted (toast_error "Please wait for video processing to initialize")] w) ∧
  exportSequence E sequence index w
  = (inr None,
     withLog [Toasted (toast_error "Please wait for video processing to initialize")] w) ∧
  downloadAllSequences E w
  = (inr (),
     withLog [Toasted (toast_error "No sequences to download or processing not ready")] w).
Proof.
  intros Hnone Hl Hbefore w.
  assert (ffmpeg w = None) as Hw.
  { subst w.
    assert (ffmpeg (world (initFFmpeg l p)) = None) as H0
      by (unfold initFFmpeg; by rewrite Hl).
    revert H0. generalize (world (initFFmpeg l p)). clear Hnone Hl.
    induction Hbefore as [|m ms Hm _ IH]; intros w0 H0; [done|].
    cbn [foldr]. unfold mbind, M_bind at 1.
    assert (∃ r, m w0 = (inr r, (m w0).2) ∧ ffmpeg (m w0).2 = None) as (r & Hrun & H1).
    { destruct Hm as [[fs ->] | [(s & i & ->) | ->]].
      - rewrite handleFileUpload_not_ready by by right. by eexists.
      - unfold mbind, M_bind. rewrite exportSequence_not_ready by by right.
        by eexists.
      - rewrite downloadAllSequences_refused by (right; by left). by eexists. }
    rewrite Hrun. by apply IH. }
  split_and!.
  - apply handleFileUpload_not_ready. by right.
  - apply exportSequence_not_ready. by right.
  - apply downloadAllSequences_refused. right. by left.
Qed.

Lemma failed_init_blocks_page_witness :
  let w :=
    (foldr (λ m k, m;; k) (mret ())
       [handleFileUpload (Some uploadedFiles); downloadAllSequences stubEngine]
       (world (initFFmpeg rejectedLoad initialBoot))).2 in
  handleFileUpload (Some uploadedFiles) w
  = (inr (),
     withLog [Toasted (toast_error "Please wait for video processing to initialize")] w) ∧
  exportSequence stubEngine fullSequence None w
  = (inr None,
     withLog [Toasted (toast_error "Please wait for video processing to initialize")] w) ∧
  downloadAllSequences stubEngine w
  = (inr (),
     withLog [Toasted (toast_error "No sequences to download or processing not ready")] w).
Proof.
  apply (failed_init_blocks_page rejectedLoad initialBoot
           (Error "failed to import ffmpeg-core.js") stubEngine
           [handleFileUpload (Some uploadedFiles); downloadAllSequences stubEngine]
           (Some uploadedFiles) fullSequence None).
  - reflexivity.
  - reflexivity.
  - constructor; [left; by eexists|].
    constructor; [right; by right|]. constructor.
Defined.

(** * The generator of the earlier version *)

Lemma earlier_generateLoop_run hooks sellingPoints ctas :
  hooks ≠ [] → ctas ≠ [] →
  ∀ draws i ns,
    Forall valid_draw draws → i ≤ 10 → 10 - i ≤ length draws →
    ∃ ms,
      Earlier.generateLoop hooks sellingPoints ctas draws i ns = Exited (ns ++ ms) ∧
      length ms = 10 - i ∧
      ∀ k s, ms !! k = Some s →
        Sequence.id s = "sequence-" +:+ pretty (i + k) ∧
        ∃ d h sel c,
          draws !! k = Some d ∧ drawn hooks sellingPoints ctas d h sel c ∧
          Sequence.clips s = h :: sel ++ [c] ∧
          Sequence.duration s = totalDuration (Sequence.clips s).
Proof.
  intros Hh Hc draws.
  induction draws as [|d draws IH]; intros i ns Hvalid Hi Hlen.
  - simpl in Hlen. assert (i = 10) as -> by lia.
    exists []. simpl. by rewrite app_nil_r.
  - cbn [Earlier.generateLoop]. destruct (i <? 10) eqn:Hlt.
    + apply Nat.ltb_lt in Hlt.
      apply Forall_cons in Hvalid as [(Hu1 & Hu2 & Hu3) Hvalid].
      destruct (lookup_floorRandom hooks (u_hook d) Hu1 Hh) as [h Hlh].
      destruct (lookup_floorRandom ctas (u_cta d) Hu2 Hc) as [c Hlc].
      rewrite Hlh, Hlc. cbv zeta.
      set (sel := take _ (shuffleWith _ sellingPoints)).
      set (s0 := Sequence.mk _ _ _).
      destruct (IH (S i) (ns ++ [s0]) Hvalid) as (ms & Hrun & Hms & Hall);
        [lia|simpl in Hlen; lia|].
      exists (s0 :: ms). split_and!.
      * by rewrite Hrun, <- app_assoc.
      * simpl. lia.
      * intros [|k] s Hs.
        -- injection Hs as <-. split; [by rewrite Nat.add_0_r|].
           by exists d, h, sel, c.
        -- destruct (Hall k s Hs) as (Hid & d' & h' & sel' & c' & Hd & Hrest).
           split; [by rewrite Hid, Nat.add_succ_comm|].
           by exists d', h', sel', c'.
    + apply Nat.ltb_ge in Hlt. assert (i = 10) as -> by lia.
      exists []. simpl. by rewrite app_nil_r.
Qed.

Lemma earlier_generateSequences_run (draws : list Draw) (st : State) :
  Forall valid_draw draws → 10 ≤ length draws →
  ofType hook (availableClips st) ≠ [] → ofType cta (availableClips st) ≠ [] →
  ∃ ns,
    Earlier.generateSequences draws st
    = Returned (mkState ns (availableClips st) false)
        [toast_success "Generated new sequences!"] ∧
    length ns = 10 ∧
    ∀ k s, ns !! k = Some s →
      Sequence.id s = "sequence-" +:+ pretty k ∧
      ∃ d h sel c,
        draws !! k = Some d ∧
        drawn (ofType hook (availableClips st))
          (ofType selling_point (availableClips st))
          (ofType cta (availableClips st)) d h sel c ∧
        Sequence.clips s = h :: sel ++ [c] ∧
        Sequence.duration s = totalDuration (Sequence.clips s).
Proof.
  intros Hvalid Hlen Hh Hc.
  destruct (earlier_generateLoop_run _ (ofType selling_point (availableClips st)) _
              Hh Hc draws 0 [] Hvalid) as (ns & Hrun & Hns & Hall); [lia|lia|].
  exists ns. split_and!; [|done|done].
  unfold Earlier.generateSequences.
  destruct (availableClips st) as [|clip clips] eqn:Hclips; [done|].
  change (length (clip :: clips) =? 0) with false. cbv iota zeta.
  destruct (ofType hook (clip :: clips)) as [|? ?]; [done|].
  destruct (ofType cta (clip :: clips)) as [|? ?]; [done|].
  change ((length (_ :: _) =? 0) || (length (_ :: _) =? 0)) with false. cbv iota.
  by rewrite Hrun.
Qed.

(** X21: the earlier version of [generateSequences] always comes back: with
    a hook and a call to action in the catalog and random numbers in the
    unit interval it uses ten draws and returns exactly ten sequences,
    numbered from [sequence-0] to [sequence-9], with the catalog unchanged
    and the loading flag off.  Each of them is one hook, then at most three
    selling points, then one call to action, all of them clips of the
    catalog, and its duration is the value of the reduction over its
    clips. *)
Theorem earlier_generate_returns_ten (draws : list Draw) (st : State) :
  Forall valid_draw draws → 10 ≤ length draws →
  ofType hook (availableClips st) ≠ [] → ofType cta (availableClips st) ≠ [] →
  ∃ ns,
    Earlier.generateSequences draws st
    = Returned (mkState ns (availableClips st) false)
        [toast_success "Generated new sequences!"] ∧
    length ns = 10 ∧
    map Sequence.id ns = map (λ k, "sequence-" +:+ pretty k) (seq 0 10) ∧
    Forall (λ s, hasShape 0 3 s ∧
                 Sequence.clips s ⊆+ availableClips st ∧
                 Sequence.duration s = totalDuration (Sequence.clips s)) ns.
Proof.
  intros Hvalid Hlen Hh Hc.
  destruct (earlier_generateSequences_run draws st Hvalid Hlen Hh Hc)
    as (ns & Hrun & Hns & Hall).
  exists ns. split_and!; [done|done| |].
  - apply list_eq. intros k. rewrite !list_lookup_fmap.
    destruct (ns !! k) as [s|] eqn:Hs.
    + destruct (Hall k s Hs) as [Hid _].
      apply lookup_lt_Some in Hs. rewrite Hns in Hs.
      rewrite lookup_seq_lt by done. simpl. by rewrite Hid.
    + apply lookup_ge_None in Hs. rewrite Hns in Hs.
      by rewrite lookup_seq_ge.
  - apply Forall_forall. intros s [k Hs]%list_elem_of_lookup.
    destruct (Hall k s Hs) as (_ & d & h & sel & c & Hd & Hdrawn & Hclips & Hdur).
    destruct (drawn_types _ d h c sel Hdrawn) as (Hth & Htsel & Htc).
    split_and!; [|by rewrite Hclips; eapply drawn_submseteq|done].
    exists h, sel, c. split_and!; [done..|lia|].
    rewrite (drawn_count _ _ _ d h c sel Hdrawn).
    destruct (proj1 (Forall_lookup _ _) Hvalid k d Hd) as (_ & _ & Hu).
    pose proof (floorRandom_lt (u_count d) 3 Hu). lia.
Qed.

Lemma earlier_generate_returns_ten_witness :
  ∃ ns,
    Earlier.generateSequences demoDraws demoState
    = Returned (mkState ns (availableClips demoState) false)
        [toast_success "Generated new sequences!"] ∧
    length ns = 10 ∧
    map Sequence.id ns = map (λ k, "sequence-" +:+ pretty k) (seq 0 10) ∧
    Forall (λ s, hasShape 0 3 s ∧
                 Sequence.clips s ⊆+ availableClips demoState ∧
                 Sequence.duration s = totalDuration (Sequence.clips s)) ns.
Proof.
  apply (earlier_generate_returns_ten demoDraws demoState).
  - repeat constructor; unfold Qle, Qlt; simpl; lia.
  - vm_compute. lia.
  - discriminate.
  - discriminate.
Defined.


(** X22: the earlier version does not compare the sequences it makes: when
    the random numbers repeat, the ten sequences returned all have the same
    clips (the current version never returns two sequences with one
    combination). *)
Theorem earlier_generate_repeats (d : Draw) (rest : list Draw) (st : State) :
  valid_draw d → Forall valid_draw rest →
  ofType hook (availableClips st) ≠ [] → ofType cta (availableClips st) ≠ [] →
  ∃ ns clips,
    Earlier.generateSequences (replicate 10 d ++ rest) st
    = Returned (mkState ns (availableClips st) false)
        [toast_success "Generated new sequences!"] ∧
    length ns = 10 ∧
    ∀ s, s ∈ ns → Sequence.clips s = clips.
Proof.
  intros Hd Hrest Hh Hc.
  destruct (earlier_generateSequences_run (replicate 10 d ++ rest) st)
    as (ns & Hrun & Hns & Hall); [| |done|done|].
  { apply Forall_app. split; [|done]. by apply Forall_replicate. }
  { rewrite length_app, length_replicate. lia. }
  assert (∀ k s, ns !! k = Some s →
            ∃ h sel c,
              drawn (ofType hook (availableClips st))
                (ofType selling_point (availableClips st))
                (ofType cta (availableClips st)) d h sel c ∧
              Sequence.clips s = h :: sel ++ [c]) as Hsame.
  { intros k s Hs. destruct (Hall k s Hs) as (_ & d' & h & sel & c & Hk & Hdr & Hcl & _).
    assert (k < 10) as Hlt by (apply lookup_lt_Some in Hs; lia).
    rewrite lookup_app_l in Hk by (rewrite length_replicate; lia).
    apply lookup_replicate in Hk as [-> _]. by exists h, sel, c. }
  destruct ns as [|s0 ns']; [done|].
  exists (s0 :: ns'), (Sequence.clips s0). split_and!; [done..|].
  intros s [k Hs]%list_elem_of_lookup.
  destruct (Hsame k s Hs) as (h & sel & c & (Hh1 & Hc1 & Hs1) & ->).
  destruct (Hsame 0 s0 eq_refl) as (h0 & sel0 & c0 & (Hh0 & Hc0 & Hs0) & ->).
  congruence.
Qed.

Lemma earlier_generate_repeats_witness :
  ∃ ns clips,
    Earlier.generateSequences (replicate 10 (mkDraw 0 0 0 []) ++ []) demoState
    = Returned (mkState ns (availableClips demoState) false)
        [toast_success "Generated new sequences!"] ∧
    length ns = 10 ∧
    ∀ s, s ∈ ns → Sequence.clips s = clips.
Proof.
  apply (earlier_generate_repeats (mkDraw 0 0 0 []) [] demoState).
  - repeat split; unfold Qle, Qlt; simpl; lia.
  - constructor.
  - discriminate.
  - discriminate.
Defined.

(** * The generator of the first version *)

Lemma take_min_length {A} (n : nat) (l : list A) :
  take (Nat.min n (length l)) l = take n l.
Proof.
  destruct (decide (n ≤ length l)) as [Hle|Hgt].
  - by rewrite Nat.min_l.
  - rewrite Nat.min_r by lia. rewrite !take_ge by lia. done.
Qed.

Lemma take_min_shuffle {A} (n : nat) (code : list nat) (l : list A) :
  take (Nat.min n (length l)) (shuffleWith code l) = take n (shuffleWith code l).
Proof. rewrite <- (shuffleWith_length code l). apply take_min_length. Qed.

Lemma first_generateLoop_earlier (draws : list Draw) :
  ∀ i ns,
    First.generateLoop draws i ns
    = Earlier.generateLoop (ofType hook demoCatalog) (ofType selling_point demoCatalog)
        (ofType cta demoCatalog) draws i ns.
Proof.
  induction draws as [|d draws IH]; intros i ns; [done|].
  cbn [First.generateLoop Earlier.generateLoop]. cbv zeta.
  unfold First.availableClips.
  destruct (i <? 10); [|done].
  destruct (ofType hook demoCatalog !! _) as [h|]; [|done].
  destruct (ofType cta demoCatalog !! _) as [c|]; [|done].
  by rewrite take_min_shuffle, IH.
Qed.

(** X23: the first version of [generateSequences], on its built-in catalog
    of two hooks, three selling points and two calls to action, returns ten
    sequences for every ten or more random draws in the unit interval, and
    each of them is one hook, then one to three selling points, then one
    call to action; on this catalog it does what the earlier version does. *)
Theorem first_generate_shape (draws : list Draw) :
  Forall valid_draw draws → 10 ≤ length draws →
  First.generateSequences draws = Earlier.generateSequences draws demoState ∧
  ∃ ns,
    First.generateSequences draws
    = Returned (mkState ns demoCatalog false)
        [toast_success "Generated new sequences!"] ∧
    length ns = 10 ∧
    Forall (hasShape 1 3) ns.
Proof.
  intros Hvalid Hlen.
  assert (First.generateSequences draws = Earlier.generateSequences draws demoState)
    as Heq.
  { unfold First.generateSequences, Earlier.generateSequences.
    by rewrite first_generateLoop_earlier. }
  split; [done|]. rewrite Heq.
  destruct (earlier_generateSequences_run draws demoState Hvalid Hlen)
    as (ns & Hrun & Hns & Hall); [done|done|].
  exists ns. split_and!; [done|done|].
  apply Forall_forall. intros s [k Hs]%list_elem_of_lookup.
  destruct (Hall k s Hs) as (_ & d & h & sel & c & Hd & Hdrawn & Hclips & _).
  destruct (drawn_types demoCatalog d h c sel Hdrawn) as (Hth & Htsel & Htc).
  exists h, sel, c. split_and!; [done..| |].
  - rewrite (drawn_count _ _ _ d h c sel Hdrawn).
    change (length (ofType selling_point (availableClips demoState))) with 3. lia.
  - rewrite (drawn_count _ _ _ d h c sel Hdrawn).
    change (length (ofType selling_point (availableClips demoState))) with 3. lia.
Qed.

Lemma first_generate_shape_witness :
  First.generateSequences demoDraws = Earlier.generateSequences demoDraws demoState ∧
  ∃ ns,
    First.generateSequences demoDraws
    = Returned (mkState ns demoCatalog false)
        [toast_success "Generated new sequences!"] ∧
    length ns = 10 ∧
    Forall (hasShape 1 3) ns.
Proof.
  apply (first_generate_shape demoDraws).
  - repeat constructor; unfold Qle, Qlt; simpl; lia.
  - vm_compute. lia.
Defined.
